(** * Unity FBX exporter for Blender: the transform rewriter and its driver

    A shallow embedding of [__init__.py] (module-level functions
    [unhide_collections] ... [export_unity_fbx]) over an explicit model of
    the host ([bpy], [mathutils]).  The program is written in a small state
    and exception monad over a [World]: the scene, the undo stack, standard
    output, the module globals, and a journal of the operator calls made.

    Matrices are 4x4 over the canonical rationals [Qc]: the arithmetic is
    exact, so [Rotation(radians(-90), 4, 'X')] is the matrix with cosine 0
    and sine -1; the rounding of the host's floats is outside the model. *)

From Stdlib Require Import QArith Qcanon Field Ring.
From stdpp Require Import gmap strings list.

(** ** mathutils.Matrix *)

Module Mathutils.

Local Open Scope Qc_scope.

Record Matrix := mkMatrix {
  m00 : Qc; m01 : Qc; m02 : Qc; m03 : Qc;
  m10 : Qc; m11 : Qc; m12 : Qc; m13 : Qc;
  m20 : Qc; m21 : Qc; m22 : Qc; m23 : Qc;
  m30 : Qc; m31 : Qc; m32 : Qc; m33 : Qc }.

#[global] Instance Matrix_eq_dec : EqDecision Matrix.
Proof. solve_decision. Defined.

(** [a @ b] *)
Definition mmul (a b : Matrix) : Matrix :=
  mkMatrix
    (m00 a * m00 b + m01 a * m10 b + m02 a * m20 b + m03 a * m30 b)
    (m00 a * m01 b + m01 a * m11 b + m02 a * m21 b + m03 a * m31 b)
    (m00 a * m02 b + m01 a * m12 b + m02 a * m22 b + m03 a * m32 b)
    (m00 a * m03 b + m01 a * m13 b + m02 a * m23 b + m03 a * m33 b)
    (m10 a * m00 b + m11 a * m10 b + m12 a * m20 b + m13 a * m30 b)
    (m10 a * m01 b + m11 a * m11 b + m12 a * m21 b + m13 a * m31 b)
    (m10 a * m02 b + m11 a * m12 b + m12 a * m22 b + m13 a * m32 b)
    (m10 a * m03 b + m11 a * m13 b + m12 a * m23 b + m13 a * m33 b)
    (m20 a * m00 b + m21 a * m10 b + m22 a * m20 b + m23 a * m30 b)
    (m20 a * m01 b + m21 a * m11 b + m22 a * m21 b + m23 a * m31 b)
    (m20 a * m02 b + m21 a * m12 b + m22 a * m22 b + m23 a * m32 b)
    (m20 a * m03 b + m21 a * m13 b + m22 a * m23 b + m23 a * m33 b)
    (m30 a * m00 b + m31 a * m10 b + m32 a * m20 b + m33 a * m30 b)
    (m30 a * m01 b + m31 a * m11 b + m32 a * m21 b + m33 a * m31 b)
    (m30 a * m02 b + m31 a * m12 b + m32 a * m22 b + m33 a * m32 b)
    (m30 a * m03 b + m31 a * m13 b + m32 a * m23 b + m33 a * m33 b).

(** [Matrix.Identity(4)], also the result of [m.identity()] *)
Definition identity : Matrix :=
  mkMatrix 1 0 0 0
           0 1 0 0
           0 0 1 0
           0 0 0 1.

Definition zero_matrix : Matrix :=
  mkMatrix 0 0 0 0  0 0 0 0  0 0 0 0  0 0 0 0.

(** [Matrix.Rotation(math.radians(-90.0), 4, 'X')]: cos = 0, sin = -1. *)
Definition Rotation_neg90_X : Matrix :=
  mkMatrix 1 0    0 0
           0 0    1 0
           0 (-1) 0 0
           0 0    0 1.

(** [Matrix.Rotation(math.radians(90.0), 4, 'X')]: cos = 0, sin = 1. *)
Definition Rotation_pos90_X : Matrix :=
  mkMatrix 1 0 0    0
           0 0 (-1) 0
           0 1 0    0
           0 0 0    1.

Definition det3 (a b c d e f g h i : Qc) : Qc :=
  a * (e * i - f * h) - b * (d * i - f * g) + c * (d * h - e * g).

Definition determinant (m : Matrix) : Qc :=
  let '(mkMatrix a b c d e f g h i j k l p q r s) := m in
    a * det3 f g h j k l q r s
  - b * det3 e g h i k l p r s
  + c * det3 e f h i j l p q s
  - d * det3 e f g i j k p q r.

Definition adjugate (m : Matrix) : Matrix :=
  let '(mkMatrix a b c d e f g h i j k l p q r s) := m in
  mkMatrix
    (det3 f g h j k l q r s) (- det3 b c d j k l q r s)
    (det3 b c d f g h q r s) (- det3 b c d f g h j k l)
    (- det3 e g h i k l p r s) (det3 a c d i k l p r s)
    (- det3 a c d e g h p r s) (det3 a c d e g h i k l)
    (det3 e f h i j l p q s) (- det3 a b d i j l p q s)
    (det3 a b d e f h p q s) (- det3 a b d e f h i j l)
    (- det3 e f g i j k p q r) (det3 a b c i j k p q r)
    (- det3 a b c e f g p q r) (det3 a b c e f g i j k).

Definition mscale (x : Qc) (m : Matrix) : Matrix :=
  let '(mkMatrix a b c d e f g h i j k l p q r s) := m in
  mkMatrix (x * a) (x * b) (x * c) (x * d) (x * e) (x * f) (x * g) (x * h)
           (x * i) (x * j) (x * k) (x * l) (x * p) (x * q) (x * r) (x * s).

(** [m.inverted()]: [None] stands for the [ValueError] that mathutils
    raises on a matrix without inverse. *)
Definition inverted (m : Matrix) : option Matrix :=
  if decide (determinant m = 0) then None
  else Some (mscale (/ determinant m) (adjugate m)).

(** The host's own C inversion never raises; on a singular matrix its
    result carries no meaning and is taken to be the zero matrix. *)
Definition invert_m4 (m : Matrix) : Matrix :=
  default zero_matrix (inverted m).

(** Translation column, as a matrix. *)
Definition translation_of (m : Matrix) : Matrix :=
  mkMatrix 1 0 0 (m03 m)
           0 1 0 (m13 m)
           0 0 1 (m23 m)
           0 0 0 1.

Definition diag3 (x y z : Qc) : Matrix :=
  mkMatrix x 0 0 0
           0 y 0 0
           0 0 z 0
           0 0 0 1.

(** Squared length of column [0], [1], [2] of the upper-left 3x3 block:
    the squares of what [m.to_scale()] returns. *)
Definition col0_norm2 (m : Matrix) : Qc := m00 m * m00 m + m10 m * m10 m + m20 m * m20 m.
Definition col1_norm2 (m : Matrix) : Qc := m01 m * m01 m + m11 m * m11 m + m21 m * m21 m.
Definition col2_norm2 (m : Matrix) : Qc := m02 m * m02 m + m12 m * m12 m + m22 m * m22 m.

(** Exact square root of a canonical rational, when it is rational. *)
Definition sqrt_exact (q : Qc) : option Qc :=
  let n := Qnum (this q) in
  let d := Zpos (Qden (this q)) in
  let rn := Z.sqrt n in
  let rd := Z.sqrt d in
  if ((rn * rn =? n)%Z && (rd * rd =? d)%Z && (0 <? rd)%Z)%bool
  then Some (Q2Qc (rn # Z.to_pos rd))
  else None.

(** Upper-left 3x3 block with each column divided by a factor. *)
Definition unscale_columns (m : Matrix) (x y z : Qc) : Matrix :=
  mkMatrix (m00 m / x) (m01 m / y) (m02 m / z) 0
           (m10 m / x) (m11 m / y) (m12 m / z) 0
           (m20 m / x) (m21 m / y) (m22 m / z) 0
           0 0 0 1.

Definition transpose3 (m : Matrix) : Matrix :=
  mkMatrix (m00 m) (m10 m) (m20 m) 0
           (m01 m) (m11 m) (m21 m) 0
           (m02 m) (m12 m) (m22 m) 0
           0 0 0 1.

(** The location, rotation and scale channels of a basis matrix
    ([mat4_to_loc_rot_size] in the host), each returned as a matrix with
    [m = loc @ rot @ scale].  The host takes square roots; in exact
    arithmetic the channels exist when the three column lengths are
    non-zero rationals and the normalised columns are orthonormal (no
    shear).  [None] otherwise: such a basis is outside the model. *)
Definition decompose (m : Matrix) : option (Matrix * Matrix * Matrix) :=
  match sqrt_exact (col0_norm2 m), sqrt_exact (col1_norm2 m), sqrt_exact (col2_norm2 m) with
  | Some x, Some y, Some z =>
      if decide (x = 0 \/ y = 0 \/ z = 0) then None
      else
        let rot := unscale_columns m x y z in
        if decide (mmul (transpose3 rot) rot = identity)
        then
          (* a mirrored block: the host negates rotation and scale *)
          if decide (determinant rot = -1)
          then Some (translation_of m, unscale_columns rot (-1) (-1) (-1), diag3 (-x) (-y) (-z))
          else Some (translation_of m, rot, diag3 x y z)
        else None
  | _, _, _ => None
  end.

End Mathutils.

Export Mathutils.


(** ** The host: scene data ([bpy.data], [bpy.context]) *)

(** [ob.type] *)
Inductive ObjectType :=
  | EMPTY | MESH | ARMATURE | FONT | CURVE | SURFACE
  | META | LATTICE | GPENCIL | VOLUME | POINTCLOUD
  | CAMERA | LIGHT | LIGHT_PROBE | SPEAKER.

#[global] Instance ObjectType_eq_dec : EqDecision ObjectType.
Proof. solve_decision. Defined.

(** [mod.type], for the modifier kinds that matter here and a few others. *)
Inductive ModifierType :=
  | MOD_ARMATURE | MOD_SUBSURF | MOD_MIRROR | MOD_ARRAY | MOD_BEVEL
  | MOD_SOLIDIFY | MOD_BOOLEAN | MOD_TRIANGULATE.

#[global] Instance ModifierType_eq_dec : EqDecision ModifierType.
Proof. solve_decision. Defined.

Record Modifier := mkModifier {
  mod_type : ModifierType;
  show_viewport : bool }.

(** Identity of a datablock ([ob.data]): two objects share their data when
    they hold the same identity. *)
Definition DataId := positive.

(** A datablock.  Of its content only the net transform applied to its
    geometry since the start is tracked ([db_xform], identity at first):
    the bake of a transform matrix [d] multiplies it from the left. *)
Record Datablock := mkDatablock {
  use_fake_user : bool;
  db_xform : Matrix }.

Record Object := mkObject {
  ob_type : ObjectType;
  ob_parent : option string;
  ob_data : option DataId;
  ob_modifiers : list Modifier;
  matrix_basis : Matrix;
  matrix_parent_inverse : Matrix;
  (** [ob.matrix_world] is a cache: it is what the last evaluation of the
      dependency graph computed, and goes stale when a matrix is assigned. *)
  matrix_world : Matrix;
  (** [ob.name in bpy.context.view_layer.objects] *)
  in_view_layer : bool;
  (** [ob.select_get()] *)
  ob_select : bool;
  (** [ob.hide_get()] *)
  ob_hide : bool;
  ob_hide_viewport : bool }.

(** A layer collection with its flags [exclude], [hide_viewport],
    [collection.hide_viewport] and its children. *)
#[local] Unset Elimination Schemes.
Inductive LayerCollection :=
  | LayerColl (exclude hide_viewport collection_hide_viewport : bool)
              (children : list LayerCollection).
#[local] Set Elimination Schemes.

Definition lc_exclude (c : LayerCollection) : bool :=
  let '(LayerColl e _ _ _) := c in e.
Definition lc_hide_viewport (c : LayerCollection) : bool :=
  let '(LayerColl _ h _ _) := c in h.
Definition lc_collection_hide_viewport (c : LayerCollection) : bool :=
  let '(LayerColl _ _ d _) := c in d.
Definition lc_children (c : LayerCollection) : list LayerCollection :=
  let '(LayerColl _ _ _ k) := c in k.

(** A reference to a layer collection: the child indices from the root. *)
Definition CollPath := list nat.

Inductive Mode := OBJECT | EDIT | POSE | SCULPT.

Record Scene := mkScene {
  (** [bpy.data.objects], keyed by name; it is enumerated in the order of
      [map_to_list] *)
  objects : gmap string Object;
  datablocks : gmap DataId Datablock;
  (** [bpy.context.view_layer.layer_collection] *)
  layer_collection : LayerCollection;
  (** [bpy.context.active_object] *)
  active_object : option string;
  mode : Mode }.

(** Field updates. *)
Definition set_type (t : ObjectType) (o : Object) : Object :=
  mkObject t (ob_parent o) (ob_data o) (ob_modifiers o) (matrix_basis o)
    (matrix_parent_inverse o) (matrix_world o) (in_view_layer o) (ob_select o)
    (ob_hide o) (ob_hide_viewport o).
Definition set_data (d : option DataId) (o : Object) : Object :=
  mkObject (ob_type o) (ob_parent o) d (ob_modifiers o) (matrix_basis o)
    (matrix_parent_inverse o) (matrix_world o) (in_view_layer o) (ob_select o)
    (ob_hide o) (ob_hide_viewport o).
Definition set_modifiers (l : list Modifier) (o : Object) : Object :=
  mkObject (ob_type o) (ob_parent o) (ob_data o) l (matrix_basis o)
    (matrix_parent_inverse o) (matrix_world o) (in_view_layer o) (ob_select o)
    (ob_hide o) (ob_hide_viewport o).
Definition set_matrix_basis (m : Matrix) (o : Object) : Object :=
  mkObject (ob_type o) (ob_parent o) (ob_data o) (ob_modifiers o) m
    (matrix_parent_inverse o) (matrix_world o) (in_view_layer o) (ob_select o)
    (ob_hide o) (ob_hide_viewport o).
Definition set_matrix_parent_inverse (m : Matrix) (o : Object) : Object :=
  mkObject (ob_type o) (ob_parent o) (ob_data o) (ob_modifiers o) (matrix_basis o)
    m (matrix_world o) (in_view_layer o) (ob_select o)
    (ob_hide o) (ob_hide_viewport o).
Definition set_matrix_world (m : Matrix) (o : Object) : Object :=
  mkObject (ob_type o) (ob_parent o) (ob_data o) (ob_modifiers o) (matrix_basis o)
    (matrix_parent_inverse o) m (in_view_layer o) (ob_select o)
    (ob_hide o) (ob_hide_viewport o).
Definition set_select (b : bool) (o : Object) : Object :=
  mkObject (ob_type o) (ob_parent o) (ob_data o) (ob_modifiers o) (matrix_basis o)
    (matrix_parent_inverse o) (matrix_world o) (in_view_layer o) b
    (ob_hide o) (ob_hide_viewport o).
Definition set_hide (b : bool) (o : Object) : Object :=
  mkObject (ob_type o) (ob_parent o) (ob_data o) (ob_modifiers o) (matrix_basis o)
    (matrix_parent_inverse o) (matrix_world o) (in_view_layer o) (ob_select o)
    b (ob_hide_viewport o).
Definition set_hide_viewport (b : bool) (o : Object) : Object :=
  mkObject (ob_type o) (ob_parent o) (ob_data o) (ob_modifiers o) (matrix_basis o)
    (matrix_parent_inverse o) (matrix_world o) (in_view_layer o) (ob_select o)
    (ob_hide o) b.

Definition set_objects (f : gmap string Object -> gmap string Object) (s : Scene) : Scene :=
  mkScene (f (objects s)) (datablocks s) (layer_collection s) (active_object s) (mode s).
Definition set_datablocks (f : gmap DataId Datablock -> gmap DataId Datablock) (s : Scene) : Scene :=
  mkScene (objects s) (f (datablocks s)) (layer_collection s) (active_object s) (mode s).
Definition set_layer_collection (f : LayerCollection -> LayerCollection) (s : Scene) : Scene :=
  mkScene (objects s) (datablocks s) (f (layer_collection s)) (active_object s) (mode s).
Definition set_mode (m : Mode) (s : Scene) : Scene :=
  mkScene (objects s) (datablocks s) (layer_collection s) (active_object s) m.

(** The names of [bpy.data.objects], in enumeration order. *)
Definition object_names (objs : gmap string Object) : list string :=
  (map_to_list objs).*1.

(** [ob.children]: the objects whose parent is [n]. *)
Definition children_of (objs : gmap string Object) (n : string) : list string :=
  filter (fun c => (objs !! c) ≫= ob_parent = Some n) (object_names objs).

(** [bpy.context.selected_objects]: the selected objects of the view layer. *)
Definition is_selected (objs : gmap string Object) (n : string) : bool :=
  match objs !! n with
  | Some o => in_view_layer o && ob_select o
  | None => false
  end.

Definition selected_objects (objs : gmap string Object) : list string :=
  filter (fun n => is_selected objs n = true) (object_names objs).

(** The objects that hold datablock [d]. *)
Definition object_users (objs : gmap string Object) (d : DataId) : list string :=
  filter (fun n => (objs !! n) ≫= ob_data = Some d) (object_names objs).

(** [data.users]: the holders, plus one for a fake user. *)
Definition data_users (s : Scene) (d : DataId) : nat :=
  length (object_users (objects s) d)
  + match datablocks s !! d with
    | Some db => if use_fake_user db then 1 else 0
    | None => 0
    end.

(** The world matrix that the dependency graph computes for [o]:
    [parent.world @ parent_inverse @ basis], up the parent chain.  [fuel]
    bounds the chain; the number of objects is enough in a hierarchy
    without cycles. *)
Fixpoint world_matrix (fuel : nat) (objs : gmap string Object) (o : Object) : Matrix :=
  match ob_parent o with
  | None => matrix_basis o
  | Some p =>
      match fuel, objs !! p with
      | S fuel', Some po =>
          mmul (mmul (world_matrix fuel' objs po) (matrix_parent_inverse o)) (matrix_basis o)
      | _, _ => matrix_basis o
      end
  end.

(** [bpy.context.view_layer.update()]: every cached world matrix is
    recomputed from the basis and parent-inverse matrices. *)
Definition update_world_matrices (s : Scene) : Scene :=
  set_objects (fun objs =>
    (fun o => set_matrix_world (world_matrix (size objs) objs o) o) <$> objs) s.

(** ** The world of a run: host state, module globals, observations *)

(** The exceptions ([Exception] subclasses) that the host and Python raise. *)
Inductive Exn :=
  | ValueError (msg : string)
  | RuntimeError (msg : string)
  | ReferenceError (what : string)
  | KeyError (key : string)
  | TypeError (msg : string)
  | RecursionError
  (** not an exception of the host: the model cannot follow it here *)
  | NotModelled (what : string).

(** Values of the serializer's options. *)
Inductive PyValue :=
  | PyBool (b : bool)
  | PyStr (s : string)
  | PyInt (z : Z)
  | PyFloat (q : Qc)
  | PySet (l : list string).

#[global] Instance PyValue_eq_dec : EqDecision PyValue.
Proof. solve_decision. Defined.

(** A Python [dict] of keyword arguments. *)
Abbreviation Params := (gmap string PyValue).

(** What [print] wrote. *)
Inductive Output :=
  | OutText (s : string)
  | OutRoot (name : string) (t : ObjectType)
  | OutConverting (selected : list string)
  | OutInvoking (params : Params)
  | OutExn (e : Exn).

(** The journal of operator calls ([bpy.ops]), each with what it was
    given: an observation of the run, read by no function below. *)
Inductive HostCall :=
  | CallSelectAllDeselect
  | CallTransformApply (selected : list string) (location rotation scale : bool)
  | CallConvertToMesh (selected : list string)
  | CallModeSetObject
  | CallUndoPush (message : string)
  | CallUndo
  | CallExportFbx (params : Params) (sc : Scene).

Record World := mkWorld {
  scene : Scene;
  (** undo steps, the latest first *)
  undo_stack : list Scene;
  stdout : list Output;
  journal : list HostCall;
  (** the module globals of [__init__.py] *)
  shared_data : list (string * DataId);
  hidden_collections : list CollPath;
  hidden_objects : list string;
  disabled_collections : list CollPath;
  disabled_objects : list string }.

Definition with_scene (f : Scene -> Scene) (w : World) : World :=
  mkWorld (f (scene w)) (undo_stack w) (stdout w) (journal w) (shared_data w)
    (hidden_collections w) (hidden_objects w) (disabled_collections w) (disabled_objects w).
Definition with_undo_stack (f : list Scene -> list Scene) (w : World) : World :=
  mkWorld (scene w) (f (undo_stack w)) (stdout w) (journal w) (shared_data w)
    (hidden_collections w) (hidden_objects w) (disabled_collections w) (disabled_objects w).
Definition with_stdout (f : list Output -> list Output) (w : World) : World :=
  mkWorld (scene w) (undo_stack w) (f (stdout w)) (journal w) (shared_data w)
    (hidden_collections w) (hidden_objects w) (disabled_collections w) (disabled_objects w).
Definition with_journal (f : list HostCall -> list HostCall) (w : World) : World :=
  mkWorld (scene w) (undo_stack w) (stdout w) (f (journal w)) (shared_data w)
    (hidden_collections w) (hidden_objects w) (disabled_collections w) (disabled_objects w).
Definition with_shared_data (f : list (string * DataId) -> list (string * DataId))
    (w : World) : World :=
  mkWorld (scene w) (undo_stack w) (stdout w) (journal w) (f (shared_data w))
    (hidden_collections w) (hidden_objects w) (disabled_collections w) (disabled_objects w).
Definition with_hidden_collections (f : list CollPath -> list CollPath) (w : World) : World :=
  mkWorld (scene w) (undo_stack w) (stdout w) (journal w) (shared_data w)
    (f (hidden_collections w)) (hidden_objects w) (disabled_collections w) (disabled_objects w).
Definition with_hidden_objects (f : list string -> list string) (w : World) : World :=
  mkWorld (scene w) (undo_stack w) (stdout w) (journal w) (shared_data w)
    (hidden_collections w) (f (hidden_objects w)) (disabled_collections w) (disabled_objects w).
Definition with_disabled_collections (f : list CollPath -> list CollPath) (w : World) : World :=
  mkWorld (scene w) (undo_stack w) (stdout w) (journal w) (shared_data w)
    (hidden_collections w) (hidden_objects w) (f (disabled_collections w)) (disabled_objects w).
Definition with_disabled_objects (f : list string -> list string) (w : World) : World :=
  mkWorld (scene w) (undo_stack w) (stdout w) (journal w) (shared_data w)
    (hidden_collections w) (hidden_objects w) (disabled_collections w) (f (disabled_objects w)).

(** ** The monad: state, and exceptions that keep the state they left *)

Inductive Result (A : Type) :=
  | Ok (a : A) (w : World)
  | Raise (e : Exn) (w : World).
Arguments Ok {A} a w.
Arguments Raise {A} e w.

Definition M (A : Type) : Type := World -> Result A.

Definition ret {A} (a : A) : M A := fun w => Ok a w.

Definition bind {A B} (m : M A) (k : A -> M B) : M B :=
  fun w => match m w with
           | Ok a w' => k a w'
           | Raise e w' => Raise e w'
           end.

Definition raise {A} (e : Exn) : M A := fun w => Raise e w.

Definition gets {A} (f : World -> A) : M A := fun w => Ok (f w) w.

Definition modify (f : World -> World) : M unit := fun w => Ok tt (f w).

(** [try: m except Exception as e: h e] *)
Definition try_except {A} (m : M A) (h : Exn -> M A) : M A :=
  fun w => match m w with
           | Ok a w' => Ok a w'
           | Raise e w' => h e w'
           end.

Declare Scope prog_scope.
Delimit Scope prog_scope with prog.
Notation "x <- m ;; k" := (bind m (fun x => k))
  (at level 100, m at next level, k at level 200, right associativity) : prog_scope.
Notation "m ;; k" := (bind m (fun _ => k))
  (at level 100, k at level 200, right associativity) : prog_scope.
Local Open Scope prog_scope.

(** [for x in l: body x] *)
Fixpoint for_each {A} (l : list A) (body : A -> M unit) : M unit :=
  match l with
  | [] => ret tt
  | x :: r => body x ;; for_each r body
  end.

Definition when (b : bool) (m : M unit) : M unit := if b then m else ret tt.

Definition print (o : Output) : M unit := modify (with_stdout (fun l => l ++ [o])).

Definition record_call (c : HostCall) : M unit := modify (with_journal (fun l => l ++ [c])).

(** Reading and writing through an object reference. *)
Definition get_object (n : string) : M Object :=
  fun w => match objects (scene w) !! n with
           | Some o => Ok o w
           | None => Raise (ReferenceError n) w
           end.

Definition update_object (n : string) (f : Object -> Object) : M unit :=
  modify (with_scene (set_objects (alter f n))).

(** ** Host operators and accessors *)

Definition view_layer_update : M unit :=
  modify (with_scene update_world_matrices).

(** Every call of an operator through [bpy.ops] updates the view layer
    before the operator runs, and again once it has finished. *)
Definition bpy_ops (op : M unit) : M unit :=
  view_layer_update ;; op ;; view_layer_update.

(** [bpy.ops.object.select_all(action='DESELECT')] *)
Definition select_all_deselect : M unit :=
  bpy_ops (
    record_call CallSelectAllDeselect ;;
    modify (with_scene (set_objects (fmap (fun o =>
      if in_view_layer o then set_select false o else o))))).

(** [ob.select_set(state)]: an object outside the view layer cannot be
    selected. *)
Definition select_set (n : string) (state : bool) : M unit :=
  o <- get_object n ;;
  if in_view_layer o then update_object n (set_select state)
  else raise (RuntimeError "Object can't be selected because it is not in the View Layer").

(** [ob.matrix_local]: the cached world matrix, relative to the cached
    world matrix of the parent. *)
Definition matrix_local_get (n : string) : M Matrix :=
  o <- get_object n ;;
  match ob_parent o with
  | None => ret (matrix_world o)
  | Some p =>
      po <- get_object p ;;
      ret (mmul (invert_m4 (matrix_world po)) (matrix_world o))
  end.

(** [ob.matrix_local = m]: the basis is what remains of [m] once the
    parent-inverse matrix is undone.  The cached world matrix stays. *)
Definition matrix_local_set (n : string) (m : Matrix) : M unit :=
  o <- get_object n ;;
  match ob_parent o with
  | None => update_object n (set_matrix_basis m)
  | Some _ =>
      update_object n (set_matrix_basis (mmul (invert_m4 (matrix_parent_inverse o)) m))
  end.

(** Does the object hold data that other objects hold too? *)
Definition multi_user (s : Scene) (n : string) : bool :=
  match (objects s !! n) ≫= ob_data with
  | Some d => 1 <? length (object_users (objects s) d)
  | None => false
  end.

Definition kept (applied : bool) (channel : Matrix) : Matrix :=
  if applied then identity else channel.

(** What [transform_apply] does to one object: the applied channels leave
    the basis and go into the data, so that [basis' @ baked = basis]; then
    each child gets its cached world matrix as basis and the inverse of the
    new world matrix of its parent as parent-inverse, and so stays where it
    was. *)
Definition apply_transform_object (location rotation scale : bool) (n : string) : M unit :=
  o <- get_object n ;;
  match decompose (matrix_basis o) with
  | None => raise (NotModelled "transform_apply on a basis with shear or irrational scale")
  | Some (loc, rot, scl) =>
      let basis' := mmul (mmul (kept location loc) (kept rotation rot)) (kept scale scl) in
      let baked := mmul (invert_m4 basis') (mmul (mmul loc rot) scl) in
      match ob_data o with
      | Some d =>
          modify (with_scene (set_datablocks (alter (fun db =>
            mkDatablock (use_fake_user db) (mmul baked (db_xform db))) d)))
      | None => ret tt
      end ;;
      world' <- match ob_parent o with
                | None => ret basis'
                | Some p =>
                    po <- get_object p ;;
                    ret (mmul (mmul (matrix_world po) (matrix_parent_inverse o)) basis')
                end ;;
      update_object n (fun o => set_matrix_world world' (set_matrix_basis basis' o)) ;;
      s <- gets scene ;;
      for_each (children_of (objects s) n) (fun c =>
        update_object c (fun oc =>
          set_matrix_parent_inverse (invert_m4 world') (set_matrix_basis (matrix_world oc) oc)))
  end.

(** [bpy.ops.object.transform_apply(location=.., rotation=.., scale=..)],
    on the selected objects.  It refuses data with several users. *)
Definition transform_apply (location rotation scale : bool) : M unit :=
  bpy_ops (
    s <- gets scene ;;
    let selected := selected_objects (objects s) in
    record_call (CallTransformApply selected location rotation scale) ;;
    if existsb (multi_user s) selected
    then raise (RuntimeError "Cannot apply to a multi user, aborting")
    else for_each selected (apply_transform_object location rotation scale)).

(** [bpy.ops.object.convert.poll()]: there is an active object with data,
    and it is selected. *)
Definition convert_poll (s : Scene) : bool :=
  match active_object s with
  | Some n =>
      match objects s !! n with
      | Some o => bool_decide (ob_data o <> None) && in_view_layer o && ob_select o
      | None => false
      end
  | None => false
  end.

(** Conversion of one object to a mesh: the modifier stack is collapsed
    into the geometry; curves, surfaces, texts and metaballs get a new mesh
    datablock; other kinds are left alone. *)
Definition convert_object (n : string) : M unit :=
  o <- get_object n ;;
  match ob_type o with
  | MESH => update_object n (set_modifiers [])
  | CURVE | SURFACE | FONT | META =>
      s <- gets scene ;;
      let d' := fresh (dom (datablocks s)) in
      let xf := default identity (db_xform <$> ((ob_data o) ≫= (fun d => datablocks s !! d))) in
      modify (with_scene (set_datablocks (insert d' (mkDatablock false xf)))) ;;
      update_object n (fun o => set_type MESH (set_data (Some d') (set_modifiers [] o)))
  | _ => ret tt
  end.

(** [bpy.ops.object.convert(target='MESH')] *)
Definition convert_to_mesh : M unit :=
  bpy_ops (
    s <- gets scene ;;
    let selected := selected_objects (objects s) in
    record_call (CallConvertToMesh selected) ;;
    for_each selected convert_object).

(** [bpy.ops.object.mode_set.poll()] and [mode_set(mode="OBJECT")] *)
Definition mode_set_poll (s : Scene) : bool :=
  match active_object s with
  | Some n => bool_decide (is_Some (objects s !! n))
  | None => false
  end.

Definition mode_set_object : M unit :=
  bpy_ops (record_call CallModeSetObject ;; modify (with_scene (set_mode OBJECT))).

(** [bpy.ops.ed.undo_push(message=..)]: the scene as it is becomes the
    latest undo step. *)
Definition undo_push (message : string) : M unit :=
  bpy_ops (
    record_call (CallUndoPush message) ;;
    modify (fun w => with_undo_stack (cons (scene w)) w)).

(** [bpy.ops.ed.undo()]: back to the step before the latest one. *)
Definition undo : M unit :=
  bpy_ops (
    record_call CallUndo ;;
    modify (fun w =>
      match undo_stack w with
      | _ :: previous :: older =>
          with_undo_stack (fun _ => previous :: older) (with_scene (fun _ => previous) w)
      | _ => w
      end)).

(** [data.copy()]: a new datablock with the same content. *)
Definition data_copy (d : DataId) : M DataId :=
  s <- gets scene ;;
  match datablocks s !! d with
  | Some db =>
      let d' := fresh (dom (datablocks s)) in
      modify (with_scene (set_datablocks (insert d' db))) ;;
      ret d'
  | None => raise (ReferenceError "datablock")
  end.

(** The external serializer, [bpy.ops.export_scene.fbx]: given the
    parameters and the scene it either writes the file ([None]) or raises. *)
Definition Serializer := Params -> Scene -> option Exn.

Definition export_scene_fbx (fbx : Serializer) (params : Params) : M unit :=
  bpy_ops (
    s <- gets scene ;;
    record_call (CallExportFbx params s) ;;
    match fbx params s with
    | None => ret tt
    | Some e => raise e
    end).

(** ** The program: [__init__.py] *)

(** [d[k] = v] on a [dict] kept in insertion order. *)
Fixpoint dict_set {V} (k : string) (v : V) (d : list (string * V)) : list (string * V) :=
  match d with
  | [] => [(k, v)]
  | (k', v') :: r => if decide (k' = k) then (k, v) :: r else (k', v') :: dict_set k v r
  end.

(** Indices of the items that satisfy [f], from index [i] on. *)
Fixpoint indices_where {A} (f : A -> bool) (i : nat) (l : list A) : list nat :=
  match l with
  | [] => []
  | x :: r => if f x then i :: indices_where f (S i) r else indices_where f (S i) r
  end.

(** The state of a child collection after the two loops that its parent
    runs over it: shown and enabled, unless it is excluded. *)
Definition unhide_item (item : LayerCollection) : LayerCollection :=
  let '(LayerColl e h d k) := item in
  if e then item else LayerColl e false false k.

(** [unhide_collections(col)], for the collection at [path]: the
    collection afterwards, and what was appended to [hidden_collections]
    and to [disabled_collections], in that order. *)
Fixpoint unhide_collections (path : CollPath) (col : LayerCollection)
  : LayerCollection * (list CollPath * list CollPath) :=
  let '(LayerColl e h d kids) := col in
  (* No need to unhide excluded collections. *)
  if e then (col, ([], []))
  else
    let hidden :=
      indices_where (fun item => negb (lc_exclude item) && lc_hide_viewport item) 0 kids in
    let disabled :=
      indices_where (fun item => negb (lc_exclude item) && lc_collection_hide_viewport item) 0 kids in
    (* Recursively unhide child collections *)
    let fix each (i : nat) (l : list LayerCollection)
      : list LayerCollection * (list CollPath * list CollPath) :=
      match l with
      | [] => ([], ([], []))
      | item :: r =>
          let '(item', (hi, di)) := unhide_collections (path ++ [i]) item in
          let '(r', (hr, dr)) := each (S i) r in
          (unhide_item item' :: r', (hi ++ hr, di ++ dr))
      end in
    let '(kids', (hr, dr)) := each 0 kids in
    (LayerColl e h d kids',
     (((fun i => path ++ [i]) <$> hidden) ++ hr, ((fun i => path ++ [i]) <$> disabled) ++ dr)).

(** Assignment through a reference to a layer collection. *)
Fixpoint update_collection (path : CollPath) (f : LayerCollection -> LayerCollection)
    (col : LayerCollection) : LayerCollection :=
  match path with
  | [] => f col
  | i :: p =>
      let '(LayerColl e h d kids) := col in
      LayerColl e h d (alter (update_collection p f) i kids)
  end.

Definition set_lc_hide_viewport (b : bool) (c : LayerCollection) : LayerCollection :=
  let '(LayerColl e _ d k) := c in LayerColl e b d k.
Definition set_lc_collection_hide_viewport (b : bool) (c : LayerCollection) : LayerCollection :=
  let '(LayerColl e h _ k) := c in LayerColl e h b k.

(** [unhide_collections(bpy.context.view_layer.layer_collection)] *)
Definition unhide_all_collections : M unit :=
  s <- gets scene ;;
  let '(col', (hidden, disabled)) := unhide_collections [] (layer_collection s) in
  modify (with_scene (set_layer_collection (fun _ => col'))) ;;
  modify (with_hidden_collections (fun l => l ++ hidden)) ;;
  modify (with_disabled_collections (fun l => l ++ disabled)).

Definition unhide_objects : M unit :=
  s <- gets scene ;;
  let view_layer_objects :=
    filter (fun n => in_view_layer <$> (objects s !! n) = Some true)
           (object_names (objects s)) in
  for_each view_layer_objects (fun n =>
    ob <- get_object n ;;
    when (ob_hide ob) (
      modify (with_hidden_objects (fun l => l ++ [n])) ;;
      update_object n (set_hide false)) ;;
    ob <- get_object n ;;
    when (ob_hide_viewport ob) (
      modify (with_disabled_objects (fun l => l ++ [n])) ;;
      update_object n (set_hide_viewport false))).

(** [len([mod for mod in user.modifiers if mod.show_viewport])] *)
Definition enabled_modifiers (o : Object) : nat :=
  length (filter (fun m => show_viewport m = true) (ob_modifiers o)).

Definition make_single_user_data : M unit :=
  s0 <- gets scene ;;
  for_each (object_names (objects s0)) (fun n =>
    ob <- get_object n ;;
    s <- gets scene ;;
    match ob_data ob with
    | Some d =>
        when (1 <? data_users s d) (
          (* Figure out actual users of this datablock (not counting fake users) *)
          let users := object_users (objects s) d in
          when (1 <? length users) (
            (* Store shared mesh data (MESH objects only). *)
            when (bool_decide (ob_type ob = MESH)) (
              let modifiers :=
                foldl (fun acc user =>
                         acc + default 0 (enabled_modifiers <$> (objects s !! user)))
                      0 users in
              when (modifiers =? 0) (modify (with_shared_data (dict_set n d)))) ;;
            (* Single-user data is mandatory in all object types *)
            d' <- data_copy d ;;
            update_object n (set_data (Some d'))))
    | None => ret tt
    end).

Definition apply_object_modifiers : M unit :=
  (* Select objects in current view layer not using an armature modifier *)
  select_all_deselect ;;
  s0 <- gets scene ;;
  for_each (object_names (objects s0)) (fun n =>
    ob <- get_object n ;;
    when (in_view_layer ob) (
      let bypass_modifiers :=
        foldl (fun bypass m => if decide (mod_type m = MOD_ARMATURE) then true else bypass)
              false (ob_modifiers ob) in
      when (negb bypass_modifiers) (select_set n true))) ;;
  (* Conversion to mesh may not be available depending on the remaining objects *)
  s <- gets scene ;;
  when (convert_poll s) (
    print (OutConverting (selected_objects (objects s))) ;;
    convert_to_mesh).

Definition reset_parent_inverse (n : string) : M unit :=
  ob <- get_object n ;;
  match ob_parent ob with
  | Some p =>
      let mat_world := matrix_world ob in
      update_object n (set_matrix_parent_inverse identity) ;;
      parent <- get_object p ;;
      match inverted (matrix_world parent) with
      | Some inv => update_object n (set_matrix_basis (mmul inv mat_world))
      | None => raise (ValueError "Matrix.invert(ed): matrix does not have an inverse")
      end
  | None => ret tt
  end.

Definition apply_rotation (n : string) : M unit :=
  select_all_deselect ;;
  select_set n true ;;
  transform_apply false true false.

(** [fix_object(ob)].  [fuel] bounds the depth of the recursion, as the
    interpreter's recursion limit does. *)
Fixpoint fix_object (fuel : nat) (n : string) : M unit :=
  match fuel with
  | 0 => raise RecursionError
  | S fuel' =>
      ob <- get_object n ;;
      (* Only fix objects in current view layer *)
      when (in_view_layer ob) (
        (* Reset parent's inverse so we can work with local transform directly *)
        reset_parent_inverse n ;;
        (* Create a copy of the local matrix and set a pure X-90 matrix *)
        mat_original <- matrix_local_get n ;;
        matrix_local_set n Rotation_neg90_X ;;
        (* Apply the rotation to the object *)
        apply_rotation n ;;
        (* Reapply the previous local transform with an X+90 rotation *)
        matrix_local_set n (mmul mat_original Rotation_pos90_X)) ;;
      (* Recursively fix child objects in current view layer. *)
      s <- gets scene ;;
      for_each (children_of (objects s) n) (fix_object fuel')
  end.

(** What an operator returns. *)
Inductive OperatorStatus := FINISHED | CANCELLED.

(** Root objects: Empty, Mesh, Curve, Surface, Font or Armature without parent *)
Definition is_root_object (item : Object) : bool :=
  (bool_decide (ob_type item = EMPTY) || bool_decide (ob_type item = MESH)
   || bool_decide (ob_type item = ARMATURE) || bool_decide (ob_type item = FONT)
   || bool_decide (ob_type item = CURVE) || bool_decide (ob_type item = SURFACE))
  && negb (bool_decide (is_Some (ob_parent item))).

Definition root_objects (objs : gmap string Object) : list string :=
  filter (fun n => is_root_object <$> (objs !! n) = Some true) (object_names objs).

(** The depth that [fix_object] may reach: more than any hierarchy without
    cycles has. *)
Definition recursion_fuel (s : Scene) : nat := S (size (objects s)).

(** [params = dict(filepath=.., apply_scale_options='FBX_SCALE_UNITS')]
    followed by [params.update(kwargs)] *)
Definition default_params (filepath : string) : Params :=
  <["apply_scale_options" := PyStr "FBX_SCALE_UNITS"]> (<["filepath" := PyStr filepath]> ∅).

Definition dict_update (params kwargs : Params) : Params := kwargs ∪ params.

Definition build_params (filepath : string) (kwargs : Params) : Params :=
  dict_update (default_params filepath) kwargs.

(** The three calls that bring the scene back to the undo step pushed at
    the start of the run. *)
Definition restore_scene : M unit :=
  undo_push "" ;;
  undo ;;
  undo_push "Export Unity FBX".

(** The body of the [try] statement. *)
Definition protected_region (fbx : Serializer) (filepath : string) (kwargs : Params)
    (roots selection : list string) : M unit :=
  (* Fix rotations *)
  for_each roots (fun n =>
    ob <- get_object n ;;
    print (OutRoot n (ob_type ob)) ;;
    s <- gets scene ;;
    fix_object (recursion_fuel s) n) ;;
  (* Restore multi-user meshes *)
  shared <- gets shared_data ;;
  for_each shared (fun '(item, d) =>
    s <- gets scene ;;
    match objects s !! item with
    | Some _ => update_object item (set_data (Some d))
    | None => raise (KeyError item)
    end) ;;
  (* Recompute the transforms out of the changed matrices *)
  view_layer_update ;;
  (* Restore hidden and disabled objects *)
  hidden <- gets hidden_objects ;;
  for_each hidden (fun n => update_object n (set_hide true)) ;;
  disabled <- gets disabled_objects ;;
  for_each disabled (fun n => update_object n (set_hide_viewport true)) ;;
  (* Restore hidden and disabled collections *)
  hidden <- gets hidden_collections ;;
  for_each hidden (fun col =>
    modify (with_scene (set_layer_collection (update_collection col (set_lc_hide_viewport true))))) ;;
  disabled <- gets disabled_collections ;;
  for_each disabled (fun col =>
    modify (with_scene (set_layer_collection
      (update_collection col (set_lc_collection_hide_viewport true))))) ;;
  (* Restore selection *)
  select_all_deselect ;;
  for_each selection (fun n => select_set n true) ;;
  (* Export FBX file *)
  let params := build_params filepath kwargs in
  print (OutInvoking params) ;;
  export_scene_fbx fbx params.

(** The module globals are emptied at the start of a run. *)
Definition reset_globals : M unit :=
  modify (with_shared_data (fun _ => [])) ;;
  modify (with_hidden_collections (fun _ => [])) ;;
  modify (with_hidden_objects (fun _ => [])) ;;
  modify (with_disabled_collections (fun _ => [])) ;;
  modify (with_disabled_objects (fun _ => [])).

(** The statements of [export_unity_fbx] before the [try] statement; they
    leave the root objects and the selection to restore. *)
Definition preparation : M (list string * list string) :=
  print (OutText "Preparing 3D model for Unity...") ;;
  (* Root objects *)
  s <- gets scene ;;
  let roots := root_objects (objects s) in
  (* Preserve current scene *)
  undo_push "Prepare Unity FBX" ;;
  reset_globals ;;
  s <- gets scene ;;
  let selection := selected_objects (objects s) in
  (* Object mode *)
  when (mode_set_poll s) mode_set_object ;;
  (* Ensure all the collections and objects in this view layer are visible *)
  unhide_all_collections ;;
  unhide_objects ;;
  (* Create a single copy in multi-user datablocks. *)
  make_single_user_data ;;
  (* Apply modifiers to objects (except those affected by an armature) *)
  apply_object_modifiers ;;
  ret (roots, selection).

(** The [except] clause. *)
Definition on_exception (e : Exn) : M OperatorStatus :=
  restore_scene ;;
  print (OutExn e) ;;
  print (OutText "File not saved.") ;;
  (* Always finish with 'FINISHED' so Undo is handled properly *)
  ret FINISHED.

(** [export_unity_fbx(context, filepath, **kwargs)].  A keyword argument
    named like a positional parameter is refused by the call itself. *)
Definition export_unity_fbx (fbx : Serializer) (filepath : string) (kwargs : Params)
  : M OperatorStatus :=
  if bool_decide (is_Some (kwargs !! "filepath") \/ is_Some (kwargs !! "context"))
  then raise (TypeError "export_unity_fbx() got multiple values for argument")
  else
    prepared <- preparation ;;
    let '(roots, selection) := prepared in
    returned <- try_except
      (protected_region fbx filepath kwargs roots selection ;; ret None)
      (fun e => status <- on_exception e ;; ret (Some status)) ;;
    match returned with
    | Some status => ret status
    | None =>
        (* Restore scene and finish *)
        restore_scene ;;
        print (OutText "FBX file for Unity saved.") ;;
        ret FINISHED
    end.

(** ** Relating the world before and after a computation *)

Definition world_of {A} (r : Result A) : World :=
  match r with
  | Ok _ w => w
  | Raise _ w => w
  end.

(** [keeps R m]: whether [m] returns or raises, the world it leaves is
    related by [R] to the world it started from. *)
Definition keeps (R : relation World) {A} (m : M A) : Prop :=
  forall w, R w (world_of (m w)).

(** The worlds that agree on one component. *)
Definition same {X} (proj : World -> X) : relation World :=
  fun w w' => proj w' = proj w.

(** A component of the world that the scene, standard output and the
    journal of calls do not contain. *)
Class Untouched {X} (proj : World -> X) : Prop := {
  untouched_scene : forall f w, proj (with_scene f w) = proj w;
  untouched_stdout : forall f w, proj (with_stdout f w) = proj w;
  untouched_journal : forall f w, proj (with_journal f w) = proj w }.

(** The calls since [w], in a later world [w']. *)
Definition calls_since (w w' : World) : list HostCall :=
  drop (length (journal w)) (journal w').

Definition no_export (c : HostCall) : Prop :=
  match c with
  | CallExportFbx _ _ => False
  | _ => True
  end.

(** Since [w] the journal has only grown, and every call of the
    serializer was made with parameters and a scene that satisfy [P]. *)
Definition exports_satisfy (P : Params -> Scene -> Prop) : relation World :=
  fun w w' =>
    exists calls, journal w' = journal w ++ calls
      /\ forall p sc, CallExportFbx p sc ∈ calls -> P p sc.

(** An object that differs from another in its matrices and selection
    state only. *)
Definition soft (o o' : Object) : Prop :=
  ob_type o' = ob_type o /\ ob_parent o' = ob_parent o /\ ob_data o' = ob_data o
  /\ ob_modifiers o' = ob_modifiers o /\ in_view_layer o' = in_view_layer o
  /\ ob_hide o' = ob_hide o /\ ob_hide_viewport o' = ob_hide_viewport o.

(** The same objects, related one by one. *)
Definition objects_related (OR : relation Object) : relation (gmap string Object) :=
  fun objs objs' => forall n, option_Forall2 OR (objs !! n) (objs' !! n).

Definition via_objects (OR : relation Object) : relation World :=
  fun w w' => objects_related OR (objects (scene w)) (objects (scene w')).

(** A relation between worlds that every step of the transform rewriter
    keeps: it tolerates output, calls other than to the serializer, edits of
    datablocks, and soft edits of the objects. *)
Class Frame (R : relation World) : Prop := {
  #[global] frame_preorder :: PreOrder R;
  frame_stdout : forall f w, R w (with_stdout f w);
  frame_call : forall c w, no_export c -> R w (with_journal (fun l => l ++ [c]) w);
  frame_datablocks : forall f w, R w (with_scene (set_datablocks f) w);
  frame_objects : forall f w,
    objects_related soft (objects (scene w)) (f (objects (scene w))) ->
    R w (with_scene (set_objects f) w) }.

(** The world in which [apply_rotation] calls [transform_apply]. *)
Definition selected_world (n : string) (w : World) : World :=
  with_scene (set_objects (alter (set_select true) n))
    (with_scene update_world_matrices
       (with_scene (set_objects (fmap (fun o =>
                      if in_view_layer o then set_select false o else o)))
          (with_journal (fun l => l ++ [CallSelectAllDeselect])
             (with_scene update_world_matrices w)))).

(** The basis matrix of the object named [n]. *)
Definition basis_at (n : string) (w : World) : option Matrix :=
  matrix_basis <$> objects (scene w) !! n.

(** Does the modifier list hold an ARMATURE modifier, enabled or not? *)
Definition has_armature_modifier (o : Object) : bool :=
  existsb (fun m => bool_decide (mod_type m = MOD_ARMATURE)) (ob_modifiers o).

(** Does it hold an ARMATURE modifier that is enabled? *)
Definition has_enabled_armature_modifier (o : Object) : bool :=
  existsb (fun m => bool_decide (mod_type m = MOD_ARMATURE) && show_viewport m)
          (ob_modifiers o).

(** The objects that pass a test, in enumeration order. *)
Definition objects_where (test : Object -> bool) (objs : gmap string Object) : list string :=
  filter (fun n => test <$> (objs !! n) = Some true) (object_names objs).

(** The selection that [apply_object_modifiers] builds: the objects of the
    view layer without ARMATURE modifier. *)
Definition bake_selection (objs : gmap string Object) : list string :=
  objects_where (fun o => in_view_layer o && negb (has_armature_modifier o)) objs.

(** The selection as the specification words it: the objects of the view
    layer without enabled ARMATURE modifier. *)
Definition bake_selection_spec (objs : gmap string Object) : list string :=
  objects_where (fun o => in_view_layer o && negb (has_enabled_armature_modifier o)) objs.

(** What makes an object the object it is for the exporter: kind, data,
    modifiers, and the two matrices that place it. *)
Definition substance (o : Object)
  : ObjectType * option DataId * list Modifier * Matrix * Matrix :=
  (ob_type o, ob_data o, ob_modifiers o, matrix_basis o, matrix_parent_inverse o).

(** A property of the object named [n], when there is one. *)
Definition proj_at {X} (f : Object -> X) (n : string) (w : World) : option X :=
  f <$> objects (scene w) !! n.

Definition substance_at (n : string) (w : World)
  : option (ObjectType * option DataId * list Modifier * Matrix * Matrix) :=
  proj_at substance n w.

(** The objects of the view layer without ARMATURE modifier. *)
Definition bakeable (o : Object) : bool :=
  in_view_layer o && negb (has_armature_modifier o).

(** One turn of the selection loop. *)
Definition select_step (n : string) : M unit :=
  ob <- get_object n ;;
  when (in_view_layer ob) (
    let bypass_modifiers :=
      foldl (fun bypass m => if decide (mod_type m = MOD_ARMATURE) then true else bypass)
            false (ob_modifiers ob) in
    when (negb bypass_modifiers) (select_set n true)).

(** The world after [select_all(action='DESELECT')]. *)
Definition deselected_world (w : World) : World :=
  with_scene update_world_matrices
    (with_scene (set_objects (fmap (fun o =>
                   if in_view_layer o then set_select false o else o)))
       (with_journal (fun l => l ++ [CallSelectAllDeselect])
          (with_scene update_world_matrices w))).

(** The kinds that the conversion turns into meshes. *)
Definition geometry_kinds : list ObjectType := [MESH; CURVE; SURFACE; FONT; META].

(** Since [w] the journal has only grown. *)
Definition grows : relation World := exports_satisfy (fun _ _ => True).

(** Two relations at once. *)
Definition both (R1 R2 : relation World) : relation World :=
  fun w w' => R1 w w' /\ R2 w w'.

(** The steps of [fix_object] for the object itself. *)
Definition fix_steps (n : string) : M unit :=
  reset_parent_inverse n ;;
  mat_original <- matrix_local_get n ;;
  matrix_local_set n Rotation_neg90_X ;;
  apply_rotation n ;;
  matrix_local_set n (mmul mat_original Rotation_pos90_X).

(** One turn of the loop of [make_single_user_data]. *)
Definition single_user_step (n : string) : M unit :=
  ob <- get_object n ;;
  s <- gets scene ;;
  match ob_data ob with
  | Some d =>
      when (1 <? data_users s d) (
        let users := object_users (objects s) d in
        when (1 <? length users) (
          when (bool_decide (ob_type ob = MESH)) (
            let modifiers :=
              foldl (fun acc user =>
                       acc + default 0 (enabled_modifiers <$> (objects s !! user)))
                    0 users in
            when (modifiers =? 0) (modify (with_shared_data (dict_set n d)))) ;;
          d' <- data_copy d ;;
          update_object n (set_data (Some d'))))
  | None => ret tt
  end.

(** The loop of the protected region that restores the shared data. *)
Definition restore_shared_data : M unit :=
  shared <- gets shared_data ;;
  for_each shared (fun '(item, d) =>
    s <- gets scene ;;
    match objects s !! item with
    | Some _ => update_object item (set_data (Some d))
    | None => raise (KeyError item)
    end).

(** The enabled modifiers of a list of objects, counted together. *)
Definition census (objs : gmap string Object) (users : list string) : nat :=
  foldl (fun acc user => acc + default 0 (enabled_modifiers <$> (objs !! user))) 0 users.

(** Is the visited object recorded for the restoration? *)
Definition recorded (objs : gmap string Object) (ob : Object) (users : list string) : bool :=
  bool_decide (ob_type ob = MESH) && (census objs users =? 0).

(** Every object that holds data holds a datablock that exists. *)
Definition data_wf (s : Scene) : Prop :=
  forall n o d, objects s !! n = Some o -> ob_data o = Some d ->
    is_Some (datablocks s !! d).

(** The data of the object named [n]. *)
Definition data_at (n : string) (w : World) : option DataId :=
  (objects (scene w) !! n) ≫= ob_data.

(** The holders of [d] among the names of a list, in the order of the list. *)
Definition holders (objs : gmap string Object) (d : DataId) (l : list string) : list string :=
  filter (fun n => (objs !! n) ≫= ob_data = Some d) l.

(** The state of the uniquifier when it has visited the names [P], a prefix
    of the enumeration of the objects of [w0], the world it started in: an
    object not visited yet is as it was; a visited object holds a copy of
    its data when an object further down the enumeration held the same
    data, and is as it was otherwise; and it is on record when it holds a
    copy, is a mesh and the objects that held its data when it was visited
    had no enabled modifier. *)
Definition uniquified_upto (w0 : World) (P : list string) (w : World) : Prop :=
  let objs0 := objects (scene w0) in
  object_names (objects (scene w)) = object_names objs0
  /\ datablocks (scene w0) ⊆ datablocks (scene w)
  /\ data_wf (scene w)
  /\ (forall m o, objs0 !! m = Some o -> m ∉ P -> objects (scene w) !! m = Some o)
  /\ (forall m o A B, objs0 !! m = Some o -> object_names objs0 = A ++ m :: B -> m ∈ P ->
        match ob_data o with
        | None => objects (scene w) !! m = Some o
        | Some d =>
            if decide (holders objs0 d B = []) then objects (scene w) !! m = Some o
            else exists d', objects (scene w) !! m = Some (set_data (Some d') o)
                   /\ (d' ∉ dom (datablocks (scene w0)))
                   /\ datablocks (scene w) !! d' = datablocks (scene w0) !! d
        end)
  /\ (forall m x, ((m, x) ∈ shared_data w) <->
        (m ∈ P /\ exists o A B, objs0 !! m = Some o /\ ob_data o = Some x
           /\ object_names objs0 = A ++ m :: B /\ holders objs0 x B <> []
           /\ recorded objs0 o (m :: holders objs0 x B) = true))
  /\ NoDup (shared_data w).*1.

(** One turn of the loop that restores the shared data. *)
Definition restore_step (entry : string * DataId) : M unit :=
  let '(item, d) := entry in
  s <- gets scene ;;
  match objects s !! item with
  | Some _ => update_object item (set_data (Some d))
  | None => raise (KeyError item)
  end.

(** An object that differs from another in the data it holds, at most. *)
Definition redata (o o' : Object) : Prop := o' = set_data (ob_data o') o.

(** A mesh object stays a mesh object with the data it holds. *)
Definition mesh_kept (o o' : Object) : Prop :=
  ob_type o = MESH -> ob_type o' = MESH /\ ob_data o' = ob_data o.

(** The datablocks of the scene. *)
Definition datablocks_of (w : World) : gmap DataId Datablock := datablocks (scene w).

(** The bake of a matrix into a datablock. *)
Definition bake_into (baked : Matrix) (db : Datablock) : Datablock :=
  mkDatablock (use_fake_user db) (mmul baked (db_xform db)).

(** [data_wf], computed. *)
Definition data_wfb (s : Scene) : bool :=
  forallb (fun n =>
             match (objects s !! n) ≫= ob_data with
             | Some d => bool_decide (is_Some (datablocks s !! d))
             | None => true
             end)
          (object_names (objects s)).

(** An object that differs from another in its visibility flags, its
    selection state and its cached world matrix only. *)
Definition cosmetic (o o' : Object) : Prop :=
  ob_type o' = ob_type o /\ ob_parent o' = ob_parent o /\ ob_data o' = ob_data o
  /\ ob_modifiers o' = ob_modifiers o /\ matrix_basis o' = matrix_basis o
  /\ matrix_parent_inverse o' = matrix_parent_inverse o
  /\ in_view_layer o' = in_view_layer o.

(** An object keeps its kind, its data and its modifiers. *)
Definition payload_kept (o o' : Object) : Prop :=
  ob_type o' = ob_type o /\ ob_data o' = ob_data o /\ ob_modifiers o' = ob_modifiers o.

(** [triple R I m J]: from a world that satisfies [I], the computation [m]
    leaves a world related by [R] to the one it started from, whether it
    returns or raises, and when it returns [a] the world satisfies [J a]. *)
Definition triple (R : relation World) (I : World -> Prop) {A} (m : M A)
    (J : A -> World -> Prop) : Prop :=
  forall w, I w ->
    R w (world_of (m w)) /\ forall a w', m w = Ok a w' -> J a w'.

(** Two mesh objects [a] and [b] are the holders of [d], [a] first in the
    enumeration, with [k] enabled modifiers between them. *)
Definition shared_pair (a b : string) (d : DataId) (k : nat) (w : World) : Prop :=
  data_wf (scene w)
  /\ object_users (objects (scene w)) d = [a; b]
  /\ proj_at ob_type a w = Some MESH
  /\ proj_at ob_type b w = Some MESH
  /\ census (objects (scene w)) [a; b] = k.

(** The pair once the uniquifier has run: [b] holds [d] and is not on
    record; [a] is on record with [d] when the pair has no enabled modifier,
    and otherwise is not on record and holds other data. *)
Definition uniquified_pair (a b : string) (d : DataId) (k : nat) (w : World) : Prop :=
  NoDup (shared_data w).*1
  /\ (forall m x, (m, x) ∈ shared_data w -> is_Some (objects (scene w) !! m))
  /\ (b ∉ (shared_data w).*1)
  /\ proj_at ob_type b w = Some MESH
  /\ data_at b w = Some d
  /\ if decide (k = 0) then (a, d) ∈ shared_data w
     else (a ∉ (shared_data w).*1) /\ proj_at ob_type a w = Some MESH
          /\ exists d', data_at a w = Some d' /\ d' <> d.

(** The data of the pair in a scene: the same datablock [d] when the pair
    has no enabled modifier, two datablocks otherwise. *)
Definition pair_data (a b : string) (d : DataId) (k : nat) (s : Scene) : Prop :=
  (objects s !! b) ≫= ob_data = Some d
  /\ if decide (k = 0) then (objects s !! a) ≫= ob_data = Some d
     else exists d', (objects s !! a) ≫= ob_data = Some d' /\ d' <> d.

(** The objects keep kind, data and modifiers, and the datablocks stay. *)
Definition payloads_kept : relation World :=
  both (via_objects payload_kept) (same datablocks_of).

(** [bpy.ops.object.convert.poll()] as [apply_object_modifiers] finds it,
    read in the scene before the call: the active object has data, is in
    the view layer and has no ARMATURE modifier. *)
Definition conversion_available (s : Scene) : bool :=
  match active_object s with
  | Some n =>
      match objects s !! n with
      | Some o => bool_decide (ob_data o <> None) && bakeable o
      | None => false
      end
  | None => false
  end.

(** [total I m J]: from a world that satisfies [I], the computation [m]
    returns, some [a] in a world that satisfies [J a]. *)
Definition total (I : World -> Prop) {A} (m : M A) (J : A -> World -> Prop) : Prop :=
  forall w, I w -> exists a w', m w = Ok a w' /\ J a w'.

(** The state of the uniquifier when it has visited the names [P]: two
    objects that hold the same datablock are not both visited. *)
Definition single_users_upto (l P : list string) (w : World) : Prop :=
  data_wf (scene w)
  /\ object_names (objects (scene w)) = l
  /\ forall x m m',
       (objects (scene w) !! m) ≫= ob_data = Some x ->
       (objects (scene w) !! m') ≫= ob_data = Some x ->
       m <> m' -> m ∉ P \/ m' ∉ P.

(** No datablock of the scene has two holders, computed. *)
Definition single_usersb (s : Scene) : bool :=
  forallb (fun n =>
             match (objects s !! n) ≫= ob_data with
             | Some d => length (object_users (objects s) d) <=? 1
             | None => true
             end)
          (object_names (objects s)).

(** The loop of the protected region over the root objects. *)
Definition fix_roots (roots : list string) : M unit :=
  for_each roots (fun n =>
    ob <- get_object n ;;
    print (OutRoot n (ob_type ob)) ;;
    s <- gets scene ;;
    fix_object (recursion_fuel s) n).

(** The loops of the protected region that restore the hidden and the
    disabled objects. *)
Definition restore_objects : M unit :=
  hidden <- gets hidden_objects ;;
  for_each hidden (fun n => update_object n (set_hide true)) ;;
  disabled <- gets disabled_objects ;;
  for_each disabled (fun n => update_object n (set_hide_viewport true)).

(** The loops that restore the hidden and the disabled collections. *)
Definition restore_collections : M unit :=
  hidden <- gets hidden_collections ;;
  for_each hidden (fun col =>
    modify (with_scene (set_layer_collection (update_collection col (set_lc_hide_viewport true))))) ;;
  disabled <- gets disabled_collections ;;
  for_each disabled (fun col =>
    modify (with_scene (set_layer_collection
      (update_collection col (set_lc_collection_hide_viewport true))))).

(** The restoration of the selection. *)
Definition restore_selection (selection : list string) : M unit :=
  select_all_deselect ;;
  for_each selection (fun n => select_set n true).

(** An object of the view layer, shown and enabled. *)
Definition unhidden (o : Object) : Object :=
  if in_view_layer o then set_hide_viewport false (set_hide false o) else o.

(** The names of a list whose object passes a test. *)
Definition names_where (test : Object -> bool) (objs : gmap string Object)
    (l : list string) : list string :=
  filter (fun n => test <$> (objs !! n) = Some true) l.

(** An object shown and enabled. *)
Definition shown (o : Object) : Object := set_hide_viewport false (set_hide false o).

(** The objects, those of a list shown and enabled. *)
Definition show_among (l : list string) (objs : gmap string Object) : gmap string Object :=
  map_imap (fun n o => Some (if bool_decide (n ∈ l) then shown o else o)) objs.

(** One turn of the loop of [unhide_objects]. *)
Definition unhide_step (n : string) : M unit :=
  ob <- get_object n ;;
  when (ob_hide ob) (
    modify (with_hidden_objects (fun l => l ++ [n])) ;;
    update_object n (set_hide false)) ;;
  ob <- get_object n ;;
  when (ob_hide_viewport ob) (
    modify (with_disabled_objects (fun l => l ++ [n])) ;;
    update_object n (set_hide_viewport false)).

(** The world that [unhide_objects] leaves. *)
Definition unhidden_world (w : World) : World :=
  let objs := objects (scene w) in
  let l := names_where in_view_layer objs (object_names objs) in
  with_disabled_objects (fun d => d ++ names_where ob_hide_viewport objs l)
    (with_hidden_objects (fun h => h ++ names_where ob_hide objs l)
       (with_scene (set_objects (fmap unhidden)) w)).

(** ** Visibility of the collections *)

(** The loop of [unhide_collections] over the children of the collection at
    [path], from the child of index [i] on. *)
Section Children.
Variable path : CollPath.

Fixpoint unhide_children (i : nat) (l : list LayerCollection)
  : list LayerCollection * (list CollPath * list CollPath) :=
  match l with
  | [] => ([], ([], []))
  | item :: r =>
      let '(item', (hi, di)) := unhide_collections (path ++ [i]) item in
      let '(r', (hr, dr)) := unhide_children (S i) r in
      (unhide_item item' :: r', (hi ++ hr, di ++ dr))
  end.

End Children.

(** The two loops of [export_unity_fbx] that restore the collections, on the
    tree of layer collections. *)
Definition assign_all (f : LayerCollection -> LayerCollection) (paths : list CollPath)
    (col : LayerCollection) : LayerCollection :=
  foldl (fun c p => update_collection p f c) col paths.

Definition restore_tree (hidden disabled : list CollPath) (col : LayerCollection)
  : LayerCollection :=
  assign_all (set_lc_collection_hide_viewport true) disabled
    (assign_all (set_lc_hide_viewport true) hidden col).

(** The rest of a reference that goes through the child of index [i]. *)
Definition below (i : nat) (p : CollPath) : option CollPath :=
  match p with
  | j :: q => if decide (j = i) then Some q else None
  | [] => None
  end.

(** The layer collection that a reference designates. *)
Fixpoint collection_at (p : CollPath) (col : LayerCollection) : option LayerCollection :=
  match p with
  | [] => Some col
  | i :: q =>
      match lc_children col !! i with
      | Some item => collection_at q item
      | None => None
      end
  end.

(** The reference designates a collection of the view layer: neither it nor
    a collection above it is excluded. *)
Fixpoint included (p : CollPath) (col : LayerCollection) : bool :=
  negb (lc_exclude col) &&
  match p with
  | [] => true
  | i :: q =>
      match lc_children col !! i with
      | Some item => included q item
      | None => false
      end
  end.

(** The flags of a layer collection. *)
Definition lc_flags (c : LayerCollection) : bool * bool * bool :=
  (lc_exclude c, lc_hide_viewport c, lc_collection_hide_viewport c).

(** ** What the serializer is shown *)

(** What makes an object visible or not. *)
Definition visibility (o : Object) : bool * bool * bool :=
  (in_view_layer o, ob_hide o, ob_hide_viewport o).

Definition vis_kept (o o' : Object) : Prop := visibility o' = visibility o.

Definition layer_of (w : World) : LayerCollection := layer_collection (scene w).

(** The scene [sc] presents the layer collections, the visibility of the
    objects and the selection of the scene [s]. *)
Definition presented (s sc : Scene) : Prop :=
  layer_collection sc = layer_collection s
  /\ (forall n, visibility <$> objects sc !! n = visibility <$> objects s !! n)
  /\ (forall n, (fun o => in_view_layer o && ob_select o) <$> objects sc !! n
                = (fun o => in_view_layer o && ob_select o) <$> objects s !! n).

Definition same_look : relation World := fun w w' => presented (scene w) (scene w').

(** Between [unhide_objects] and the restoration: the visibility of the
    objects, the layer collections and the four lists stay as they are. *)
Definition guise : relation World :=
  both (via_objects vis_kept)
    (both (same layer_of)
       (both (same hidden_objects)
          (both (same disabled_objects)
             (both (same hidden_collections) (same disabled_collections))))).

(** The visibility of an object that [unhide_objects] has seen. *)
Definition shown_flags (v : bool * bool * bool) : bool * bool * bool :=
  let '(l, h, d) := v in if l then (l, false, false) else v.

(** The state [unhide_collections] leaves, in terms of the scene [s0]
    before it. *)
Definition collections_shown (s0 : Scene) (w : World) : Prop :=
  layer_of w = (unhide_collections [] (layer_collection s0)).1
  /\ hidden_collections w = (unhide_collections [] (layer_collection s0)).2.1
  /\ disabled_collections w = (unhide_collections [] (layer_collection s0)).2.2.

(** The objects have the visibility they have in [s0]. *)
Definition visibility_of (s0 : Scene) (w : World) : Prop :=
  forall n, visibility <$> objects (scene w) !! n = visibility <$> objects s0 !! n.

(** The state [unhide_collections] and [unhide_objects] leave. *)
Definition all_shown (s0 : Scene) (w : World) : Prop :=
  collections_shown s0 w
  /\ (forall n, visibility <$> objects (scene w) !! n
                = shown_flags <$> (visibility <$> objects s0 !! n))
  /\ (forall n, n ∈ hidden_objects w
                <-> exists d, visibility <$> objects s0 !! n = Some (true, true, d))
  /\ (forall n, n ∈ disabled_objects w
                <-> exists h, visibility <$> objects s0 !! n = Some (true, h, true)).

(** ** The bakes of a run *)

(** Since [w] the journal has only grown, by calls that satisfy [Q]. *)
Definition calls_satisfy (Q : HostCall -> Prop) : relation World :=
  fun w w' => exists calls, journal w' = journal w ++ calls /\ Forall Q calls.

(** [n] is [root] or is below it, along the parent links. *)
Inductive descends (objs : gmap string Object) (root : string) : string -> Prop :=
  | descends_root : descends objs root root
  | descends_child n o p :
      objs !! n = Some o -> ob_parent o = Some p -> descends objs root p ->
      descends objs root n.

(** An object keeps its parent and stays in or out of the view layer. *)
Definition kin (o o' : Object) : Prop :=
  ob_parent o' = ob_parent o /\ in_view_layer o' = in_view_layer o.

(** The objects of the world are those of [objs], with their parents and
    their membership of the view layer. *)
Definition akin (objs : gmap string Object) (w : World) : Prop :=
  objects_related kin objs (objects (scene w)).

(** The object is at or below one of the root objects. *)
Definition under_root (objs : gmap string Object) (n : string) : Prop :=
  exists root, root ∈ root_objects objs /\ descends objs root n.

(** A call of [transform_apply] bakes the rotation alone, of one object of
    the view layer that is at or below a root object of [objs]; the other
    calls are free. *)
Definition rotation_under_root (objs : gmap string Object) (c : HostCall) : Prop :=
  match c with
  | CallTransformApply selected location rotation scale =>
      location = false /\ rotation = true /\ scale = false
      /\ exists n o, selected = [n] /\ objs !! n = Some o /\ in_view_layer o = true
           /\ under_root objs n
  | _ => True
  end.

(** The rotation of every object of the view layer at or below a root
    object of [w0] has been baked since [w0]. *)
Definition all_baked (w0 w : World) : Prop :=
  forall root n o,
    root ∈ root_objects (objects (scene w0)) ->
    descends (objects (scene w0)) root n ->
    objects (scene w0) !! n = Some o -> in_view_layer o = true ->
    CallTransformApply [n] false true false ∈ calls_since w0 w.

(** Since [w] the journal has only grown, and if the serializer has been
    called then [B] holds. *)
Definition exports_after (B : World -> Prop) : relation World :=
  fun w w' =>
    grows w w' /\ ((exists p sc, CallExportFbx p sc ∈ calls_since w w') -> B w').

(** ** The operator [ExportUnityFbx] *)

Module Operator.

(** The settings of an instance: the file path that [ExportHelper] holds
    and the properties that the class declares for the export. *)
Record ExportUnityFbx := mkExportUnityFbx {
  filepath : string;
  use_selection : bool;
  use_visible : bool;
  use_active_collection : bool;
  global_scale : Qc;
  apply_unit_scale : bool;
  use_space_transform : bool;
  object_types : list string;
  use_mesh_modifiers : bool;
  use_mesh_modifiers_render : bool;
  mesh_smooth_type : string;
  colors_type : string;
  prioritize_active_color : bool;
  use_subsurf : bool;
  use_mesh_edges : bool;
  use_custom_props : bool;
  use_armature_deform_only : bool;
  add_leaf_bones : bool;
  armature_nodetype : string;
  primary_bone_axis : string;
  secondary_bone_axis : string;
  use_tspace : bool;
  use_triangles : bool;
  path_mode : string;
  embed_textures : bool;
  batch_mode : string;
  use_batch_own_dir : bool;
  use_metadata : bool;
  bake_anim : bool;
  bake_anim_use_all_bones : bool;
  bake_anim_use_nla_strips : bool;
  bake_anim_use_all_actions : bool;
  bake_anim_force_startend_keying : bool;
  bake_anim_step : Qc;
  bake_anim_simplify_factor : Qc }.

(** The dictionary that [execute] collects, as the literal lists it. *)
Definition kwargs (self : ExportUnityFbx) : list (string * PyValue) :=
  [ ("use_selection", PyBool (use_selection self));
    ("use_visible", PyBool (use_visible self));
    ("use_active_collection", PyBool (use_active_collection self));
    ("global_scale", PyFloat (global_scale self));
    ("apply_unit_scale", PyBool (apply_unit_scale self));
    ("use_space_transform", PyBool (use_space_transform self));
    ("object_types", PySet (object_types self));
    ("use_mesh_modifiers", PyBool (use_mesh_modifiers self));
    ("use_mesh_modifiers_render", PyBool (use_mesh_modifiers_render self));
    ("mesh_smooth_type", PyStr (mesh_smooth_type self));
    ("colors_type", PyStr (colors_type self));
    ("prioritize_active_color", PyBool (prioritize_active_color self));
    ("use_subsurf", PyBool (use_subsurf self));
    ("use_mesh_edges", PyBool (use_mesh_edges self));
    ("use_custom_props", PyBool (use_custom_props self));
    ("use_armature_deform_only", PyBool (use_armature_deform_only self));
    ("add_leaf_bones", PyBool (add_leaf_bones self));
    ("armature_nodetype", PyStr (armature_nodetype self));
    ("primary_bone_axis", PyStr (primary_bone_axis self));
    ("secondary_bone_axis", PyStr (secondary_bone_axis self));
    ("use_tspace", PyBool (use_tspace self));
    ("use_triangles", PyBool (use_triangles self));
    ("path_mode", PyStr (path_mode self));
    ("embed_textures", PyBool (embed_textures self));
    ("batch_mode", PyStr (batch_mode self));
    ("use_batch_own_dir", PyBool (use_batch_own_dir self));
    ("use_metadata", PyBool (use_metadata self));
    ("bake_anim", PyBool (bake_anim self));
    ("bake_anim_use_all_bones", PyBool (bake_anim_use_all_bones self));
    ("bake_anim_use_nla_strips", PyBool (bake_anim_use_nla_strips self));
    ("bake_anim_use_all_actions", PyBool (bake_anim_use_all_actions self));
    ("bake_anim_force_startend_keying", PyBool (bake_anim_force_startend_keying self));
    ("bake_anim_step", PyFloat (bake_anim_step self));
    ("bake_anim_simplify_factor", PyFloat (bake_anim_simplify_factor self)) ].

(** [execute(self, context)] *)
Definition execute (fbx : Serializer) (self : ExportUnityFbx) : M OperatorStatus :=
  export_unity_fbx fbx (filepath self) (list_to_map (kwargs self)).

End Operator.

(** ** The closing message *)

(** What has been printed since [w], in a later world [w']. *)
Definition stdout_since (w w' : World) : list Output :=
  drop (length (stdout w)) (stdout w').

(** Since [w] standard output has only grown, by lines that satisfy [Q]. *)
Definition prints_satisfy (Q : Output -> Prop) : relation World :=
  fun w w' => exists out, stdout w' = stdout w ++ out /\ Forall Q out.

Definition saved_message : Output := OutText "FBX file for Unity saved.".

(** Since [w] the serializer has been called and has written the file. *)
Definition written (fbx : Serializer) (w w' : World) : Prop :=
  exists p sc, CallExportFbx p sc ∈ calls_since w w' /\ fbx p sc = None.

(** A computation that returns exactly when the serializer has written the
    file. *)
Definition returns_when_written (fbx : Serializer) {A} (m : M A) : Prop :=
  forall w,
    grows w (world_of (m w))
    /\ match m w with
       | Ok _ w' => written fbx w w'
       | Raise _ w' => ~ written fbx w w'
       end.


(** ** Sample scenes *)

Module Samples.

Definition qz (z : Z) : Qc := Q2Qc (inject_Z z).

Definition translation (x y z : Z) : Matrix :=
  mkMatrix 1 0 0 (qz x)
           0 1 0 (qz y)
           0 0 1 (qz z)
           0 0 0 1.

Definition scaling (x y z : Z) : Matrix := diag3 (qz x) (qz y) (qz z).

Definition Rotation_pos90_Z : Matrix :=
  mkMatrix 0 (- (1)) 0 0
           1 0 0 0
           0 0 1 0
           0 0 0 1.

(** A visible, unselected object of the view layer. *)
Definition object (t : ObjectType) (parent : option string) (data : option DataId)
    (modifiers : list Modifier) (basis parent_inverse : Matrix) : Object :=
  mkObject t parent data modifiers basis parent_inverse identity true false false false.

Definition outside_view_layer (o : Object) : Object :=
  mkObject (ob_type o) (ob_parent o) (ob_data o) (ob_modifiers o) (matrix_basis o)
    (matrix_parent_inverse o) (matrix_world o) false false (ob_hide o) (ob_hide_viewport o).

Definition mesh (xf : Matrix) : Datablock := mkDatablock false xf.

Definition scene_of (objs : gmap string Object) (dbs : gmap DataId Datablock)
    (active : option string) : Scene :=
  mkScene objs dbs (LayerColl false false false []) active OBJECT.

Definition world_with (s : Scene) : World := mkWorld s [] [] [] [] [] [] [] [].

(** A hierarchy of depth three, A > B > C, with parent-inverse matrices
    that are not the identity. *)
Definition hierarchy_objects : gmap string Object :=
  <["A" := object MESH None (Some 1%positive) []
             (mmul (translation 1 2 3) Rotation_pos90_Z) identity]>
  (<["B" := object MESH (Some "A") (Some 2%positive) []
             (mmul (translation 0 5 0) (scaling 2 2 2)) (translation 7 0 0)]>
  (<["C" := object MESH (Some "B") (Some 3%positive) []
             (mmul (translation 0 0 1) Rotation_pos90_Z)
             (mmul Rotation_pos90_Z (translation 1 1 1))]> ∅)).

Definition three_meshes : gmap DataId Datablock :=
  <[1%positive := mesh identity]>
  (<[2%positive := mesh identity]> (<[3%positive := mesh identity]> ∅)).

Definition hierarchy : Scene := scene_of hierarchy_objects three_meshes (Some "A").

(** The same hierarchy with B outside the view layer. *)
Definition hierarchy_gap : Scene :=
  scene_of (alter outside_view_layer "B" hierarchy_objects) three_meshes (Some "A").

(** One parentless mesh at the origin. *)
Definition single_root : Scene :=
  scene_of (<["A" := object MESH None (Some 1%positive) [] identity identity]> ∅)
           (<[1%positive := mesh identity]> ∅) (Some "A").

Definition hierarchy_world : World := world_with hierarchy.

(** Two meshes of the view layer: A with a disabled ARMATURE modifier and
    nothing else, B (the active object) with an enabled subdivision. *)
Definition disabled_armature : Scene :=
  scene_of
    (<["A" := object MESH None (Some 1%positive) [mkModifier MOD_ARMATURE false]
                identity identity]>
     (<["B" := object MESH None (Some 2%positive) [mkModifier MOD_SUBSURF true]
                identity identity]> ∅))
    (<[1%positive := mesh identity]> (<[2%positive := mesh identity]> ∅))
    (Some "B").

(** The hierarchy with its world matrices evaluated. *)
Definition hierarchy_evaluated : World := world_with (update_world_matrices hierarchy).

(** Serializers: one that writes the file, one that fails. *)
Definition fbx_writes : Serializer := fun _ _ => None.
Definition fbx_fails : Serializer := fun _ _ => Some (RuntimeError "cannot write file").

(** Options of a caller who sets the unit-scale mode. *)
Definition kwargs_scale_none : Params :=
  <["apply_scale_options" := PyStr "FBX_SCALE_NONE"]> (<["use_selection" := PyBool true]> ∅).

(** The hierarchy with the gap, its world matrices evaluated. *)
Definition gap_world : World := world_with (update_world_matrices hierarchy_gap).

(** Three meshes that share one datablock, without modifiers. *)
Definition shared_meshes : Scene :=
  scene_of
    (<["A" := object MESH None (Some 1%positive) [] identity identity]>
     (<["B" := object MESH None (Some 1%positive) [] identity identity]>
      (<["C" := object MESH None (Some 1%positive) [] identity identity]> ∅)))
    (<[1%positive := mesh identity]> ∅) (Some "A").

(** Two curves that share one datablock, without modifiers. *)
Definition shared_curves : Scene :=
  scene_of
    (<["A" := object CURVE None (Some 1%positive) [] identity identity]>
     (<["B" := object CURVE None (Some 1%positive) [] identity identity]> ∅))
    (<[1%positive := mesh identity]> ∅) (Some "A").

(** Two meshes that share one datablock, without modifiers. *)
Definition shared_two : Scene :=
  scene_of
    (<["A" := object MESH None (Some 1%positive) [] identity identity]>
     (<["B" := object MESH None (Some 1%positive) [] identity identity]> ∅))
    (<[1%positive := mesh identity]> ∅) (Some "A").

(** The same two meshes, one of them with an enabled subdivision. *)
Definition shared_two_modified : Scene :=
  scene_of
    (<["A" := object MESH None (Some 1%positive) [] identity identity]>
     (<["B" := object MESH None (Some 1%positive) [mkModifier MOD_SUBSURF true]
                identity identity]> ∅))
    (<[1%positive := mesh identity]> ∅) (Some "A").

(** One mesh whose datablock has a fake user besides. *)
Definition fake_user : Scene :=
  scene_of (<["A" := object MESH None (Some 1%positive) [] identity identity]> ∅)
           (<[1%positive := mkDatablock true identity]> ∅) (Some "A").

(** A parent flattened along X (scale 0), with one child; world matrices
    evaluated. *)
Definition flat_parent : World :=
  world_with (update_world_matrices (scene_of
    (<["A" := object MESH None (Some 1%positive) [] (scaling 0 1 1) identity]>
     (<["B" := object MESH (Some "A") (Some 2%positive) [] (translation 1 0 0) identity]> ∅))
    (<[1%positive := mesh identity]> (<[2%positive := mesh identity]> ∅)) (Some "A"))).

(** The hierarchy with A hidden, B disabled, and C hidden and disabled
    outside the view layer. *)
Definition hidden_objects_world : World :=
  world_with (scene_of
    (alter (set_hide true) "A"
       (alter (set_hide_viewport true) "B"
          (alter (fun o => outside_view_layer (set_hide_viewport true (set_hide true o))) "C"
             hierarchy_objects)))
    three_meshes (Some "A")).

(** Nested collections: a hidden one with a hidden and disabled child, an
    excluded and hidden one with a hidden child, and a disabled one. *)
Definition nested_collections : LayerCollection :=
  LayerColl false false false
    [LayerColl false true false [LayerColl false true true []];
     LayerColl true true false [LayerColl false true false []];
     LayerColl false false true []].

Definition nested_collections_world : World :=
  world_with (mkScene hierarchy_objects three_meshes nested_collections (Some "A") OBJECT).

(** The hierarchy under nested collections, with A selected, B hidden and
    C disabled. *)
Definition dressed_world : World :=
  world_with (mkScene
    (alter (set_select true) "A"
       (alter (set_hide true) "B"
          (alter (set_hide_viewport true) "C" hierarchy_objects)))
    three_meshes nested_collections (Some "A") OBJECT).

(** The operator with the defaults of its properties, and a file path. *)
Definition default_settings (path : string) : Operator.ExportUnityFbx :=
  Operator.mkExportUnityFbx path
    false false false 1%Qc true true
    ["EMPTY"; "CAMERA"; "LIGHT"; "ARMATURE"; "MESH"; "OTHER"]
    true true "OFF" "SRGB" false false false false false false
    "NULL" "Y" "X" false false "AUTO" false "OFF" true true
    true true true true true 1%Qc 1%Qc.

End Samples.
(** * Properties *)

(** ** Matrix algebra *)

Section MatrixAlgebra.
Local Open Scope Qc_scope.

Lemma mmul_assoc a b c : mmul a (mmul b c) = mmul (mmul a b) c.
Proof. destruct a, b, c; unfold mmul; simpl; f_equal; ring. Qed.

Lemma mmul_identity_l a : mmul identity a = a.
Proof. destruct a; unfold mmul, identity; simpl; f_equal; ring. Qed.

Lemma mmul_identity_r a : mmul a identity = a.
Proof. destruct a; unfold mmul, identity; simpl; f_equal; ring. Qed.

Lemma adjugate_l m : mmul (adjugate m) m = mscale (determinant m) identity.
Proof.
  destruct m; unfold identity, mmul, mscale, adjugate, determinant, det3; simpl.
  f_equal; ring.
Qed.

Lemma adjugate_r m : mmul m (adjugate m) = mscale (determinant m) identity.
Proof.
  destruct m; unfold identity, mmul, mscale, adjugate, determinant, det3; simpl.
  f_equal; ring.
Qed.

Lemma mscale_mmul_l x a b : mmul (mscale x a) b = mscale x (mmul a b).
Proof. destruct a, b; unfold mmul, mscale; simpl; f_equal; ring. Qed.

Lemma mscale_mmul_r x a b : mmul a (mscale x b) = mscale x (mmul a b).
Proof. destruct a, b; unfold mmul, mscale; simpl; f_equal; ring. Qed.

Lemma mscale_inv x a : x <> 0 -> mscale (/ x) (mscale x a) = a.
Proof.
  intros Hx. destruct a; unfold mscale; simpl; f_equal; field; exact Hx.
Qed.

Lemma inverted_l m mi : inverted m = Some mi -> mmul mi m = identity.
Proof.
  unfold inverted. destruct (decide _) as [|Hd]; [discriminate|].
  intros [= <-]. rewrite mscale_mmul_l, adjugate_l. by apply mscale_inv.
Qed.

Lemma inverted_r m mi : inverted m = Some mi -> mmul m mi = identity.
Proof.
  unfold inverted. destruct (decide _) as [|Hd]; [discriminate|].
  intros [= <-]. rewrite mscale_mmul_r, adjugate_r. by apply mscale_inv.
Qed.

Lemma invert_m4_inverted m mi : inverted m = Some mi -> invert_m4 m = mi.
Proof. unfold invert_m4. by intros ->. Qed.

Lemma Rotation_pos_neg : mmul Rotation_pos90_X Rotation_neg90_X = identity.
Proof. unfold mmul, Rotation_pos90_X, Rotation_neg90_X, identity; simpl; f_equal; ring. Qed.

Lemma Rotation_neg_pos : mmul Rotation_neg90_X Rotation_pos90_X = identity.
Proof. unfold mmul, Rotation_pos90_X, Rotation_neg90_X, identity; simpl; f_equal; ring. Qed.

Lemma Rotation_pos90_X_not_identity : Rotation_pos90_X <> identity.
Proof. intros H. apply (f_equal m11) in H. simpl in H. discriminate H. Qed.

Lemma inverted_identity : inverted identity = Some identity.
Proof.
  assert (H : bool_decide (inverted identity = Some identity) = true)
    by (vm_compute; reflexivity).
  by apply bool_decide_eq_true in H.
Qed.

Lemma decompose_Rotation_neg90_X :
  decompose Rotation_neg90_X = Some (identity, Rotation_neg90_X, identity).
Proof.
  assert (H : bool_decide (decompose Rotation_neg90_X
                = Some (identity, Rotation_neg90_X, identity)) = true) by (vm_compute; reflexivity).
  by apply bool_decide_eq_true in H.
Qed.

End MatrixAlgebra.

(** ** Reasoning about programs: what a computation keeps *)

Section Keeps.
Context (R : relation World) `{!PreOrder R}.

Lemma keeps_ret {A} (a : A) : keeps R (ret a).
Proof. intros w. reflexivity. Qed.

Lemma keeps_raise {A} e : keeps R (@raise A e).
Proof. intros w. reflexivity. Qed.

Lemma keeps_gets {A} (f : World -> A) : keeps R (gets f).
Proof. intros w. reflexivity. Qed.

Lemma keeps_modify f : (forall w, R w (f w)) -> keeps R (modify f).
Proof. intros H w. apply H. Qed.

Lemma keeps_bind {A B} (m : M A) (k : A -> M B) :
  keeps R m -> (forall a, keeps R (k a)) -> keeps R (bind m k).
Proof.
  intros Hm Hk w. unfold bind. specialize (Hm w).
  destruct (m w) as [a w'|e w']; simpl in *; [|done].
  etrans; [exact Hm|apply Hk].
Qed.

Lemma keeps_try_except {A} (m : M A) (h : Exn -> M A) :
  keeps R m -> (forall e, keeps R (h e)) -> keeps R (try_except m h).
Proof.
  intros Hm Hh w. unfold try_except. specialize (Hm w).
  destruct (m w) as [a w'|e w']; simpl in *; [done|].
  etrans; [exact Hm|apply Hh].
Qed.

Lemma keeps_when b m : keeps R m -> keeps R (when b m).
Proof. intros H. destruct b; [done|apply keeps_ret]. Qed.

Lemma keeps_for_each {A} (l : list A) body :
  (forall x, keeps R (body x)) -> keeps R (for_each l body).
Proof.
  intros H. induction l as [|x l IH]; simpl; [apply keeps_ret|].
  apply keeps_bind; [apply H|intros _; apply IH].
Qed.

Lemma keeps_get_object n : keeps R (get_object n).
Proof. intros w. unfold get_object. destruct (_ !! _); reflexivity. Qed.

End Keeps.

(** One step through the structure of a program. *)
Ltac keeps_step :=
  lazymatch goal with
  | |- keeps _ (bind _ _) => apply keeps_bind; [try typeclasses eauto| |intros ?]
  | |- keeps _ (ret _) => apply keeps_ret; try typeclasses eauto
  | |- keeps _ (raise _) => apply keeps_raise; try typeclasses eauto
  | |- keeps _ (gets _) => apply keeps_gets; try typeclasses eauto
  | |- keeps _ (get_object _) => apply keeps_get_object; try typeclasses eauto
  | |- keeps _ (when _ _) => apply keeps_when; [try typeclasses eauto|]
  | |- keeps _ (for_each _ _) => apply keeps_for_each; [try typeclasses eauto|intros ?]
  | |- keeps _ (try_except _ _) => apply keeps_try_except; [try typeclasses eauto| |intros ?]
  | |- keeps _ (match ?x with _ => _ end) => destruct x
  end.

#[global] Instance same_preorder {X} (proj : World -> X) : PreOrder (same proj).
Proof. split; [by intros w|intros a b c H1 H2; unfold same in *; congruence]. Qed.

Create HintDb keeps discriminated.

Ltac keeps_auto :=
  repeat first
    [ keeps_step
    | solve [eauto with keeps]
    | apply keeps_modify; intros ?; reflexivity ].

(** *** Soft edits *)

#[global] Instance soft_preorder : PreOrder soft.
Proof.
  split.
  - by intros o.
  - intros a b c (?&?&?&?&?&?&?) (?&?&?&?&?&?&?). unfold soft. repeat split; congruence.
Qed.

#[global] Instance objects_related_preorder OR `{!PreOrder OR} :
  PreOrder (objects_related OR).
Proof.
  split.
  - intros objs n. destruct (objs !! n); by constructor.
  - intros a b c Hab Hbc n. specialize (Hab n). specialize (Hbc n).
    destruct Hab; inversion Hbc; subst; constructor. by etrans.
Qed.

#[global] Instance via_objects_preorder OR `{!PreOrder OR} : PreOrder (via_objects OR).
Proof.
  split.
  - intros w. unfold via_objects. reflexivity.
  - intros a b c. unfold via_objects. apply transitivity.
Qed.

Lemma objects_related_alter OR `{!Reflexive OR} f n objs :
  (forall o, OR o (f o)) -> objects_related OR objs (alter f n objs).
Proof.
  intros H m. destruct (decide (n = m)) as [->|Hne].
  - rewrite lookup_alter_eq. destruct (objs !! m); constructor; apply H.
  - rewrite lookup_alter_ne by done. destruct (objs !! m); by constructor.
Qed.

Lemma objects_related_fmap OR f objs :
  (forall o, OR o (f o)) -> objects_related OR objs (f <$> objs).
Proof.
  intros H m. rewrite lookup_fmap. destruct (objs !! m); constructor; apply H.
Qed.

Lemma objects_related_mono (OR OR' : relation Object) objs objs' :
  (forall o o', OR o o' -> OR' o o') ->
  objects_related OR objs objs' -> objects_related OR' objs objs'.
Proof. intros H Hr n. destruct (Hr n); constructor; by apply H. Qed.

(** *** Relations that are frames *)

#[global] Instance undo_stack_untouched : Untouched undo_stack.
Proof. by split. Qed.
#[global] Instance shared_data_untouched : Untouched shared_data.
Proof. by split. Qed.
#[global] Instance hidden_collections_untouched : Untouched hidden_collections.
Proof. by split. Qed.
#[global] Instance hidden_objects_untouched : Untouched hidden_objects.
Proof. by split. Qed.
#[global] Instance disabled_collections_untouched : Untouched disabled_collections.
Proof. by split. Qed.
#[global] Instance disabled_objects_untouched : Untouched disabled_objects.
Proof. by split. Qed.

#[global] Instance same_frame {X} (proj : World -> X) `{!Untouched proj} :
  Frame (same proj).
Proof.
  split; try apply _; intros; unfold same;
    first [apply untouched_scene|apply untouched_stdout|apply untouched_journal].
Qed.

Lemma exports_satisfy_same_journal P w w' :
  journal w' = journal w -> exports_satisfy P w w'.
Proof.
  intros H. exists []. rewrite app_nil_r. split; [done|].
  intros p sc Hin. by apply elem_of_nil in Hin.
Qed.

#[global] Instance exports_satisfy_preorder P : PreOrder (exports_satisfy P).
Proof.
  split.
  - intros w. by apply exports_satisfy_same_journal.
  - intros a b c (l1 & H1 & P1) (l2 & H2 & P2). exists (l1 ++ l2).
    rewrite H2, H1, app_assoc. split; [done|].
    intros p sc [Hin|Hin]%elem_of_app; eauto.
Qed.

#[global] Instance exports_satisfy_frame P : Frame (exports_satisfy P).
Proof.
  split; try apply _; intros; try (by apply exports_satisfy_same_journal).
  exists [c]. split; [done|]. intros p sc Hin%list_elem_of_singleton.
  by subst c.
Qed.

#[global] Instance via_objects_frame OR `{!PreOrder OR} :
  (forall o o', soft o o' -> OR o o') -> Frame (via_objects OR).
Proof.
  intros Hsoft. split; try apply _; intros; unfold via_objects; simpl; try reflexivity.
  by eapply objects_related_mono.
Qed.

(** *** The host operators and the transform rewriter keep every frame *)

Ltac soft_edit :=
  first
    [ apply objects_related_alter; [apply _|]
    | apply objects_related_fmap ];
  intros [];
  repeat lazymatch goal with |- context [if ?b then _ else _] => destruct b end;
  by repeat split.

Ltac keeps_frame :=
  repeat first
    [ keeps_step
    | solve [eauto with keeps]
    | apply keeps_modify; intros ?;
      first [ apply frame_stdout
            | apply frame_call; exact I
            | apply frame_datablocks
            | apply frame_objects; soft_edit ] ].

Section HostKeeps.
Context (R : relation World) `{!Frame R}.

Lemma keeps_print o : keeps R (print o).
Proof. unfold print. keeps_frame. Qed.

Lemma keeps_record_call c : no_export c -> keeps R (record_call c).
Proof. intros H. unfold record_call. apply keeps_modify. intros w. by apply frame_call. Qed.

Lemma keeps_update_object n f : (forall o, soft o (f o)) -> keeps R (update_object n f).
Proof.
  intros H. unfold update_object. apply keeps_modify. intros w.
  apply frame_objects. by apply objects_related_alter; [apply _|].
Qed.

Lemma keeps_view_layer_update : keeps R view_layer_update.
Proof.
  unfold view_layer_update, update_world_matrices. apply keeps_modify. intros w.
  apply frame_objects. by apply objects_related_fmap.
Qed.

#[local] Hint Resolve keeps_print keeps_view_layer_update : keeps.
#[local] Hint Extern 1 (keeps _ (record_call _)) =>
  (apply keeps_record_call; exact I) : keeps.
#[local] Hint Extern 1 (keeps _ (update_object _ _)) =>
  (apply keeps_update_object; intros []; by repeat split) : keeps.

Lemma keeps_bpy_ops op : keeps R op -> keeps R (bpy_ops op).
Proof. intros H. unfold bpy_ops. keeps_frame. Qed.

Lemma keeps_select_all_deselect : keeps R select_all_deselect.
Proof. unfold select_all_deselect. apply keeps_bpy_ops. keeps_frame. Qed.

Lemma keeps_select_set n b : keeps R (select_set n b).
Proof. unfold select_set. keeps_frame. Qed.

Lemma keeps_matrix_local_get n : keeps R (matrix_local_get n).
Proof. unfold matrix_local_get. keeps_frame. Qed.

Lemma keeps_matrix_local_set n m : keeps R (matrix_local_set n m).
Proof. unfold matrix_local_set. keeps_frame. Qed.

Lemma keeps_apply_transform_object l r s n : keeps R (apply_transform_object l r s n).
Proof. unfold apply_transform_object. keeps_frame. Qed.

#[local] Hint Resolve keeps_select_all_deselect keeps_select_set keeps_matrix_local_get
  keeps_matrix_local_set keeps_apply_transform_object : keeps.

Lemma keeps_transform_apply l r s : keeps R (transform_apply l r s).
Proof. unfold transform_apply. apply keeps_bpy_ops. keeps_frame. Qed.

Lemma keeps_reset_parent_inverse n : keeps R (reset_parent_inverse n).
Proof. unfold reset_parent_inverse. keeps_frame. Qed.

#[local] Hint Resolve keeps_transform_apply keeps_reset_parent_inverse : keeps.

Lemma keeps_apply_rotation n : keeps R (apply_rotation n).
Proof. unfold apply_rotation. keeps_frame. Qed.

#[local] Hint Resolve keeps_apply_rotation : keeps.

Lemma keeps_fix_object fuel n : keeps R (fix_object fuel n).
Proof.
  revert n. induction fuel as [|fuel IH]; intros n; simpl; keeps_frame.
Qed.

End HostKeeps.

#[global] Hint Extern 1 (Frame _) => typeclasses eauto : keeps.
#[global] Hint Extern 1 (keeps _ (record_call _)) =>
  (apply keeps_record_call; [typeclasses eauto|exact I]) : keeps.
#[global] Hint Extern 1 (keeps _ (update_object _ _)) =>
  (apply keeps_update_object; [typeclasses eauto|intros []; by repeat split]) : keeps.
#[global] Hint Resolve keeps_print keeps_view_layer_update keeps_bpy_ops
  keeps_select_all_deselect keeps_select_set
  keeps_matrix_local_get keeps_matrix_local_set keeps_apply_transform_object
  keeps_transform_apply keeps_reset_parent_inverse keeps_apply_rotation
  keeps_fix_object : keeps.

Lemma bind_Ok_inv {A B} (m : M A) (k : A -> M B) w b w' :
  bind m k w = Ok b w' -> exists a w1, m w = Ok a w1 /\ k a w1 = Ok b w'.
Proof. unfold bind. destruct (m w) as [a w1|]; [eauto|discriminate]. Qed.

Lemma keeps_Ok {A} R (m : M A) w a w' : keeps R m -> m w = Ok a w' -> R w w'.
Proof. intros H E. specialize (H w). by rewrite E in H. Qed.

Lemma keeps_Raise {A} R (m : M A) w e w' : keeps R m -> m w = Raise e w' -> R w w'.
Proof. intros H E. specialize (H w). by rewrite E in H. Qed.

Lemma world_matrix_fmap_world (g : Object -> Matrix) fuel objs o :
  world_matrix fuel ((fun o => set_matrix_world (g o) o) <$> objs) (set_matrix_world (g o) o)
  = world_matrix fuel objs o.
Proof.
  revert o. induction fuel as [|fuel IH]; intros o; simpl.
  - by destruct (ob_parent o).
  - destruct (ob_parent o) as [p|]; [|done].
    rewrite lookup_fmap. destruct (objs !! p) as [po|]; simpl; [|done].
    by rewrite IH.
Qed.

Lemma update_world_matrices_idemp s :
  update_world_matrices (update_world_matrices s) = update_world_matrices s.
Proof.
  destruct s as [objs dbs lc act md]. unfold update_world_matrices, set_objects; simpl.
  f_equal. rewrite <- map_fmap_compose. apply map_fmap_ext. intros n o Hn. simpl.
  rewrite map_size_fmap.
  rewrite (world_matrix_fmap_world (world_matrix (size objs) objs)). done.
Qed.

Lemma restore_scene_spec w snapshot older :
  undo_stack w = update_world_matrices snapshot :: older ->
  exists w', restore_scene w = Ok tt w'
    /\ scene w' = update_world_matrices snapshot
    /\ stdout w' = stdout w
    /\ journal w' = journal w ++ [CallUndoPush ""; CallUndo; CallUndoPush "Export Unity FBX"].
Proof.
  intros Hst. destruct w; simpl in *. subst. eexists. split; [reflexivity|].
  simpl. rewrite !update_world_matrices_idemp. by rewrite <- !app_assoc.
Qed.

(** *** The other steps keep what the scene does not contain *)

Ltac keeps_untouched :=
  repeat first
    [ keeps_step
    | solve [eauto with keeps]
    | apply keeps_modify; intros ?; unfold same;
      first [apply untouched_scene | apply untouched_stdout | apply untouched_journal] ].

Section UntouchedKeeps.
Context {X} (proj : World -> X) `{!Untouched proj}.

Lemma keeps_any_update_object n f : keeps (same proj) (update_object n f).
Proof. unfold update_object. keeps_untouched. Qed.

Lemma keeps_any_record_call c : keeps (same proj) (record_call c).
Proof. unfold record_call. keeps_untouched. Qed.

#[local] Hint Resolve keeps_any_update_object keeps_any_record_call : keeps.

Lemma keeps_convert_object n : keeps (same proj) (convert_object n).
Proof. unfold convert_object. keeps_untouched. Qed.

#[local] Hint Resolve keeps_convert_object : keeps.

Lemma keeps_convert_to_mesh : keeps (same proj) convert_to_mesh.
Proof. unfold convert_to_mesh. apply keeps_bpy_ops; [apply _|]. keeps_untouched. Qed.

Lemma keeps_mode_set_object : keeps (same proj) mode_set_object.
Proof. unfold mode_set_object. apply keeps_bpy_ops; [apply _|]. keeps_untouched. Qed.

Lemma keeps_data_copy d : keeps (same proj) (data_copy d).
Proof. unfold data_copy. keeps_untouched. Qed.

Lemma keeps_export_scene_fbx fbx params : keeps (same proj) (export_scene_fbx fbx params).
Proof. unfold export_scene_fbx. apply keeps_bpy_ops; [apply _|]. keeps_untouched. Qed.

#[local] Hint Resolve keeps_convert_to_mesh : keeps.

Lemma keeps_apply_object_modifiers : keeps (same proj) apply_object_modifiers.
Proof. unfold apply_object_modifiers. keeps_untouched. Qed.

End UntouchedKeeps.

#[global] Hint Extern 1 (Untouched _) => typeclasses eauto : keeps.
#[global] Hint Resolve keeps_any_update_object keeps_any_record_call
  keeps_convert_object keeps_convert_to_mesh keeps_mode_set_object keeps_data_copy
  keeps_export_scene_fbx keeps_apply_object_modifiers : keeps.

(** Frames of the steps that touch the module globals. *)
Ltac keeps_field :=
  repeat first
    [ keeps_step
    | solve [eauto with keeps]
    | apply keeps_modify; intros ?; unfold same; reflexivity ].

Lemma keeps_undo_reset_globals : keeps (same undo_stack) reset_globals.
Proof. unfold reset_globals. keeps_field. Qed.

Lemma keeps_undo_unhide_all_collections : keeps (same undo_stack) unhide_all_collections.
Proof. unfold unhide_all_collections. keeps_field. Qed.

Lemma keeps_undo_unhide_objects : keeps (same undo_stack) unhide_objects.
Proof. unfold unhide_objects. keeps_field. Qed.

Lemma keeps_undo_make_single_user_data : keeps (same undo_stack) make_single_user_data.
Proof. unfold make_single_user_data. keeps_field. Qed.

#[global] Hint Resolve keeps_undo_reset_globals keeps_undo_unhide_all_collections
  keeps_undo_unhide_objects keeps_undo_make_single_user_data : keeps.

Lemma keeps_undo_protected_region fbx filepath kwargs roots selection :
  keeps (same undo_stack) (protected_region fbx filepath kwargs roots selection).
Proof. unfold protected_region. keeps_field. Qed.

Lemma preparation_snapshot w roots selection w1 :
  preparation w = Ok (roots, selection) w1 ->
  undo_stack w1 = update_world_matrices (scene w) :: undo_stack w.
Proof.
  unfold preparation. intros H.
  apply bind_Ok_inv in H as (? & wa & [= <-] & H1).
  apply bind_Ok_inv in H1 as (s & wb & [= <- <-] & H2).
  apply bind_Ok_inv in H2 as (? & wc & [= <-] & H3).
  eapply (keeps_Ok (same undo_stack)) in H3; [|keeps_field].
  unfold same in H3. rewrite H3. subst. reflexivity.
Qed.

(** C2.  Once the preparation has run, [export_unity_fbx] returns
    [FINISHED] whatever the protected region does, and leaves the scene of
    the undo step pushed at the start (the scene before the run, with its
    world matrices evaluated).  When the protected region raised [e], the
    only trace is on standard output, [e] and "File not saved.", after the
    three undo calls of the rollback. *)
Theorem export_failure_is_swallowed fbx filepath kwargs w roots selection w1 :
  kwargs !! "filepath" = None -> kwargs !! "context" = None ->
  preparation w = Ok (roots, selection) w1 ->
  exists w',
    export_unity_fbx fbx filepath kwargs w = Ok FINISHED w'
    /\ scene w' = update_world_matrices (scene w)
    /\ forall e w2,
         protected_region fbx filepath kwargs roots selection w1 = Raise e w2 ->
         stdout w' = stdout w2 ++ [OutExn e; OutText "File not saved."]
         /\ journal w' = journal w2 ++ [CallUndoPush ""; CallUndo; CallUndoPush "Export Unity FBX"].
Proof.
  intros Hf Hc Hprep. pose proof (preparation_snapshot _ _ _ _ Hprep) as Hsnap.
  unfold export_unity_fbx.
  rewrite bool_decide_eq_false_2
    by (rewrite Hf, Hc; intros [[? [=]]|[? [=]]]).
  unfold bind at 1. rewrite Hprep. unfold bind at 1, try_except, bind at 1.
  destruct (protected_region fbx filepath kwargs roots selection w1) as [[] w2|e w2] eqn:Hreg.
  - pose proof (keeps_Ok _ _ _ _ _ (keeps_undo_protected_region _ _ _ _ _) Hreg) as Hst.
    unfold same in Hst. rewrite Hsnap in Hst.
    destruct (restore_scene_spec _ _ _ Hst) as (w3 & Hr & Hsc & _).
    simpl. unfold bind at 1. rewrite Hr. eexists. split; [reflexivity|].
    split; [exact Hsc|]. intros ? ? [=].
  - pose proof (keeps_Raise _ _ _ _ _ (keeps_undo_protected_region _ _ _ _ _) Hreg) as Hst.
    unfold same in Hst. rewrite Hsnap in Hst.
    destruct (restore_scene_spec _ _ _ Hst) as (w3 & Hr & Hsc & Hout & Hj).
    unfold on_exception, bind at 1, bind at 1. rewrite Hr.
    eexists. split; [reflexivity|]. simpl.
    split; [exact Hsc|]. intros ? ? [= <- <-]. rewrite Hout, Hj.
    by rewrite <- app_assoc.
Qed.

Lemma export_failure_is_swallowed_witness :
  exists w',
    export_unity_fbx Samples.fbx_fails "out.fbx" ∅ (Samples.world_with Samples.single_root)
      = Ok FINISHED w'
    /\ scene w' = update_world_matrices Samples.single_root
    /\ exists out, stdout w' = out ++ [OutExn (RuntimeError "cannot write file");
                                        OutText "File not saved."].
Proof.
  destruct (preparation (Samples.world_with Samples.single_root))
    as [[roots selection] w1|e w1] eqn:Hprep;
    [|exfalso; vm_compute in Hprep; discriminate Hprep].
  destruct (export_failure_is_swallowed Samples.fbx_fails "out.fbx" ∅
              (Samples.world_with Samples.single_root) roots selection w1)
    as (w' & Hrun & Hscene & Hfail); [reflexivity|reflexivity|exact Hprep|].
  exists w'. split; [exact Hrun|]. split; [exact Hscene|].
  destruct (protected_region Samples.fbx_fails "out.fbx" ∅ roots selection w1)
    as [u w2|e w2] eqn:Hreg.
  - exfalso. revert Hreg. vm_compute in Hprep. injection Hprep as <- <- <-.
    vm_compute. discriminate.
  - destruct (Hfail e w2 eq_refl) as [Hout _]. exists (stdout w2).
    rewrite Hout. repeat f_equal.
    revert Hreg. vm_compute in Hprep. injection Hprep as <- <- <-.
    vm_compute. by intros [= <- _].
Defined.

(** ** The parameters handed to the serializer *)

Ltac keeps_exports :=
  repeat first
    [ keeps_step
    | solve [eauto with keeps]
    | apply keeps_modify; intros ?; apply exports_satisfy_same_journal; reflexivity ].

Section ExportCalls.
Context (P : Params -> Scene -> Prop).

Lemma exports_update_object n f : keeps (exports_satisfy P) (update_object n f).
Proof. unfold update_object. keeps_exports. Qed.

#[local] Hint Resolve exports_update_object : keeps.

Lemma exports_convert_object n : keeps (exports_satisfy P) (convert_object n).
Proof. unfold convert_object. keeps_exports. Qed.

#[local] Hint Resolve exports_convert_object : keeps.

Lemma exports_convert_to_mesh : keeps (exports_satisfy P) convert_to_mesh.
Proof. unfold convert_to_mesh. apply keeps_bpy_ops; [apply _|]. keeps_exports. Qed.

Lemma exports_mode_set_object : keeps (exports_satisfy P) mode_set_object.
Proof. unfold mode_set_object. apply keeps_bpy_ops; [apply _|]. keeps_exports. Qed.

Lemma exports_data_copy d : keeps (exports_satisfy P) (data_copy d).
Proof. unfold data_copy. keeps_exports. Qed.

Lemma exports_undo_push msg : keeps (exports_satisfy P) (undo_push msg).
Proof. unfold undo_push. apply keeps_bpy_ops; [apply _|]. keeps_exports. Qed.

Lemma exports_undo : keeps (exports_satisfy P) undo.
Proof.
  unfold undo. apply keeps_bpy_ops; [apply _|]. keeps_exports.
  apply keeps_modify. intros w. apply exports_satisfy_same_journal.
  by destruct (undo_stack w) as [|? [|? ?]].
Qed.

#[local] Hint Resolve exports_convert_to_mesh exports_mode_set_object exports_data_copy
  exports_undo_push exports_undo : keeps.

Lemma exports_restore_scene : keeps (exports_satisfy P) restore_scene.
Proof. unfold restore_scene. keeps_exports. Qed.

Lemma exports_preparation : keeps (exports_satisfy P) preparation.
Proof.
  unfold preparation, reset_globals, unhide_all_collections, unhide_objects,
    make_single_user_data, apply_object_modifiers.
  keeps_exports.
Qed.

Lemma exports_export_scene_fbx fbx params :
  (forall sc, P params sc) -> keeps (exports_satisfy P) (export_scene_fbx fbx params).
Proof.
  intros HP. unfold export_scene_fbx. apply keeps_bpy_ops; [apply _|].
  keeps_exports. unfold record_call. apply keeps_modify. intros w.
  exists [CallExportFbx params a]. split; [done|].
  intros p sc Hin%list_elem_of_singleton. injection Hin as -> ->. apply HP.
Qed.

End ExportCalls.

Lemma exports_export_unity_fbx fbx filepath kwargs :
  keeps (exports_satisfy (fun p _ => p = build_params filepath kwargs))
        (export_unity_fbx fbx filepath kwargs).
Proof.
  pose proof exports_restore_scene. pose proof exports_preparation.
  pose proof exports_update_object.
  unfold export_unity_fbx, protected_region, on_exception.
  keeps_exports. by apply exports_export_scene_fbx.
Qed.

Lemma calls_since_exports P w w' c :
  exports_satisfy P w w' -> c ∈ calls_since w w' ->
  match c with CallExportFbx p sc => P p sc | _ => True end.
Proof.
  intros (l & Hl & HP) Hc. unfold calls_since in Hc. rewrite Hl, drop_app_length in Hc.
  destruct c; try done. by apply HP.
Qed.

(** C8.  The parameter set starts from the destination path and the one
    default [apply_scale_options='FBX_SCALE_UNITS'], every option of the
    caller is laid over it and wins, and the serializer is called with
    nothing else. *)
Theorem export_params_overlay fbx filepath kwargs w :
  let params := build_params filepath kwargs in
  (forall k, default_params filepath !! k =
     if decide (k = "apply_scale_options") then Some (PyStr "FBX_SCALE_UNITS")
     else if decide (k = "filepath") then Some (PyStr filepath) else None)
  /\ (forall k v, kwargs !! k = Some v -> params !! k = Some v)
  /\ (forall k, kwargs !! k = None -> params !! k = default_params filepath !! k)
  /\ (forall p sc,
        CallExportFbx p sc ∈ calls_since w (world_of (export_unity_fbx fbx filepath kwargs w)) ->
        p = params).
Proof.
  intros params. repeat split.
  - intros k. unfold default_params.
    destruct (decide (k = "apply_scale_options")) as [->|Hk]; [by rewrite lookup_insert_eq|].
    rewrite lookup_insert_ne by done.
    destruct (decide (k = "filepath")) as [->|Hk']; [by rewrite lookup_insert_eq|].
    by rewrite lookup_insert_ne.
  - intros k v Hk. unfold params, build_params, dict_update.
    by apply lookup_union_Some_l.
  - intros k Hk. unfold params, build_params, dict_update.
    by rewrite lookup_union_r.
  - intros p sc Hin.
    exact (calls_since_exports _ _ _ _ (exports_export_unity_fbx fbx filepath kwargs w) Hin).
Qed.

Lemma export_params_overlay_witness :
  build_params "out.fbx" Samples.kwargs_scale_none !! "apply_scale_options"
    = Some (PyStr "FBX_SCALE_NONE")
  /\ build_params "out.fbx" Samples.kwargs_scale_none !! "filepath" = Some (PyStr "out.fbx")
  /\ exists sc,
       CallExportFbx (build_params "out.fbx" Samples.kwargs_scale_none) sc
         ∈ calls_since (Samples.world_with Samples.single_root)
             (world_of (export_unity_fbx Samples.fbx_writes "out.fbx"
                          Samples.kwargs_scale_none (Samples.world_with Samples.single_root))).
Proof.
  destruct (export_params_overlay Samples.fbx_writes "out.fbx" Samples.kwargs_scale_none
              (Samples.world_with Samples.single_root)) as (Hd & Hk & Hn & Hc).
  split; [apply Hk; reflexivity|].
  split; [rewrite Hn by reflexivity; rewrite Hd; reflexivity|].
  set (calls := calls_since _ _) in *.
  assert (He : existsb (fun c => match c with CallExportFbx _ _ => true | _ => false end)
                 calls = true) by (vm_compute; reflexivity).
  apply existsb_exists in He as ([| | | | | |p sc] & Hin & Hc'); try discriminate Hc'.
  apply list_elem_of_In in Hin. exists sc. by rewrite <- (Hc p sc Hin).
Defined.

(** ** The enumeration of the objects *)

Lemma object_names_dom (objs objs' : gmap string Object) :
  (forall n, is_Some (objs !! n) <-> is_Some (objs' !! n)) ->
  object_names objs = object_names objs'.
Proof.
  intros H. unfold object_names.
  assert (E : forall m : gmap string Object,
             (map_to_list m).*1 = (map_to_list ((fun _ => ()) <$> m)).*1).
  { intros m. rewrite map_to_list_fmap, <- list_fmap_compose.
    apply list_fmap_ext. by intros ? []. }
  rewrite (E objs), (E objs'). do 2 f_equal. apply map_eq. intros n.
  rewrite !lookup_fmap. specialize (H n).
  destruct (objs !! n), (objs' !! n); simpl; try done.
  - destruct H as [H _]. by destruct H.
  - destruct H as [_ H]. by destruct H.
Qed.

Lemma object_names_alter f n (objs : gmap string Object) :
  object_names (alter f n objs) = object_names objs.
Proof.
  apply object_names_dom. intros m. by rewrite lookup_alter_is_Some.
Qed.

Lemma object_names_fmap (f : Object -> Object) (objs : gmap string Object) :
  object_names (f <$> objs) = object_names objs.
Proof.
  apply object_names_dom. intros m. rewrite lookup_fmap. by rewrite fmap_is_Some.
Qed.

Lemma elem_of_object_names n (objs : gmap string Object) :
  n ∈ object_names objs <-> is_Some (objs !! n).
Proof.
  unfold object_names. rewrite list_elem_of_fmap. split.
  - intros ([m o] & -> & Hin). apply elem_of_map_to_list in Hin. by exists o.
  - intros [o Ho]. exists (n, o). split; [done|]. by apply elem_of_map_to_list.
Qed.

Lemma NoDup_object_names (objs : gmap string Object) : NoDup (object_names objs).
Proof. apply NoDup_fst_map_to_list. Qed.

Lemma filter_none {A} (P : A -> Prop) `{!forall x, Decision (P x)} (l : list A) :
  (forall y, y ∈ l -> ~ P y) -> filter P l = [].
Proof.
  induction l as [|a l IH]; intros Hl; [done|].
  rewrite filter_cons_False by (apply Hl; left). apply IH. intros y Hy. apply Hl. by right.
Qed.

Lemma filter_only {A} (P : A -> Prop) `{!forall x, Decision (P x)} (l : list A) x :
  NoDup l -> x ∈ l -> (forall y, y ∈ l -> P y <-> y = x) -> filter P l = [x].
Proof.
  intros Hnd Hx HP. induction l as [|a l IH]; [by apply elem_of_nil in Hx|].
  apply NoDup_cons in Hnd as [Ha Hnd].
  destruct (decide (P a)) as [Hpa|Hpa].
  - assert (a = x) as -> by (apply HP; [left|done]).
    rewrite filter_cons_True by done. f_equal.
    apply filter_none. intros y Hy Hp. apply HP in Hp; [|by right]. by subst y.
  - assert (Hne : a <> x) by (intros ->; apply Hpa, HP; [left|done]).
    rewrite filter_cons_False by done.
    apply IH; [done| |].
    + apply elem_of_cons in Hx as [->|Hx]; done.
    + intros y Hy. apply HP. by right.
Qed.

(** ** Selection and the bake *)

Lemma select_all_deselect_run w :
  select_all_deselect w
  = Ok tt (with_scene update_world_matrices
            (with_scene (set_objects (fmap (fun o =>
                           if in_view_layer o then set_select false o else o)))
               (with_journal (fun l => l ++ [CallSelectAllDeselect])
                  (with_scene update_world_matrices w)))).
Proof. reflexivity. Qed.

Lemma select_set_run n w o :
  objects (scene w) !! n = Some o -> in_view_layer o = true ->
  select_set n true w = Ok tt (with_scene (set_objects (alter (set_select true) n)) w).
Proof.
  intros Hn Hv. unfold select_set, bind, get_object. by rewrite Hn, Hv.
Qed.

(** After [select_all(action='DESELECT')] and [ob.select_set(True)], and
    after any evaluation of the world matrices, the selection is [ob]. *)
Lemma selected_after_select n (objs : gmap string Object) o (g : Object -> Object) :
  objs !! n = Some o -> in_view_layer o = true ->
  (forall o, in_view_layer (g o) = in_view_layer o /\ ob_select (g o) = ob_select o) ->
  selected_objects
    (g <$> alter (set_select true) n
             ((fun o => if in_view_layer o then set_select false o else o) <$> objs))
  = [n].
Proof.
  intros Hn Hv Hg. unfold selected_objects.
  rewrite object_names_fmap, object_names_alter, object_names_fmap.
  apply filter_only.
  - apply NoDup_object_names.
  - apply elem_of_object_names. eauto.
  - intros m Hm. unfold is_selected. rewrite lookup_fmap.
    destruct (decide (n = m)) as [->|Hne].
    + rewrite lookup_alter_eq, lookup_fmap, Hn. simpl.
      destruct (Hg (set_select true (if in_view_layer o then set_select false o else o)))
        as [-> ->].
      rewrite Hv. simpl. by rewrite Hv.
    + rewrite lookup_alter_ne, lookup_fmap by done.
      destruct (objs !! m) as [om|]; simpl; [|done].
      destruct (Hg (if in_view_layer om then set_select false om else om)) as [-> ->].
      destruct (in_view_layer om) eqn:E; simpl; rewrite ?E; simpl; split; done.
Qed.

Lemma selected_only n (objs : gmap string Object) :
  is_Some (objs !! n) ->
  (forall m om, objs !! m = Some om -> in_view_layer om && ob_select om = true <-> m = n) ->
  selected_objects objs = [n].
Proof.
  intros Hn H. unfold selected_objects. apply filter_only.
  - apply NoDup_object_names.
  - by apply elem_of_object_names.
  - intros m [om Hm]%elem_of_object_names. unfold is_selected. rewrite Hm. by apply H.
Qed.

Lemma lookup_update_world_matrices s m :
  objects (update_world_matrices s) !! m
  = (fun o => set_matrix_world (world_matrix (size (objects s)) (objects s) o) o)
      <$> objects s !! m.
Proof. destruct s. unfold update_world_matrices. simpl. by rewrite lookup_fmap. Qed.

(** What an evaluation of the world matrices leaves as it is. *)
Lemma lookup_update_proj {X} (f : Object -> X) s m :
  (forall x o, f (set_matrix_world x o) = f o) ->
  f <$> objects (update_world_matrices s) !! m = f <$> objects s !! m.
Proof.
  intros Hf. rewrite lookup_update_world_matrices.
  destruct (objects s !! m); simpl; [|done]. by rewrite Hf.
Qed.

Lemma objects_set_objects f s : objects (set_objects f s) = f (objects s).
Proof. by destruct s. Qed.

Lemma scene_with_scene f w : scene (with_scene f w) = f (scene w).
Proof. by destruct w. Qed.

Lemma scene_with_journal f w : scene (with_journal f w) = scene w.
Proof. by destruct w. Qed.

Lemma scene_with_stdout f w : scene (with_stdout f w) = scene w.
Proof. by destruct w. Qed.

Lemma journal_with_scene f w : journal (with_scene f w) = journal w.
Proof. by destruct w. Qed.

Lemma journal_with_journal f w : journal (with_journal f w) = f (journal w).
Proof. by destruct w. Qed.

Lemma in_view_layer_selected_world n w m :
  in_view_layer <$> objects (update_world_matrices (scene (selected_world n w))) !! m
  = in_view_layer <$> objects (scene w) !! m.
Proof.
  unfold selected_world.
  rewrite lookup_update_proj, !scene_with_scene, objects_set_objects by done.
  assert (E : in_view_layer <$> alter (set_select true) n
                (objects (update_world_matrices (set_objects (fmap (fun o =>
                      if in_view_layer o then set_select false o else o))
                   (scene (with_journal (fun l => l ++ [CallSelectAllDeselect])
                       (with_scene update_world_matrices w)))))) !! m
              = in_view_layer <$> objects (update_world_matrices (set_objects (fmap (fun o =>
                      if in_view_layer o then set_select false o else o))
                   (scene (with_journal (fun l => l ++ [CallSelectAllDeselect])
                       (with_scene update_world_matrices w))))) !! m).
  { destruct (decide (n = m)) as [->|Hne].
    - rewrite lookup_alter_eq. by destruct (_ !! m).
    - by rewrite lookup_alter_ne. }
  rewrite E. clear E.
  rewrite lookup_update_proj, objects_set_objects, lookup_fmap by done.
  rewrite scene_with_journal, scene_with_scene.
  rewrite <- (lookup_update_proj in_view_layer (scene w) m) by done.
  destruct (objects (update_world_matrices (scene w)) !! m) as [o|]; simpl; [|done].
  by destruct (in_view_layer o) eqn:E; simpl; rewrite ?E.
Qed.

Lemma ob_select_selected_world n w m o :
  objects (scene w) !! m = Some o ->
  ob_select <$> objects (update_world_matrices (scene (selected_world n w))) !! m
  = Some (if decide (n = m) then true else if in_view_layer o then false else ob_select o).
Proof.
  intros Hm. unfold selected_world.
  rewrite lookup_update_proj, !scene_with_scene, objects_set_objects by done.
  pose proof (lookup_update_proj in_view_layer (scene w) m (fun _ _ => eq_refl)) as Hv.
  pose proof (lookup_update_proj ob_select (scene w) m (fun _ _ => eq_refl)) as Hs.
  rewrite Hm in Hv, Hs.
  assert (E : ob_select <$> objects (update_world_matrices (set_objects (fmap (fun o =>
                      if in_view_layer o then set_select false o else o))
                   (scene (with_journal (fun l => l ++ [CallSelectAllDeselect])
                       (with_scene update_world_matrices w))))) !! m
              = Some (if in_view_layer o then false else ob_select o)).
  { rewrite lookup_update_proj, objects_set_objects, lookup_fmap by done.
    rewrite scene_with_journal, scene_with_scene.
    destruct (objects (update_world_matrices (scene w)) !! m) as [o'|]; simpl in *;
      [|discriminate Hv].
    injection Hv as Hv. injection Hs as Hs. rewrite <- Hv, <- Hs.
    by destruct (in_view_layer o') eqn:E; simpl; rewrite ?E. }
  destruct (decide (n = m)) as [->|Hne].
  - rewrite lookup_alter_eq. apply fmap_Some in E as (x & -> & _). done.
  - by rewrite lookup_alter_ne.
Qed.

Lemma selected_in_selected_world n w ob :
  objects (scene w) !! n = Some ob -> in_view_layer ob = true ->
  selected_objects (objects (update_world_matrices (scene (selected_world n w)))) = [n].
Proof.
  intros Hn Hv. apply selected_only.
  - apply (fmap_is_Some in_view_layer). rewrite in_view_layer_selected_world, Hn. by eexists.
  - intros m om Hm.
    pose proof (in_view_layer_selected_world n w m) as Hv'. rewrite Hm in Hv'. simpl in Hv'.
    destruct (objects (scene w) !! m) as [o|] eqn:Ho; [|discriminate].
    pose proof (ob_select_selected_world n w m o Ho) as Hs. rewrite Hm in Hs. simpl in *.
    injection Hv' as ->. injection Hs as ->.
    destruct (decide (n = m)) as [->|Hne].
    + rewrite Hn in Ho. injection Ho as <-. by rewrite Hv.
    + destruct (in_view_layer o); simpl; split; done.
Qed.

Lemma proj_selected_world {X} (f : Object -> X) n w m :
  (forall x o, f (set_matrix_world x o) = f o) ->
  (forall b o, f (set_select b o) = f o) ->
  f <$> objects (update_world_matrices (scene (selected_world n w))) !! m
  = f <$> objects (scene w) !! m.
Proof.
  intros Hw Hs. unfold selected_world.
  rewrite lookup_update_proj, !scene_with_scene, objects_set_objects by done.
  rewrite <- (lookup_update_proj f (scene w) m) by done.
  rewrite scene_with_journal, scene_with_scene.
  set (s1 := update_world_matrices (scene w)).
  assert (E : forall objs : gmap string Object,
            f <$> alter (set_select true) n objs !! m = f <$> objs !! m).
  { intros objs. destruct (decide (n = m)) as [->|Hne].
    - rewrite lookup_alter_eq. destruct (objs !! m); simpl; [|done]. by rewrite Hs.
    - by rewrite lookup_alter_ne. }
  rewrite E, lookup_update_proj, objects_set_objects, lookup_fmap by done.
  destruct (objects s1 !! m) as [o|]; simpl; [|done].
  destruct (in_view_layer o); [|done]. by rewrite Hs.
Qed.

Lemma keeps_for_each_in R `{!PreOrder R} {A} (l : list A) body :
  (forall x, x ∈ l -> keeps R (body x)) -> keeps R (for_each l body).
Proof.
  intros H. induction l as [|x l IH]; simpl; [by apply keeps_ret|].
  apply keeps_bind; [done|apply H; left|intros _; apply IH].
  intros y Hy. apply H. by right.
Qed.

Lemma apply_rotation_run n w ob :
  objects (scene w) !! n = Some ob -> in_view_layer ob = true ->
  apply_rotation n w = transform_apply false true false (selected_world n w).
Proof.
  intros Hn Hv. unfold apply_rotation, bind at 1. rewrite select_all_deselect_run.
  unfold bind at 1.
  set (w1 := with_scene update_world_matrices _).
  assert (exists o1, objects (scene w1) !! n = Some o1 /\ in_view_layer o1 = true)
    as (o1 & Ho1 & Hv1).
  { pose proof (lookup_update_proj in_view_layer
                  (set_objects (fmap (fun o =>
                      if in_view_layer o then set_select false o else o))
                     (update_world_matrices (scene w))) n (fun _ _ => eq_refl)) as E.
    rewrite objects_set_objects, lookup_fmap in E.
    pose proof (lookup_update_proj in_view_layer (scene w) n (fun _ _ => eq_refl)) as E'.
    rewrite Hn in E'. apply fmap_Some in E' as (o' & Ho' & Hv'). simpl in Hv'.
    rewrite Ho' in E.
    assert (E2 : objects (scene w1) !! n
       = objects (update_world_matrices (set_objects (fmap (fun o =>
                      if in_view_layer o then set_select false o else o))
                     (update_world_matrices (scene w)))) !! n).
    { unfold w1. by rewrite !scene_with_scene, scene_with_journal, scene_with_scene. }
    rewrite <- E2 in E. apply fmap_Some in E as (o1 & Ho1 & Hv1). exists o1. split; [done|].
    simpl in Hv1. rewrite <- Hv1. destruct (in_view_layer o') eqn:E3; simpl; congruence. }
  by rewrite (select_set_run n w1 o1 Ho1 Hv1).
Qed.

Lemma basis_at_alter_ne n c f w :
  c <> n -> basis_at n (with_scene (set_objects (alter f c)) w) = basis_at n w.
Proof.
  intros Hne. unfold basis_at. by rewrite scene_with_scene, objects_set_objects, lookup_alter_ne.
Qed.

Lemma children_of_parent objs n c :
  c ∈ children_of objs n -> exists oc, objs !! c = Some oc /\ ob_parent oc = Some n.
Proof.
  unfold children_of. intros [Hp _]%list_elem_of_filter.
  destruct (objs !! c) as [oc|]; [|done]. eauto.
Qed.

Lemma apply_transform_object_basis l r s n w o loc rot scl w' :
  objects (scene w) !! n = Some o -> ob_parent o <> Some n ->
  decompose (matrix_basis o) = Some (loc, rot, scl) ->
  apply_transform_object l r s n w = Ok tt w' ->
  basis_at n w' = Some (mmul (mmul (kept l loc) (kept r rot)) (kept s scl)).
Proof.
  intros Hn Hp Hdec. unfold apply_transform_object, bind at 1, get_object. rewrite Hn, Hdec.
  intros H.
  apply bind_Ok_inv in H as (? & w1 & H1 & H).
  assert (Hw1 : objects (scene w1) = objects (scene w)).
  { destruct (ob_data o); simpl in H1; injection H1 as _ <-; [|done].
    by destruct w as [[]]. }
  apply bind_Ok_inv in H as (world' & w2 & H2 & H).
  assert (Hw2 : w2 = w1).
  { destruct (ob_parent o); [|by injection H2].
    apply bind_Ok_inv in H2 as (? & ? & H2 & H2'). injection H2' as _ <-.
    unfold get_object in H2.
    destruct (objects (scene w1) !! _); [by injection H2|discriminate H2]. }
  subst w2.
  apply bind_Ok_inv in H as (? & w3 & H3 & H).
  cbv [update_object modify] in H3. injection H3 as ? <-.
  apply bind_Ok_inv in H as (s3 & w4 & H4 & H).
  cbv [gets] in H4. injection H4 as <- <-.
  eapply (keeps_Ok (same (basis_at n))) in H.
  - unfold same in H. rewrite H. unfold basis_at.
    rewrite scene_with_scene, objects_set_objects, lookup_alter_eq, Hw1, Hn. done.
  - apply keeps_for_each_in; [apply _|]. intros c Hc. apply keeps_modify. intros wx.
    unfold same. apply basis_at_alter_ne. intros ->.
    apply children_of_parent in Hc as (oc & Hoc & Hpc).
    rewrite ?scene_with_scene, ?objects_set_objects, lookup_alter_eq, Hw1, Hn in Hoc.
    injection Hoc as <-. simpl in Hpc. done.
Qed.

Lemma keeps_journal_apply_transform_object l r s n :
  keeps (same journal) (apply_transform_object l r s n).
Proof.
  unfold apply_transform_object, update_object.
  repeat first [keeps_step | apply keeps_modify; intros ?; unfold same; reflexivity].
Qed.

Lemma transform_apply_run l r s w :
  transform_apply l r s w
  = let w1 := with_scene update_world_matrices w in
    let sel := selected_objects (objects (scene w1)) in
    let w2 := with_journal (fun j => j ++ [CallTransformApply sel l r s]) w1 in
    if existsb (multi_user (scene w1)) sel
    then Raise (RuntimeError "Cannot apply to a multi user, aborting") w2
    else match for_each sel (apply_transform_object l r s) w2 with
         | Ok _ w' => Ok tt (with_scene update_world_matrices w')
         | Raise e w' => Raise e w'
         end.
Proof.
  unfold transform_apply, bpy_ops, bind, view_layer_update, modify, gets, record_call.
  simpl. destruct (existsb _ _); [done|]. by destruct (for_each _ _ _).
Qed.

Lemma transform_apply_journal l r s w :
  journal (world_of (transform_apply l r s w))
  = journal w ++ [CallTransformApply
                    (selected_objects (objects (update_world_matrices (scene w)))) l r s].
Proof.
  rewrite transform_apply_run. cbv zeta. rewrite scene_with_scene.
  set (sel := selected_objects _).
  set (w2 := with_journal _ _).
  assert (Hj : journal w2 = journal w ++ [CallTransformApply sel l r s]).
  { unfold w2. by rewrite journal_with_journal, journal_with_scene. }
  rewrite <- Hj.
  destruct (existsb _ sel); [done|].
  pose proof (keeps_for_each (same journal) sel
                (apply_transform_object l r s)
                (keeps_journal_apply_transform_object l r s) w2) as Hk.
  unfold same in Hk.
  destruct (for_each sel (apply_transform_object l r s) w2) as [[] w3|e w3]; simpl in *;
    done.
Qed.

Lemma transform_apply_one l r s n w w' :
  selected_objects (objects (update_world_matrices (scene w))) = [n] ->
  transform_apply l r s w = Ok tt w' ->
  exists w4,
    apply_transform_object l r s n
      (with_journal (fun j => j ++ [CallTransformApply [n] l r s])
         (with_scene update_world_matrices w)) = Ok tt w4
    /\ w' = with_scene update_world_matrices w4.
Proof.
  intros Hsel. rewrite transform_apply_run. cbv zeta. rewrite scene_with_scene, Hsel.
  destruct (existsb _ _); [discriminate|]. simpl. unfold bind.
  destruct (apply_transform_object l r s n _) as [[] w4|]; [|discriminate].
  simpl. intros [= <-]. eauto.
Qed.

Section Sqrt.
Local Open Scope Qc_scope.

Lemma sqrt_exact_square q x : sqrt_exact q = Some x -> x * x = q.
Proof.
  unfold sqrt_exact. destruct q as [[n d] Hc]. cbn [this Qnum Qden].
  set (rn := Z.sqrt n). set (rd := Z.sqrt (Z.pos d)).
  destruct (_ && _)%bool eqn:E; [|discriminate]. intros [= <-].
  apply andb_true_iff in E as [[E1 E2]%andb_true_iff E3].
  apply Z.eqb_eq in E1, E2. apply Z.ltb_lt in E3.
  apply Qc_is_canon. cbn [this Qcmult Q2Qc]. rewrite !Qred_correct.
  unfold Qeq, Qmult. cbn [Qnum Qden].
  change (Z.pos (Pos.sqrt d * Pos.sqrt d)) with (rd * rd)%Z.
  by rewrite E1, E2.
Qed.

Lemma decompose_rotation_only m loc rot scl :
  decompose m = Some (loc, rot, scl) ->
  let basis' := mmul (mmul (kept false loc) (kept true rot)) (kept false scl) in
  translation_of basis' = translation_of m
  /\ col0_norm2 basis' = col0_norm2 m
  /\ col1_norm2 basis' = col1_norm2 m
  /\ col2_norm2 basis' = col2_norm2 m.
Proof.
  unfold decompose.
  destruct (sqrt_exact (col0_norm2 m)) as [x|] eqn:Hx; [|discriminate].
  destruct (sqrt_exact (col1_norm2 m)) as [y|] eqn:Hy; [|discriminate].
  destruct (sqrt_exact (col2_norm2 m)) as [z|] eqn:Hz; [|discriminate].
  apply sqrt_exact_square in Hx, Hy, Hz.
  destruct (decide _); [discriminate|]. destruct (decide _); [|discriminate].
  rewrite <- Hx, <- Hy, <- Hz.
  destruct (decide _); intros [= <- <- <-]; simpl;
    unfold translation_of, col0_norm2, col1_norm2, col2_norm2, mmul, identity, diag3; simpl;
    repeat split; try (f_equal; ring); ring.
Qed.

End Sqrt.


(** ** Step 1 of the rewriter: the parent-inverse matrix *)

Lemma with_scene_compose f g w :
  with_scene g (with_scene f w) = with_scene (fun s => g (f s)) w.
Proof. by destruct w. Qed.

Lemma set_objects_compose f g s :
  set_objects g (set_objects f s) = set_objects (fun o => g (f o)) s.
Proof. by destruct s. Qed.




(** ** Loops *)

(** A loop whose steps succeed under an invariant succeeds. *)
Lemma for_each_ok {A} (I : World -> Prop) (l : list A) body w :
  (forall x w, x ∈ l -> I w -> exists w', body x w = Ok tt w' /\ I w') ->
  I w -> exists w', for_each l body w = Ok tt w' /\ I w'.
Proof.
  revert w. induction l as [|x l IH]; intros w Hbody Hw; simpl; [by eexists|].
  destruct (Hbody x w) as (w1 & Hx & Hw1); [left|done|].
  unfold bind. rewrite Hx. apply IH; [|done].
  intros y w2 Hy. apply Hbody. by right.
Qed.

(** What a loop does to a component that only the step for [x] touches. *)
Lemma for_each_at {A X} (proj : World -> X) (Q : X -> X -> Prop) (l : list A) body x :
  NoDup l -> x ∈ l ->
  (forall y, y ∈ l -> y <> x -> keeps (same proj) (body y)) ->
  (forall w w', body x w = Ok tt w' -> Q (proj w) (proj w')) ->
  forall w w', for_each l body w = Ok tt w' -> Q (proj w) (proj w').
Proof.
  intros Hnd Hx Hother Hstep. induction l as [|a l IH]; [by apply elem_of_nil in Hx|].
  apply NoDup_cons in Hnd as [Ha Hnd]. intros w w' Hrun. simpl in Hrun.
  apply bind_Ok_inv in Hrun as ([] & w1 & Ha1 & Hrest).
  apply elem_of_cons in Hx as [->|Hx].
  - assert (Hk : keeps (same proj) (for_each l body)).
    { apply keeps_for_each_in; [apply _|]. intros y Hy. apply Hother; [by right|].
      by intros ->. }
    apply (keeps_Ok _ _ _ _ _ Hk) in Hrest. unfold same in Hrest. rewrite Hrest.
    by apply Hstep.
  - assert (Hne : a <> x) by (by intros ->).
    pose proof (keeps_Ok _ _ _ _ _ (Hother a ltac:(left) Hne) Ha1) as Hk.
    unfold same in Hk. rewrite <- Hk. apply IH; try done.
    intros y Hy. apply Hother. by right.
Qed.

(** ** The modifier baker *)

Lemma bypass_modifiers_fold (mods : list Modifier) b :
  foldl (fun bypass m => if decide (mod_type m = MOD_ARMATURE) then true else bypass) b mods
  = b || existsb (fun m => bool_decide (mod_type m = MOD_ARMATURE)) mods.
Proof.
  revert b. induction mods as [|m mods IH]; intros b; simpl; [by rewrite orb_false_r|].
  rewrite IH. destruct (decide (mod_type m = MOD_ARMATURE)) as [E|E].
  - rewrite (bool_decide_eq_true_2 _ E). simpl. by rewrite orb_true_r.
  - by rewrite (bool_decide_eq_false_2 _ E).
Qed.

Lemma select_step_run n w o :
  objects (scene w) !! n = Some o ->
  select_step n w
  = Ok tt (if bakeable o then with_scene (set_objects (alter (set_select true) n)) w else w).
Proof.
  intros Hn. unfold select_step, bind at 1, get_object. rewrite Hn.
  rewrite bypass_modifiers_fold. unfold bakeable, has_armature_modifier. simpl.
  destruct (in_view_layer o) eqn:Hv; simpl; [|done].
  destruct (existsb _ _); simpl; [done|].
  by apply select_set_run with o.
Qed.

Lemma with_objects_same w : with_scene (set_objects (fun _ => objects (scene w))) w = w.
Proof. by destruct w as [[]]. Qed.

Lemma with_objects_twice f objs w :
  with_scene (set_objects (fun _ => objs)) (with_scene (set_objects f) w)
  = with_scene (set_objects (fun _ => objs)) w.
Proof. by destruct w as [[]]. Qed.

Lemma select_loop l w :
  NoDup l -> (forall n, n ∈ l -> is_Some (objects (scene w) !! n)) ->
  exists objs',
    for_each l select_step w = Ok tt (with_scene (set_objects (fun _ => objs')) w)
    /\ forall m, objs' !! m
         = (fun o => if bool_decide (m ∈ l) && bakeable o then set_select true o else o)
             <$> objects (scene w) !! m.
Proof.
  revert w. induction l as [|n l IH]; intros w Hnd Hdom.
  - exists (objects (scene w)). rewrite with_objects_same. split; [done|].
    intros m. destruct (_ !! m); [|done]. cbn [fmap option_fmap option_map].
    by rewrite bool_decide_eq_false_2 by apply not_elem_of_nil.
  - apply NoDup_cons in Hnd as [Hn Hnd].
    destruct (Hdom n) as [o Ho]; [left|].
    simpl. unfold bind. rewrite (select_step_run n w o Ho).
    set (w1 := if bakeable o then _ else w).
    assert (Hw1 : forall m, objects (scene w1) !! m
              = (fun o => if bool_decide (m = n) && bakeable o then set_select true o else o)
                  <$> objects (scene w) !! m).
    { intros m. unfold w1. destruct (bakeable o) eqn:Hb.
      - rewrite scene_with_scene, objects_set_objects.
        destruct (decide (m = n)) as [->|Hne].
        + rewrite lookup_alter_eq, Ho. simpl. by rewrite bool_decide_eq_true_2, Hb.
        + rewrite lookup_alter_ne by done. destruct (_ !! m); simpl; [|done].
          by rewrite bool_decide_eq_false_2.
      - destruct (decide (m = n)) as [->|Hne].
        + rewrite Ho. simpl. by rewrite Hb, andb_false_r.
        + destruct (_ !! m); simpl; [|done]. by rewrite bool_decide_eq_false_2. }
    destruct (IH w1 Hnd) as (objs' & Hrun & Hobjs').
    { intros m Hm. rewrite Hw1. apply fmap_is_Some, Hdom. by right. }
    exists objs'. split.
    + rewrite Hrun. unfold w1. destruct (bakeable o); [|done]. by rewrite with_objects_twice.
    + intros m. rewrite Hobjs', Hw1.
      destruct (objects (scene w) !! m) as [om|]; [|done].
      cbn [fmap option_fmap option_map]. f_equal.
      destruct (decide (m = n)) as [->|Hne].
      * rewrite (bool_decide_eq_true_2 (n = n)) by done.
        rewrite (bool_decide_eq_false_2 (n ∈ l)) by done.
        rewrite (bool_decide_eq_true_2 (n ∈ n :: l)) by left.
        cbn [andb]. by destruct (bakeable om).
      * rewrite (bool_decide_eq_false_2 (m = n)) by done. cbn [andb].
        destruct (decide (m ∈ l)) as [Hin|Hin].
        -- rewrite (bool_decide_eq_true_2 (m ∈ l)) by done.
           by rewrite (bool_decide_eq_true_2 (m ∈ n :: l)) by (by right).
        -- rewrite (bool_decide_eq_false_2 (m ∈ l)) by done.
           by rewrite (bool_decide_eq_false_2 (m ∈ n :: l))
             by (by intros [?|?]%elem_of_cons).
Qed.

Lemma filter_ext_in {A} (P Q : A -> Prop) `{!forall x, Decision (P x)}
    `{!forall x, Decision (Q x)} (l : list A) :
  (forall x, x ∈ l -> P x <-> Q x) -> filter P l = filter Q l.
Proof.
  induction l as [|a l IH]; intros Hl; [done|].
  rewrite !filter_cons. rewrite IH by (intros x Hx; apply Hl; by right).
  destruct (decide (P a)) as [Hp|Hp], (decide (Q a)) as [Hq|Hq]; try done.
  - destruct Hq. apply Hl; [left|done].
  - destruct Hp. apply Hl; [left|done].
Qed.

Lemma lookup_deselected_world {X} (f : Object -> X) w m :
  (forall x o, f (set_matrix_world x o) = f o) ->
  f <$> objects (scene (deselected_world w)) !! m
  = (fun o => f (if in_view_layer o then set_select false o else o))
      <$> objects (scene w) !! m.
Proof.
  intros Hf. unfold deselected_world.
  rewrite scene_with_scene, lookup_update_proj by done.
  rewrite scene_with_scene, objects_set_objects, lookup_fmap, scene_with_journal,
    scene_with_scene.
  pose proof (lookup_update_world_matrices (scene w) m) as E. rewrite E.
  destruct (objects (scene w) !! m) as [o|]; [|done].
  cbn [fmap option_fmap option_map]. f_equal.
  set (x := world_matrix _ _ _).
  assert (Hv : in_view_layer (set_matrix_world x o) = in_view_layer o) by done.
  rewrite Hv. destruct (in_view_layer o); [|by rewrite Hf].
  transitivity (f (set_matrix_world x (set_select false o))); [done|by rewrite Hf].
Qed.

Lemma selected_objects_ext (objs objs' : gmap string Object) :
  (forall m, (fun o => in_view_layer o && ob_select o) <$> objs !! m
             = (fun o => in_view_layer o && ob_select o) <$> objs' !! m) ->
  selected_objects objs = selected_objects objs'.
Proof.
  intros H. unfold selected_objects.
  rewrite (object_names_dom objs objs').
  - apply filter_ext_in. intros m _. unfold is_selected. specialize (H m).
    destruct (objs !! m), (objs' !! m); simpl in H; try done. by injection H as ->.
  - intros m. specialize (H m). rewrite <- !(fmap_is_Some (fun o => in_view_layer o && ob_select o)).
    by rewrite H.
Qed.

Lemma selected_objects_update s :
  selected_objects (objects (update_world_matrices s)) = selected_objects (objects s).
Proof. apply selected_objects_ext. intros m. by apply lookup_update_proj. Qed.

Lemma selected_after_loop w (objs2 : gmap string Object) :
  (forall m, objs2 !! m
     = (fun o => if bool_decide (m ∈ object_names (objects (scene (deselected_world w))))
                    && bakeable o then set_select true o else o)
         <$> objects (scene (deselected_world w)) !! m) ->
  selected_objects objs2 = bake_selection (objects (scene w)).
Proof.
  intros H2. unfold selected_objects, bake_selection, objects_where.
  assert (Hdom : forall m, is_Some (objs2 !! m) <-> is_Some (objects (scene w) !! m)).
  { intros m. rewrite H2, fmap_is_Some.
    rewrite <- (fmap_is_Some in_view_layer), lookup_deselected_world by done.
    by rewrite fmap_is_Some. }
  rewrite (object_names_dom _ _ Hdom). apply filter_ext_in. intros m Hm.
  apply elem_of_object_names in Hm as [o Ho]. unfold is_selected.
  assert (Hm1 : m ∈ object_names (objects (scene (deselected_world w)))).
  { apply elem_of_object_names. rewrite <- (fmap_is_Some in_view_layer),
      lookup_deselected_world, Ho by done. by eexists. }
  pose proof (lookup_deselected_world in_view_layer w m (fun _ _ => eq_refl)) as Ev.
  pose proof (lookup_deselected_world ob_select w m (fun _ _ => eq_refl)) as Es.
  pose proof (lookup_deselected_world ob_modifiers w m (fun _ _ => eq_refl)) as Em.
  rewrite H2, Ho in *. rewrite (bool_decide_eq_true_2 _ Hm1).
  destruct (objects (scene (deselected_world w)) !! m) as [o1|]; [|discriminate].
  cbn [fmap option_fmap option_map andb] in *.
  injection Ev as Ev. injection Es as Es. injection Em as Em.
  unfold bakeable, has_armature_modifier.
  destruct (in_view_layer o) eqn:Hv; simpl in Ev, Es, Em; rewrite ?Hv in Ev;
    rewrite Em, Ev, ?Hv; cbn [andb].
  - destruct (existsb _ (ob_modifiers o)); cbn [negb andb].
    + rewrite Ev, Es. cbn [andb]. split; [done|intros [=]].
    + simpl. rewrite Ev. done.
  - rewrite Ev. cbn [andb]. split; [done|intros [=]].
Qed.

(** *** What an object is, through the steps *)

Lemma proj_at_alter_ne {X} (f : Object -> X) n c g w :
  c <> n -> proj_at f n (with_scene (set_objects (alter g c)) w) = proj_at f n w.
Proof.
  intros Hne. unfold proj_at.
  by rewrite scene_with_scene, objects_set_objects, lookup_alter_ne.
Qed.

Lemma proj_at_alter {X} (f : Object -> X) n c g w :
  (forall o, f (g o) = f o) ->
  proj_at f n (with_scene (set_objects (alter g c)) w) = proj_at f n w.
Proof.
  intros Hf. destruct (decide (c = n)) as [->|Hne]; [|by apply proj_at_alter_ne].
  unfold proj_at. rewrite scene_with_scene, objects_set_objects, lookup_alter_eq.
  destruct (_ !! n); simpl; [|done]. by rewrite Hf.
Qed.

Lemma proj_at_fmap {X} (f : Object -> X) n g w :
  (forall o, f (g o) = f o) ->
  proj_at f n (with_scene (set_objects (fmap g)) w) = proj_at f n w.
Proof.
  intros Hf. unfold proj_at. rewrite scene_with_scene, objects_set_objects, lookup_fmap.
  destruct (_ !! n); simpl; [|done]. by rewrite Hf.
Qed.

Lemma proj_at_update {X} (f : Object -> X) n w :
  (forall x o, f (set_matrix_world x o) = f o) ->
  proj_at f n (with_scene update_world_matrices w) = proj_at f n w.
Proof.
  intros Hf. unfold proj_at. rewrite scene_with_scene. by apply lookup_update_proj.
Qed.

Lemma proj_at_datablocks {X} (f : Object -> X) n g w :
  proj_at f n (with_scene (set_datablocks g) w) = proj_at f n w.
Proof. by destruct w as [[]]. Qed.

Lemma proj_at_journal {X} (f : Object -> X) n g w :
  proj_at f n (with_journal g w) = proj_at f n w.
Proof. by destruct w. Qed.

Lemma proj_at_stdout {X} (f : Object -> X) n g w :
  proj_at f n (with_stdout g w) = proj_at f n w.
Proof. by destruct w. Qed.

Lemma keeps_proj_convert_object {X} (f : Object -> X) n c :
  c <> n -> keeps (same (proj_at f n)) (convert_object c).
Proof.
  intros Hne. unfold convert_object, update_object.
  repeat first
    [ keeps_step
    | apply keeps_modify; intros ?; unfold same;
      first [by apply proj_at_alter_ne | apply proj_at_datablocks] ].
Qed.

Lemma keeps_journal_convert_object c : keeps (same journal) (convert_object c).
Proof.
  unfold convert_object, update_object.
  repeat first [keeps_step | apply keeps_modify; intros ?; unfold same; reflexivity].
Qed.

Lemma convert_object_run n w o :
  objects (scene w) !! n = Some o ->
  exists w', convert_object n w = Ok tt w'
    /\ (forall m, is_Some (objects (scene w') !! m) <-> is_Some (objects (scene w) !! m))
    /\ (ob_type o ∈ [MESH; CURVE; SURFACE; FONT; META] ->
        exists o', objects (scene w') !! n = Some o'
          /\ ob_type o' = MESH /\ ob_modifiers o' = []).
Proof.
  intros Hn. unfold convert_object, bind at 1, get_object. rewrite Hn.
  assert (Hdom : forall f m, is_Some (objects (scene (with_scene (set_objects (alter f n)) w)) !! m)
                     <-> is_Some (objects (scene w) !! m)).
  { intros f m. by rewrite scene_with_scene, objects_set_objects, lookup_alter_is_Some. }
  destruct (ob_type o) eqn:Ht;
    try (eexists; split; [reflexivity|]; split; [done|];
         intros Hin; exfalso; revert Hin; rewrite !elem_of_cons, elem_of_nil;
         by intros [?|[?|[?|[?|[?|[]]]]]]).
  - (* MESH *)
    eexists. split; [reflexivity|]. split; [apply Hdom|]. intros _.
    rewrite scene_with_scene, objects_set_objects, lookup_alter_eq, Hn. simpl.
    eexists. split; [done|]. by split.
  - (* FONT *)
    eexists. split; [reflexivity|]. split.
    + intros m. cbn [bind gets modify update_object]. destruct w as [[]]; simpl.
      by rewrite lookup_alter_is_Some.
    + intros _. destruct w as [[]]; simpl in *. rewrite lookup_alter_eq, Hn. simpl.
      eexists. done.
  - (* CURVE *)
    eexists. split; [reflexivity|]. split.
    + intros m. destruct w as [[]]; simpl. by rewrite lookup_alter_is_Some.
    + intros _. destruct w as [[]]; simpl in *. rewrite lookup_alter_eq, Hn. simpl.
      eexists. done.
  - (* SURFACE *)
    eexists. split; [reflexivity|]. split.
    + intros m. destruct w as [[]]; simpl. by rewrite lookup_alter_is_Some.
    + intros _. destruct w as [[]]; simpl in *. rewrite lookup_alter_eq, Hn. simpl.
      eexists. done.
  - (* META *)
    eexists. split; [reflexivity|]. split.
    + intros m. destruct w as [[]]; simpl. by rewrite lookup_alter_is_Some.
    + intros _. destruct w as [[]]; simpl in *. rewrite lookup_alter_eq, Hn. simpl.
      eexists. done.
Qed.

Lemma bpy_ops_run op w :
  bpy_ops op w
  = match op (with_scene update_world_matrices w) with
    | Ok _ w' => Ok tt (with_scene update_world_matrices w')
    | Raise e w' => Raise e w'
    end.
Proof.
  unfold bpy_ops, bind, view_layer_update, modify. by destruct (op _).
Qed.

Lemma convert_to_mesh_run w :
  let selection := selected_objects (objects (scene w)) in
  exists w',
    convert_to_mesh w = Ok tt w'
    /\ journal w' = journal w ++ [CallConvertToMesh selection]
    /\ (forall n, n ∉ selection -> proj_at substance n w' = proj_at substance n w)
    /\ (forall n o, n ∈ selection -> objects (scene w) !! n = Some o ->
          ob_type o ∈ geometry_kinds ->
          exists o', objects (scene w') !! n = Some o'
            /\ ob_type o' = MESH /\ ob_modifiers o' = []).
Proof.
  intros selection. unfold convert_to_mesh. rewrite bpy_ops_run.
  unfold bind at 1, gets. unfold bind at 1, record_call, modify.
  rewrite scene_with_scene, selected_objects_update. fold selection.
  set (w1 := with_journal _ _).
  assert (Hdom1 : forall m, is_Some (objects (scene w1) !! m)
                    <-> is_Some (objects (scene w) !! m)).
  { intros m. unfold w1. rewrite scene_with_journal, scene_with_scene.
    by rewrite <- (fmap_is_Some ob_type), lookup_update_proj, fmap_is_Some. }
  destruct (for_each_ok
              (fun w2 => forall m, is_Some (objects (scene w2) !! m)
                           <-> is_Some (objects (scene w) !! m))
              selection convert_object w1) as (w2 & Hloop & Hdom2); [|done|].
  { intros n wx Hn Hx.
    assert (is_Some (objects (scene wx) !! n)) as [o Ho].
    { apply Hx. apply elem_of_object_names.
      unfold selection, selected_objects in Hn. by apply list_elem_of_filter in Hn as [_ ?]. }
    destruct (convert_object_run n wx o Ho) as (wy & Hy & Hd & _).
    exists wy. split; [done|]. intros m. by rewrite Hd. }
  rewrite Hloop. eexists. split; [reflexivity|].
  split; [|split].
  - rewrite journal_with_scene.
    pose proof (keeps_Ok _ _ _ _ _
      (keeps_for_each (same journal) selection _ keeps_journal_convert_object) Hloop) as Hj.
    unfold same in Hj. rewrite Hj. unfold w1.
    by rewrite journal_with_journal, journal_with_scene.
  - intros n Hn. rewrite proj_at_update by done.
    assert (Hk : keeps (same (proj_at substance n)) (for_each selection convert_object)).
    { apply keeps_for_each_in; [apply _|]. intros c Hc.
      apply keeps_proj_convert_object. by intros ->. }
    pose proof (keeps_Ok _ _ _ _ _ Hk Hloop) as E. unfold same in E. rewrite E.
    unfold w1. by rewrite proj_at_journal, proj_at_update.
  - intros n o Hn Ho Hkind.
    set (f := fun o : Object => (ob_type o, ob_modifiers o)).
    assert (Hstart : proj_at f n w1 = Some (ob_type o, ob_modifiers o)).
    { unfold w1. rewrite proj_at_journal, proj_at_update by done.
      unfold proj_at. by rewrite Ho. }
    apply fmap_Some in Hstart as (o1 & Ho1 & E). injection E as Et _.
    assert (Hend : exists o2, objects (scene w2) !! n = Some o2
                     /\ ob_type o2 = MESH /\ ob_modifiers o2 = []).
    { apply (for_each_at (fun w => objects (scene w) !! n)
                (fun before after => forall o1, before = Some o1 ->
                     ob_type o1 ∈ geometry_kinds ->
                     exists o2, after = Some o2 /\ ob_type o2 = MESH /\ ob_modifiers o2 = [])
                selection convert_object n) with w1 o1; try done.
      - unfold selection, selected_objects. apply NoDup_filter, NoDup_object_names.
      - intros y _ Hy. unfold convert_object, update_object.
        repeat first
          [ keeps_step
          | apply keeps_modify; intros wx; unfold same;
            first [ by rewrite scene_with_scene, objects_set_objects, lookup_alter_ne
                  | by destruct wx as [[]] ] ].
      - intros wx wy Hrun o3 Ho3 Hk3.
        destruct (convert_object_run n wx o3 Ho3) as (wz & Hz & _ & Hconv).
        rewrite Hz in Hrun. injection Hrun as <-. by apply Hconv.
      - by rewrite <- Et. }
    destruct Hend as (o2 & Ho2 & Ht & Hm).
    rewrite scene_with_scene, lookup_update_world_matrices, Ho2. simpl.
    eexists. split; [done|]. by split.
Qed.

Lemma elem_of_bake_selection n (objs : gmap string Object) :
  n ∈ bake_selection objs
  <-> exists o, objs !! n = Some o /\ in_view_layer o = true
        /\ forall m, m ∈ ob_modifiers o -> mod_type m <> MOD_ARMATURE.
Proof.
  unfold bake_selection, objects_where. rewrite list_elem_of_filter, elem_of_object_names.
  split.
  - intros [Hb [o Ho]]. exists o. rewrite Ho in Hb. injection Hb as Hb.
    apply andb_true_iff in Hb as [Hv Ha]. split; [done|]. split; [done|].
    intros m Hm Ht. apply negb_true_iff in Ha. unfold has_armature_modifier in Ha.
    assert (existsb (fun m => bool_decide (mod_type m = MOD_ARMATURE)) (ob_modifiers o) = true)
      as Hex; [|congruence].
    apply existsb_exists. exists m. split; [by apply list_elem_of_In|].
    by apply bool_decide_eq_true_2.
  - intros (o & Ho & Hv & Hm). rewrite Ho. split; [|by eexists]. simpl. f_equal.
    rewrite Hv. simpl. apply negb_true_iff.
    destruct (has_armature_modifier o) eqn:Ha; [|done].
    apply existsb_exists in Ha as (m & Hin & Ht). apply bool_decide_eq_true_1 in Ht.
    destruct (Hm m); [by apply list_elem_of_In|done].
Qed.




(** ** The journal through the transform rewriter *)

#[global] Instance grows_frame : Frame grows.
Proof. unfold grows. apply _. Qed.

#[global] Instance via_soft_frame : Frame (via_objects soft).
Proof. apply via_objects_frame; [apply _|done]. Qed.

#[global] Instance both_preorder R1 R2 `{!PreOrder R1, !PreOrder R2} : PreOrder (both R1 R2).
Proof.
  split.
  - intros w. by split.
  - intros a b c [] []. split; etrans; eauto.
Qed.

#[global] Instance both_frame R1 R2 `{!Frame R1, !Frame R2} : Frame (both R1 R2).
Proof.
  split; [apply _|..]; intros; split;
    first [by apply frame_stdout|by apply frame_call|by apply frame_datablocks
          |by apply frame_objects].
Qed.

Lemma grows_calls_since w w1 w2 c :
  grows w w1 -> c ∈ calls_since w1 w2 -> grows w1 w2 -> c ∈ calls_since w w2.
Proof.
  intros (l1 & H1 & _) Hc (l2 & H2 & _). unfold calls_since in *.
  rewrite H2, drop_app_length in Hc.
  rewrite H2, H1, <- app_assoc, drop_app_length. apply elem_of_app. by right.
Qed.

Lemma grows_calls_since_r w w1 w2 c :
  c ∈ calls_since w w1 -> grows w w1 -> grows w1 w2 -> c ∈ calls_since w w2.
Proof.
  intros Hc (l1 & H1 & _) (l2 & H2 & _). unfold calls_since in *.
  rewrite H1, drop_app_length in Hc.
  rewrite H2, H1, <- app_assoc, drop_app_length. apply elem_of_app. by left.
Qed.

(** The step of a loop for one of its items, between what the loop did
    before and what it did after. *)
Lemma for_each_split R `{!PreOrder R} {A} (l : list A) body x w w' :
  (forall y, keeps R (body y)) ->
  x ∈ l -> for_each l body w = Ok tt w' ->
  exists wa wb, R w wa /\ body x wa = Ok tt wb /\ R wb w'.
Proof.
  intros Hk Hx. revert w. induction l as [|a l IH]; intros w Hrun;
    [by apply elem_of_nil in Hx|].
  simpl in Hrun. apply bind_Ok_inv in Hrun as ([] & w1 & Ha & Hrest).
  apply elem_of_cons in Hx as [->|Hx].
  - exists w, w1. split; [reflexivity|]. split; [done|].
    eapply (keeps_Ok R); [|exact Hrest]. by apply keeps_for_each.
  - destruct (IH Hx w1 Hrest) as (wa & wb & H1 & H2 & H3). exists wa, wb.
    split; [|done]. etrans; [|exact H1]. eapply (keeps_Ok R); [apply Hk|exact Ha].
Qed.

Lemma soft_in_view_layer w w' n o :
  via_objects soft w w' -> objects (scene w) !! n = Some o ->
  exists o', objects (scene w') !! n = Some o' /\ soft o o'.
Proof.
  intros H Hn. specialize (H n). rewrite Hn in H. inversion H; subst. eauto.
Qed.

Lemma apply_rotation_journal n w ob :
  objects (scene w) !! n = Some ob -> in_view_layer ob = true ->
  calls_since w (world_of (apply_rotation n w))
  = [CallSelectAllDeselect; CallTransformApply [n] false true false].
Proof.
  intros Hn Hv. rewrite (apply_rotation_run n w ob Hn Hv).
  pose proof (selected_in_selected_world n w ob Hn Hv) as Hsel.
  unfold calls_since. rewrite transform_apply_journal, Hsel.
  unfold selected_world.
  rewrite !journal_with_scene, journal_with_journal, journal_with_scene.
  by rewrite <- app_assoc, drop_app_length.
Qed.

Lemma fix_object_unfold fuel n :
  fix_object (S fuel) n
  = (ob <- get_object n ;;
     when (in_view_layer ob) (fix_steps n) ;;
     s <- gets scene ;;
     for_each (children_of (objects s) n) (fix_object fuel)).
Proof. reflexivity. Qed.

Lemma keeps_fix_steps R `{!Frame R} n : keeps R (fix_steps n).
Proof. unfold fix_steps. keeps_frame. Qed.

(** A run of the steps that returns has baked the rotation of [n]. *)
Lemma fix_steps_bakes n w w' ob :
  objects (scene w) !! n = Some ob -> in_view_layer ob = true ->
  fix_steps n w = Ok tt w' ->
  CallTransformApply [n] false true false ∈ calls_since w w'.
Proof.
  intros Hn Hv Hrun. unfold fix_steps in Hrun.
  apply bind_Ok_inv in Hrun as ([] & w1 & H1 & Hrun).
  apply bind_Ok_inv in Hrun as (mat & w2 & H2 & Hrun).
  apply bind_Ok_inv in Hrun as ([] & w3 & H3 & Hrun).
  apply bind_Ok_inv in Hrun as ([] & w4 & H4 & H5).
  assert (both grows (via_objects soft) w w3) as [G3 S3].
  { etrans; [eapply keeps_Ok; [|exact H1]; apply keeps_reset_parent_inverse; apply _|].
    etrans; [eapply keeps_Ok; [|exact H2]; apply keeps_matrix_local_get; apply _|].
    eapply keeps_Ok; [|exact H3]; apply keeps_matrix_local_set; apply _. }
  destruct (soft_in_view_layer _ _ _ _ S3 Hn) as (o3 & Ho3 & Hs3).
  assert (Hv3 : in_view_layer o3 = true).
  { destruct Hs3 as (_ & _ & _ & _ & E & _). congruence. }
  pose proof (apply_rotation_journal n w3 o3 Ho3 Hv3) as Hj. rewrite H4 in Hj. simpl in Hj.
  assert (G4 : grows w3 w4).
  { eapply keeps_Ok; [|exact H4]. apply keeps_apply_rotation; apply _. }
  assert (G5 : grows w4 w').
  { eapply keeps_Ok; [|exact H5]. apply keeps_matrix_local_set; apply _. }
  eapply grows_calls_since; [exact G3| |etrans; [exact G4|exact G5]].
  eapply grows_calls_since_r; [|exact G4|exact G5].
  rewrite Hj. apply list_elem_of_further, list_elem_of_here.
Qed.

Lemma fix_object_bakes fuel n w w' ob :
  objects (scene w) !! n = Some ob -> in_view_layer ob = true ->
  fix_object fuel n w = Ok tt w' ->
  CallTransformApply [n] false true false ∈ calls_since w w'.
Proof.
  intros Hn Hv Hrun. destruct fuel as [|fuel]; [discriminate Hrun|].
  rewrite fix_object_unfold in Hrun. unfold bind at 1, get_object in Hrun.
  rewrite Hn, Hv in Hrun. simpl in Hrun.
  apply bind_Ok_inv in Hrun as ([] & w1 & H1 & Hrun).
  apply bind_Ok_inv in Hrun as (s & w2 & H2 & Hrun).
  injection H2 as <- <-.
  eapply grows_calls_since_r; [by eapply fix_steps_bakes| |].
  - eapply (keeps_Ok grows); [|exact H1]. apply keeps_fix_steps; apply _.
  - eapply (keeps_Ok grows); [|exact Hrun]. apply keeps_for_each; [apply _|]. intros c.
    apply keeps_fix_object; apply _.
Qed.

(** ** Objects outside the view layer *)



(** The whole hierarchy with the gap: A is baked, B is not, C is. *)
Lemma hierarchy_gap_calls :
  calls_since Samples.gap_world (world_of (fix_object 4 "A" Samples.gap_world))
  = [CallSelectAllDeselect; CallTransformApply ["A"] false true false;
     CallSelectAllDeselect; CallTransformApply ["C"] false true false].
Proof. vm_compute. reflexivity. Qed.

(** ** The datablock uniquifier and the restoration of shared data *)

Lemma make_single_user_data_unfold :
  make_single_user_data
  = (s0 <- gets scene ;; for_each (object_names (objects s0)) single_user_step).
Proof. reflexivity. Qed.

Lemma object_users_holders objs d :
  object_users objs d = holders objs d (object_names objs).
Proof. reflexivity. Qed.

Lemma data_copy_run d w db :
  datablocks (scene w) !! d = Some db ->
  data_copy d w
  = Ok (fresh (dom (datablocks (scene w))))
       (with_scene (set_datablocks (insert (fresh (dom (datablocks (scene w)))) db)) w).
Proof. intros H. unfold data_copy, bind, gets. by rewrite H. Qed.

(** What one turn does. *)
Lemma single_user_step_run n w ob d db :
  objects (scene w) !! n = Some ob -> ob_data ob = Some d ->
  datablocks (scene w) !! d = Some db ->
  single_user_step n w
  = if 1 <? length (object_users (objects (scene w)) d)
    then
      let w1 := if recorded (objects (scene w)) ob (object_users (objects (scene w)) d)
                then with_shared_data (dict_set n d) w else w in
      let d' := fresh (dom (datablocks (scene w))) in
      Ok tt (with_scene (set_objects (alter (set_data (Some d')) n))
               (with_scene (set_datablocks (insert d' db)) w1))
    else Ok tt w.
Proof.
  intros Hn Hd Hdb. unfold single_user_step, bind at 1, get_object. rewrite Hn.
  unfold bind at 1, gets. rewrite Hd.
  destruct (1 <? length _) eqn:Hlen.
  - assert (Hu : (1 <? data_users (scene w) d) = true).
    { apply Nat.ltb_lt in Hlen. apply Nat.ltb_lt. unfold data_users. lia. }
    rewrite Hu. simpl. unfold recorded, census.
    destruct (bool_decide (ob_type ob = MESH)); simpl.
    + destruct (_ =? 0); simpl.
      * unfold bind at 1, modify. unfold bind at 1.
        rewrite (data_copy_run d _ db) by (by destruct w).
        by destruct w.
      * unfold bind at 1, ret. unfold bind at 1.
        by rewrite (data_copy_run d _ db).
    + unfold bind at 1, ret. unfold bind at 1.
      by rewrite (data_copy_run d _ db).
  - by destruct (1 <? data_users _ _).
Qed.

Lemma single_user_step_none n w ob :
  objects (scene w) !! n = Some ob -> ob_data ob = None ->
  single_user_step n w = Ok tt w.
Proof.
  intros Hn Hd. unfold single_user_step, bind at 1, get_object. rewrite Hn.
  unfold bind at 1, gets. by rewrite Hd.
Qed.

Lemma split_unique {A} (l1 l2 l1' l2' : list A) x :
  NoDup (l1 ++ x :: l2) -> l1 ++ x :: l2 = l1' ++ x :: l2' -> l1 = l1' /\ l2 = l2'.
Proof.
  revert l1'. induction l1 as [|a l1 IH]; intros l1' Hnd E.
  - destruct l1' as [|a' l1']; simpl in E.
    + by injection E.
    + injection E as <- ->. apply NoDup_cons in Hnd as [Hx _].
      destruct Hx. apply elem_of_app. right. left.
  - destruct l1' as [|a' l1']; simpl in E.
    + injection E as -> <-. simpl in Hnd. apply NoDup_cons in Hnd as [Hx _].
      destruct Hx. apply elem_of_app. right. left.
    + injection E as <- E. simpl in Hnd. apply NoDup_cons in Hnd as [_ Hnd].
      destruct (IH l1' Hnd E) as [-> ->]. done.
Qed.

Lemma split_before {A} (P B A' B' : list A) n m :
  NoDup (P ++ n :: B) -> P ++ n :: B = A' ++ m :: B' -> m ∈ P -> n ∈ B'.
Proof.
  intros Hnd E Hm. apply list_elem_of_split in Hm as (P1 & P2 & ->).
  rewrite <- app_assoc in E, Hnd. simpl in E, Hnd.
  destruct (split_unique _ _ _ _ _ Hnd E) as [_ <-].
  apply elem_of_app. right. left.
Qed.

Lemma census_ext objs objs' users :
  (forall m, m ∈ users -> enabled_modifiers <$> objs !! m = enabled_modifiers <$> objs' !! m) ->
  census objs users = census objs' users.
Proof.
  unfold census. intros H.
  assert (forall acc,
            foldl (fun acc user => acc + default 0 (enabled_modifiers <$> objs !! user)) acc users
            = foldl (fun acc user => acc + default 0 (enabled_modifiers <$> objs' !! user)) acc users)
    as E; [|apply E].
  induction users as [|u users IH]; intros acc; [done|].
  simpl. rewrite (H u) by left. apply IH. intros m Hm. apply H. by right.
Qed.

Lemma dict_set_fresh {V} k (v : V) (d : list (string * V)) :
  k ∉ d.*1 -> dict_set k v d = d ++ [(k, v)].
Proof.
  induction d as [|[k' v'] d IH]; intros Hk; [done|]. simpl.
  rewrite fmap_cons in Hk. apply not_elem_of_cons in Hk as [Hne Hk]. simpl in Hne.
  rewrite decide_False by done. by rewrite IH.
Qed.

Lemma holders_app objs d l1 l2 :
  holders objs d (l1 ++ l2) = holders objs d l1 ++ holders objs d l2.
Proof. unfold holders. by rewrite filter_app. Qed.

Lemma elem_of_holders objs d l n :
  n ∈ holders objs d l <-> (objs !! n) ≫= ob_data = Some d /\ n ∈ l.
Proof. unfold holders. by rewrite list_elem_of_filter. Qed.

(** The objects that hold the data of the visited object, when the turn of
    that object comes: the object itself and the holders further down. *)
Lemma users_at_visit w0 P n B w o d :
  data_wf (scene w0) ->
  object_names (objects (scene w0)) = P ++ n :: B ->
  uniquified_upto w0 P w ->
  objects (scene w0) !! n = Some o -> ob_data o = Some d ->
  objects (scene w) !! n = Some o
  /\ object_users (objects (scene w)) d = n :: holders (objects (scene w0)) d B.
Proof.
  intros Hwf0 Hl (Hnames & Hsub & Hwf & Hrest & Hdone & _) Hn Hd.
  pose proof (NoDup_object_names (objects (scene w0))) as Hnd. rewrite Hl in Hnd.
  assert (HnP : n ∉ P).
  { intros Hin. apply NoDup_app in Hnd as (_ & Hdis & _). apply (Hdis n Hin). left. }
  pose proof (Hrest n o Hn HnP) as Hn'. split; [done|].
  rewrite object_users_holders, Hnames, Hl, holders_app. unfold holders at 1.
  rewrite filter_none; simpl.
  - unfold holders. rewrite filter_cons_True by (by rewrite Hn'; simpl).
    f_equal. apply filter_ext_in. intros m Hm.
    assert (Hml : m ∈ object_names (objects (scene w0))).
    { rewrite Hl. apply elem_of_app. right. by right. }
    apply elem_of_object_names in Hml as [om Hom].
    assert (HmP : m ∉ P).
    { intros Hin. apply NoDup_app in Hnd as (_ & Hdis & _). apply (Hdis m Hin). by right. }
    by rewrite (Hrest m om Hom HmP), Hom.
  - intros m Hm Hholds.
    assert (Hml : m ∈ object_names (objects (scene w0))).
    { rewrite Hl. apply elem_of_app. by left. }
    pose proof Hml as Hsplit. apply list_elem_of_split in Hsplit as (A & B' & HAB).
    apply elem_of_object_names in Hml as [om Hom].
    pose proof (Hdone m om A B' Hom HAB Hm) as Hcase.
    assert (HnB : n ∈ B').
    { rewrite HAB in Hl. symmetry in Hl. eapply split_before; [exact Hnd|exact Hl|exact Hm]. }
    destruct (ob_data om) as [dm|] eqn:Hdm.
    + destruct (decide (holders (objects (scene w0)) dm B' = [])) as [He|Hne].
      * rewrite Hcase in Hholds. simpl in Hholds. rewrite Hdm in Hholds.
        injection Hholds as ->.
        assert (Hin : n ∈ holders (objects (scene w0)) d B').
        { apply elem_of_holders. by rewrite Hn. }
        rewrite He in Hin. by apply elem_of_nil in Hin.
      * destruct Hcase as (d' & Hm' & Hfresh & _). rewrite Hm' in Hholds.
        simpl in Hholds. injection Hholds as E. subst d'.
        apply Hfresh. apply elem_of_dom. exact (Hwf0 n o d Hn Hd).
    + rewrite Hcase in Hholds. simpl in Hholds. by rewrite Hdm in Hholds.
Qed.

Lemma shared_data_with_scene f w : shared_data (with_scene f w) = shared_data w.
Proof. done. Qed.

Lemma scene_with_shared_data f w : scene (with_shared_data f w) = scene w.
Proof. done. Qed.

Lemma datablocks_set_objects f s : datablocks (set_objects f s) = datablocks s.
Proof. done. Qed.

Lemma datablocks_set_datablocks f s : datablocks (set_datablocks f s) = f (datablocks s).
Proof. done. Qed.

Lemma objects_set_datablocks f s : objects (set_datablocks f s) = objects s.
Proof. done. Qed.

Lemma fresh_datablock (dbs : gmap DataId Datablock) : dbs !! fresh (dom dbs) = None.
Proof. apply not_elem_of_dom. apply is_fresh. Qed.

(** One turn keeps the invariant. *)
Lemma uniquified_step w0 P n B w :
  data_wf (scene w0) ->
  object_names (objects (scene w0)) = P ++ n :: B ->
  uniquified_upto w0 P w ->
  exists w', single_user_step n w = Ok tt w' /\ uniquified_upto w0 (P ++ [n]) w'.
Proof.
  intros Hwf0 Hl Hinv.
  pose proof (NoDup_object_names (objects (scene w0))) as Hnd. rewrite Hl in Hnd.
  assert (HnP : n ∉ P).
  { intros Hin. apply NoDup_app in Hnd as (_ & Hdis & _). apply (Hdis n Hin). left. }
  assert (Hnl : n ∈ object_names (objects (scene w0))).
  { rewrite Hl. apply elem_of_app. right. left. }
  apply elem_of_object_names in Hnl as [o Hn].
  assert (Hsplit : forall A' B', object_names (objects (scene w0)) = A' ++ n :: B' -> B' = B).
  { intros A' B' E. rewrite Hl in E. by destruct (split_unique _ _ _ _ _ Hnd E). }
  destruct (ob_data o) as [d|] eqn:Hd.
  - destruct (users_at_visit w0 P n B w o d Hwf0 Hl Hinv Hn Hd) as [Hn' Husers].
    destruct Hinv as (Hnames & Hsub & Hwf & Hrest & Hdone & Hshared & Hkeys).
    destruct (Hwf n o d Hn' Hd) as [db Hdb].
    assert (Hdb0 : datablocks (scene w0) !! d = Some db).
    { destruct (Hwf0 n o d Hn Hd) as [db0 Hdb0].
      pose proof (lookup_weaken _ _ _ _ Hdb0 Hsub) as E. congruence. }
    rewrite (single_user_step_run n w o d db Hn' Hd Hdb), Husers.
    set (H := holders (objects (scene w0)) d B).
    assert (HnK : n ∉ (shared_data w).*1).
    { intros ([m x] & -> & Hin)%list_elem_of_fmap. apply Hshared in Hin as [Hin _]. done. }
    assert (Hrec : recorded (objects (scene w)) o (n :: H)
                   = recorded (objects (scene w0)) o (n :: H)).
    { unfold recorded. f_equal. f_equal. apply census_ext. intros m Hm.
      apply elem_of_cons in Hm as [->|Hm]; [by rewrite Hn, Hn'|].
      apply elem_of_holders in Hm as [_ Hm].
      assert (HmP : m ∉ P).
      { intros Hin. apply NoDup_app in Hnd as (_ & Hdis & _). apply (Hdis m Hin). by right. }
      destruct (objects (scene w0) !! m) as [om|] eqn:Hom.
      - by rewrite (Hrest m om Hom HmP).
      - assert (Hml : m ∈ object_names (objects (scene w0))).
        { rewrite Hl. apply elem_of_app. right. by right. }
        apply elem_of_object_names in Hml as [? ?]. congruence. }
    destruct H as [|h H'] eqn:HH; simpl.
    + (* the last holder: nothing changes *)
      exists w. split; [done|].
      split; [done|]. split; [done|]. split; [done|]. split; [|split; [|split; [|done]]].
      * intros m om Hom Hm. apply Hrest; [done|]. intros Hin. apply Hm, elem_of_app. by left.
      * intros m om A' B' Hom HAB Hm. apply elem_of_app in Hm as [Hm|Hm%list_elem_of_singleton].
        { exact (Hdone m om A' B' Hom HAB Hm). }
        subst m. rewrite Hn in Hom. injection Hom as <-. rewrite Hd.
        rewrite (Hsplit _ _ HAB). fold H. rewrite HH. by rewrite decide_True.
      * intros m x. split.
        { intros Hin. apply Hshared in Hin as [Hm Hc]. split; [|done].
          apply elem_of_app. by left. }
        intros [Hm (om & A' & B' & Hom & Hdm & HAB & Hne & Hr)].
        apply elem_of_app in Hm as [Hm|Hm%list_elem_of_singleton].
        { apply Hshared. split; [done|]. by exists om, A', B'. }
        subst m. rewrite Hn in Hom. injection Hom as <-. rewrite Hd in Hdm.
        injection Hdm as <-. rewrite (Hsplit _ _ HAB) in Hne. fold H in Hne. by rewrite HH in Hne.
    + (* further holders: a copy *)
      set (d' := fresh (dom (datablocks (scene w)))).
      set (w1 := if recorded _ _ _ then _ else _).
      assert (Hs1 : scene w1 = scene w) by (unfold w1; by destruct (recorded _ _ _)).
      assert (Hfresh : datablocks (scene w) !! d' = None) by apply fresh_datablock.
      assert (Hfresh0 : d' ∉ dom (datablocks (scene w0))).
      { intros Hin. apply elem_of_dom in Hin as [x Hx].
        pose proof (lookup_weaken _ _ _ _ Hx Hsub). congruence. }
      eexists. split; [reflexivity|].
      unfold uniquified_upto, data_wf.
      rewrite !scene_with_scene, objects_set_objects, objects_set_datablocks,
        datablocks_set_objects, datablocks_set_datablocks, Hs1.
      split; [by rewrite object_names_alter|].
      split; [apply insert_subseteq_r; [by apply not_elem_of_dom|done]|].
      split.
      { intros m om x Hm Hx. apply lookup_insert_is_Some.
        destruct (decide (m = n)) as [->|Hne].
        - rewrite lookup_alter_eq, Hn' in Hm. injection Hm as <-. simpl in Hx. left. congruence.
        - rewrite lookup_alter_ne in Hm by done. right.
          pose proof (Hwf m om x Hm Hx) as [y Hy]. split; [congruence|by eexists]. }
      split.
      { intros m om Hom Hm. rewrite lookup_alter_ne.
        - apply Hrest; [done|]. intros Hin. apply Hm, elem_of_app. by left.
        - intros ->. apply Hm, elem_of_app. right. left. }
      split.
      { intros m om A' B' Hom HAB Hm.
        apply elem_of_app in Hm as [Hm|Hm%list_elem_of_singleton].
        - assert (Hne : n <> m) by congruence. rewrite lookup_alter_ne by done.
          pose proof (Hdone m om A' B' Hom HAB Hm) as Hcase.
          destruct (ob_data om) as [dm|] eqn:Hdm; [|done].
          destruct (decide (holders (objects (scene w0)) dm B' = [])); [done|].
          destruct Hcase as (dc & Hm' & Hf & Hc). exists dc. split; [done|]. split; [done|].
          rewrite lookup_insert_ne; [done|]. intros <-.
          destruct (Hwf0 m om dm Hom Hdm) as [? ?]. congruence.
        - subst m. rewrite Hn in Hom. injection Hom as <-. rewrite Hd.
          rewrite (Hsplit _ _ HAB). fold H. rewrite HH. rewrite decide_False by done.
          exists d'. rewrite lookup_alter_eq, Hn', lookup_insert_eq. done. }
      assert (Hsh1 : shared_data w1
                     = if recorded (objects (scene w0)) o (n :: h :: H')
                       then shared_data w ++ [(n, d)] else shared_data w).
      { unfold w1. rewrite Hrec. destruct (recorded (objects (scene w0)) _ _); [|done].
        exact (dict_set_fresh n d _ HnK). }
      clearbody w1. clear Hrec.
      rewrite !shared_data_with_scene, Hsh1.
      split.
      { intros m x. split.
        - intros Hin.
          assert (Hcases : (m, x) ∈ shared_data w
                           \/ (recorded (objects (scene w0)) o (n :: h :: H') = true
                               /\ (m, x) = (n, d))).
          { destruct (recorded _ _ _); [|by left].
            apply elem_of_app in Hin as [Hin|Hin%list_elem_of_singleton]; [by left|by right]. }
          destruct Hcases as [Hold|[Hr E]].
          + apply Hshared in Hold as [Hm Hc]. split; [|done]. apply elem_of_app. by left.
          + injection E as -> ->. split; [apply elem_of_app; right; left|].
            exists o, P, B. fold H. rewrite HH. done.
        - intros [Hm (om & A' & B' & Hom & Hdm & HAB & Hne & Hr)].
          apply elem_of_app in Hm as [Hm|Hm%list_elem_of_singleton].
          + assert ((m, x) ∈ shared_data w) as Hold.
            { apply Hshared. split; [done|]. by exists om, A', B'. }
            destruct (recorded _ _ _); [|done]. apply elem_of_app. by left.
          + subst m. rewrite Hn in Hom. injection Hom as <-. rewrite Hd in Hdm.
            injection Hdm as <-. rewrite (Hsplit _ _ HAB) in Hr. fold H in Hr.
            rewrite HH in Hr. rewrite Hr. apply elem_of_app. right. left. }
      destruct (recorded _ _ _); [|done].
      rewrite fmap_app. apply NoDup_app. split; [done|]. split.
      * intros k Hk Hk'%list_elem_of_singleton. simpl in Hk'. by subst k.
      * apply NoDup_singleton.
  - destruct Hinv as (Hnames & Hsub & Hwf & Hrest & Hdone & Hshared & Hkeys).
    pose proof (Hrest n o Hn HnP) as Hn'.
    rewrite (single_user_step_none n w o Hn' Hd).
    exists w. split; [done|].
    split; [done|]. split; [done|]. split; [done|]. split; [|split; [|split; [|done]]].
    + intros m om Hom Hm. apply Hrest; [done|]. intros Hin. apply Hm, elem_of_app. by left.
    + intros m om A' B' Hom HAB Hm. apply elem_of_app in Hm as [Hm|Hm%list_elem_of_singleton].
      { exact (Hdone m om A' B' Hom HAB Hm). }
      subst m. rewrite Hn in Hom. injection Hom as <-. by rewrite Hd.
    + intros m x. split.
      { intros Hin. apply Hshared in Hin as [Hm Hc]. split; [|done].
        apply elem_of_app. by left. }
      intros [Hm (om & A' & B' & Hom & Hdm & HAB & Hne & Hr)].
      apply elem_of_app in Hm as [Hm|Hm%list_elem_of_singleton].
      { apply Hshared. split; [done|]. by exists om, A', B'. }
      subst m. rewrite Hn in Hom. injection Hom as <-. congruence.
Qed.

Lemma uniquified_loop w0 rest :
  data_wf (scene w0) ->
  forall P w,
    object_names (objects (scene w0)) = P ++ rest ->
    uniquified_upto w0 P w ->
    exists w', for_each rest single_user_step w = Ok tt w'
      /\ uniquified_upto w0 (object_names (objects (scene w0))) w'.
Proof.
  intros Hwf0. induction rest as [|n rest IH]; intros P w Hl Hinv.
  - rewrite app_nil_r in Hl. rewrite Hl. by exists w.
  - destruct (uniquified_step w0 P n rest w Hwf0 Hl Hinv) as (w1 & Hstep & Hinv1).
    destruct (IH (P ++ [n]) w1) as (w' & Hrun & Hinv'); [by rewrite <- app_assoc|done|].
    exists w'. split; [|done]. simpl. unfold bind. by rewrite Hstep.
Qed.

Lemma uniquified_start w : data_wf (scene w) -> shared_data w = [] -> uniquified_upto w [] w.
Proof.
  intros Hwf Hsh. split; [done|]. split; [done|]. split; [done|]. split; [done|].
  split; [|split].
  - intros m o A B _ _ Hm. by apply elem_of_nil in Hm.
  - intros m x. rewrite Hsh. split.
    + intros Hin. by apply elem_of_nil in Hin.
    + intros [Hm _]. by apply elem_of_nil in Hm.
  - rewrite Hsh. apply NoDup_nil_2.
Qed.

(** The uniquifier returns, and leaves the state that the invariant
    describes for the whole enumeration. *)
Lemma make_single_user_data_run w :
  data_wf (scene w) -> shared_data w = [] ->
  exists w', make_single_user_data w = Ok tt w'
    /\ uniquified_upto w (object_names (objects (scene w))) w'.
Proof.
  intros Hwf Hsh. rewrite make_single_user_data_unfold. unfold bind at 1, gets.
  apply (uniquified_loop w _ Hwf [] w); [done|]. by apply uniquified_start.
Qed.

Lemma NoDup_holders objs d l : NoDup l -> NoDup (holders objs d l).
Proof. intros H. unfold holders. by apply NoDup_filter. Qed.

(** The last holder of [d] in the enumeration, and the holders before it. *)
Lemma holders_last objs d l front last :
  NoDup l -> holders objs d l = front ++ [last] ->
  exists A B, l = A ++ last :: B /\ holders objs d A = front /\ holders objs d B = [].
Proof.
  intros Hnd Hh.
  assert (Hin : last ∈ holders objs d l) by (rewrite Hh; apply elem_of_app; right; left).
  apply elem_of_holders in Hin as [Hd Hin].
  apply list_elem_of_split in Hin as (A & B & ->). exists A, B. split; [done|].
  pose proof (NoDup_holders objs d _ Hnd) as Hnd'.
  rewrite holders_app in Hh, Hnd'. unfold holders at 2 in Hh. unfold holders at 2 in Hnd'.
  rewrite filter_cons_True in Hh, Hnd' by done. fold (holders objs d B) in Hh, Hnd'.
  by destruct (split_unique _ _ _ _ _ Hnd' Hh).
Qed.

Lemma holders_before objs d l front last u :
  NoDup l -> holders objs d l = front ++ [last] -> u ∈ front ->
  exists A B, l = A ++ u :: B /\ holders objs d B <> [].
Proof.
  intros Hnd Hh Hu.
  assert (Hin : u ∈ holders objs d l) by (rewrite Hh; apply elem_of_app; by left).
  apply elem_of_holders in Hin as [Hd Hin].
  apply list_elem_of_split in Hin as (A & B & ->). exists A, B. split; [done|].
  intros He. pose proof (NoDup_holders objs d _ Hnd) as Hnd'. rewrite Hh in Hnd'.
  rewrite holders_app in Hh. unfold holders at 2 in Hh.
  rewrite filter_cons_True in Hh by done. fold (holders objs d B) in Hh. rewrite He in Hh.
  apply app_inj_tail in Hh as [_ ->].
  apply NoDup_app in Hnd' as (_ & Hdis & _). apply (Hdis last Hu). left.
Qed.

Lemma restore_shared_data_unfold w :
  restore_shared_data w = for_each (shared_data w) restore_step w.
Proof. reflexivity. Qed.

#[global] Instance redata_preorder : PreOrder redata.
Proof.
  split.
  - by intros [].
  - intros [] [] [] H1 H2. unfold redata, set_data in *. simpl in *. congruence.
Qed.

Lemma for_each_cons {A} (x : A) l body w :
  for_each (x :: l) body w
  = match body x w with
    | Ok _ w' => for_each l body w'
    | Raise e w' => Raise e w'
    end.
Proof. reflexivity. Qed.

Lemma restore_loop sh :
  forall w,
    NoDup sh.*1 ->
    (forall m x, (m, x) ∈ sh -> is_Some (objects (scene w) !! m)) ->
    exists objs',
      for_each sh restore_step w = Ok tt (with_scene (set_objects (fun _ => objs')) w)
      /\ (forall m x, (m, x) ∈ sh -> objs' !! m ≫= ob_data = Some x)
      /\ (forall m, m ∉ sh.*1 -> objs' !! m = objects (scene w) !! m)
      /\ objects_related redata (objects (scene w)) objs'.
Proof.
  induction sh as [|[k v] sh IH]; intros w Hnd Hkeys.
  - exists (objects (scene w)). simpl. rewrite with_objects_same. split; [done|].
    split; [|split; [done|]].
    + intros m x Hin. by apply elem_of_nil in Hin.
    + intros m. reflexivity.
  - rewrite fmap_cons in Hnd. apply NoDup_cons in Hnd as [Hk Hnd]. simpl in Hk.
    destruct (Hkeys k v) as [ok Hok]; [left|].
    set (w1 := with_scene (set_objects (alter (set_data (Some v)) k)) w).
    assert (Hstep : restore_step (k, v) w = Ok tt w1).
    { unfold restore_step, bind, gets. by rewrite Hok. }
    destruct (IH w1 Hnd) as (objs' & Hrun & Hset & Hother & Hrel).
    { intros m x Hin. unfold w1. rewrite scene_with_scene, objects_set_objects.
      apply lookup_alter_is_Some. apply (Hkeys m x). by right. }
    exists objs'. split; [|split; [|split]].
    + rewrite for_each_cons, Hstep, Hrun. unfold w1. by rewrite with_objects_twice.
    + intros m x Hin. apply elem_of_cons in Hin as [[= -> ->]|Hin]; [|by eapply Hset].
      rewrite (Hother k Hk). unfold w1.
      rewrite scene_with_scene, objects_set_objects, lookup_alter_eq, Hok. done.
    + intros m Hm. rewrite fmap_cons in Hm. apply not_elem_of_cons in Hm as [Hne Hm].
      simpl in Hne. rewrite (Hother m Hm). unfold w1.
      by rewrite scene_with_scene, objects_set_objects, lookup_alter_ne.
    + etrans; [|exact Hrel]. unfold w1. rewrite scene_with_scene, objects_set_objects.
      apply objects_related_alter; [apply _|]. by intros [].
Qed.

#[global] Instance mesh_kept_preorder : PreOrder mesh_kept.
Proof.
  split.
  - by intros o.
  - intros a b c H1 H2 Ha. destruct (H1 Ha) as [Hb E1]. destruct (H2 Hb) as [Hc E2].
    split; congruence.
Qed.

#[global] Instance via_mesh_kept_frame : Frame (via_objects mesh_kept).
Proof.
  apply via_objects_frame; [apply _|]. intros o o' (Ht & _ & Hd & _) Hm. split; congruence.
Qed.

Lemma census_zero objs users :
  (forall m o, m ∈ users -> objs !! m = Some o -> enabled_modifiers o = 0) ->
  census objs users = 0.
Proof.
  unfold census. induction users as [|u users IH]; intros H; [done|]. simpl.
  assert (E : default 0 (enabled_modifiers <$> objs !! u) = 0).
  { destruct (objs !! u) as [o|] eqn:Ho; [|done]. simpl. apply (H u o); [left|done]. }
  rewrite E. apply IH. intros m o Hm. apply H. by right.
Qed.

Lemma data_at_lookup n w o : objects (scene w) !! n = Some o -> data_at n w = ob_data o.
Proof. intros H. unfold data_at. by rewrite H. Qed.

(** The state that the uniquifier leaves, read for one datablock [d] with
    its holders [front ++ [last]] in the order of the enumeration. *)
Lemma uniquified_holders w w' d front last :
  data_wf (scene w) ->
  object_users (objects (scene w)) d = front ++ [last] ->
  uniquified_upto w (object_names (objects (scene w))) w' ->
  (forall u, u ∈ front ->
     exists o d', objects (scene w) !! u = Some o
       /\ objects (scene w') !! u = Some (set_data (Some d') o)
       /\ d' <> d /\ (d' ∉ dom (datablocks (scene w)))
       /\ datablocks (scene w') !! d' = datablocks (scene w) !! d)
  /\ (exists o, objects (scene w) !! last = Some o /\ objects (scene w') !! last = Some o
        /\ ob_data o = Some d)
  /\ (last ∉ (shared_data w').*1)
  /\ (forall u, (u, d) ∈ shared_data w' ->
        u ∈ front /\ exists o F1 F2, objects (scene w) !! u = Some o
          /\ front ++ [last] = F1 ++ u :: F2
          /\ recorded (objects (scene w)) o (u :: F2) = true)
  /\ (forall u o F1 F2, u ∈ front -> objects (scene w) !! u = Some o ->
        front ++ [last] = F1 ++ u :: F2 ->
        recorded (objects (scene w)) o (u :: F2) = true ->
        (u, d) ∈ shared_data w')
  /\ object_users (objects (scene w')) d = [last].
Proof.
  intros Hwf Hu (Hnames & Hsub & Hwf' & Hrest & Hdone & Hshared & Hkeys).
  pose proof (NoDup_object_names (objects (scene w))) as Hnd.
  rewrite object_users_holders in Hu.
  set (l := object_names (objects (scene w))) in *.
  destruct (holders_last _ _ _ _ _ Hnd Hu) as (Al & Bl & Hl & HAl & HBl).
  assert (Hlast : last ∈ holders (objects (scene w)) d l).
  { rewrite Hu. apply elem_of_app. right. left. }
  apply elem_of_holders in Hlast as [Hdl Hinl].
  destruct (objects (scene w) !! last) as [ol|] eqn:Hol; [|done]. simpl in Hdl.
  assert (Hd0 : is_Some (datablocks (scene w) !! d)) by (by eapply Hwf).
  assert (Hfront : forall u, u ∈ front ->
            exists o A B, objects (scene w) !! u = Some o /\ ob_data o = Some d
              /\ l = A ++ u :: B /\ holders (objects (scene w)) d B <> []).
  { intros u Hin. destruct (holders_before _ _ _ _ _ u Hnd Hu Hin) as (A & B & HAB & Hne).
    assert (Hh : u ∈ holders (objects (scene w)) d l).
    { rewrite Hu. apply elem_of_app. by left. }
    apply elem_of_holders in Hh as [Hdu _].
    destruct (objects (scene w) !! u) as [o|] eqn:Ho; [|done]. by exists o, A, B. }
  assert (Hsuffix : forall A B u o, l = A ++ u :: B ->
            objects (scene w) !! u = Some o -> ob_data o = Some d ->
            front ++ [last]
            = holders (objects (scene w)) d A ++ u :: holders (objects (scene w)) d B).
  { intros A B u o HAB Ho Hdo. rewrite <- Hu, HAB, holders_app. f_equal.
    unfold holders at 1. rewrite filter_cons_True by (by rewrite Ho). done. }
  pose proof (NoDup_holders (objects (scene w)) d l Hnd) as Hndh. rewrite Hu in Hndh.
  split; [|split; [|split; [|split; [|split]]]].
  - intros u Hin. destruct (Hfront u Hin) as (o & A & B & Ho & Hdo & HAB & Hne).
    assert (Hul : u ∈ l) by (rewrite HAB; apply elem_of_app; right; left).
    pose proof (Hdone u o A B Ho HAB Hul) as Hcase. rewrite Hdo in Hcase.
    rewrite decide_False in Hcase by done. destruct Hcase as (d' & Hu' & Hf & Hc).
    exists o, d'. repeat split; try done. intros ->. apply Hf. by apply elem_of_dom.
  - exists ol. split; [done|]. split; [|done].
    pose proof (Hdone last ol Al Bl Hol Hl Hinl) as Hcase. rewrite Hdl in Hcase.
    by rewrite decide_True in Hcase.
  - intros ([m x] & E & Hin)%list_elem_of_fmap. simpl in E. subst m.
    apply Hshared in Hin as (_ & o & A & B & Ho & Hdo & HAB & Hne & _).
    rewrite Hol in Ho. injection Ho as <-. rewrite Hdl in Hdo. injection Hdo as <-.
    rewrite Hl in HAB. apply split_unique in HAB as [_ <-]; [done|by rewrite <- Hl].
  - intros u Hin. apply Hshared in Hin as (Hul & o & A & B & Ho & Hdo & HAB & Hne & Hr).
    assert (Hh : u ∈ holders (objects (scene w)) d l).
    { apply elem_of_holders. by rewrite Ho. }
    rewrite Hu in Hh. apply elem_of_app in Hh as [Hf|Hf%list_elem_of_singleton].
    + split; [done|].
      exists o, (holders (objects (scene w)) d A), (holders (objects (scene w)) d B).
      split; [done|]. split; [by eapply Hsuffix|done].
    + subst u. rewrite Hl in HAB. apply split_unique in HAB as [_ <-]; [done|by rewrite <- Hl].
  - intros u o F1 F2 Hin Ho HF Hr.
    destruct (Hfront u Hin) as (o' & A & B & Ho' & Hdo & HAB & Hne).
    rewrite Ho in Ho'. injection Ho' as <-. apply Hshared.
    split; [rewrite HAB; apply elem_of_app; right; left|].
    exists o, A, B. repeat split; try done.
    pose proof (Hsuffix A B u o HAB Ho Hdo) as E. rewrite HF in E, Hndh.
    by destruct (split_unique _ _ _ _ _ Hndh E) as [_ <-].
  - rewrite object_users_holders, Hnames. fold l. unfold holders.
    apply filter_only; [done|done|]. intros y Hy. split.
    + intros Hholds. pose proof Hy as Hy'. apply list_elem_of_split in Hy' as (A & B & HAB).
      pose proof Hy as Hy'. apply elem_of_object_names in Hy' as [oy Hoy].
      pose proof (Hdone y oy A B Hoy HAB Hy) as Hcase.
      destruct (ob_data oy) as [dy|] eqn:Hdy.
      * destruct (decide (holders (objects (scene w)) dy B = [])) as [He|Hne].
        -- rewrite Hcase in Hholds. simpl in Hholds. rewrite Hdy in Hholds.
           injection Hholds as ->.
           assert (Hh : y ∈ holders (objects (scene w)) d l).
           { apply elem_of_holders. by rewrite Hoy. }
           rewrite Hu in Hh. apply elem_of_app in Hh as [Hf|Hf%list_elem_of_singleton]; [|done].
           destruct (Hfront y Hf) as (o' & A' & B' & _ & _ & HAB' & Hne').
           rewrite HAB in HAB'. apply split_unique in HAB' as [_ <-]; [done|by rewrite <- HAB].
        -- destruct Hcase as (d' & Hy' & Hf & _). rewrite Hy' in Hholds. simpl in Hholds.
           injection Hholds as ->. destruct Hf. by apply elem_of_dom.
      * rewrite Hcase in Hholds. simpl in Hholds. by rewrite Hdy in Hholds.
    + intros ->. pose proof (Hdone last ol Al Bl Hol Hl Hinl) as Hcase. rewrite Hdl in Hcase.
      rewrite decide_True in Hcase by done. by rewrite Hcase.
Qed.

Lemma get_object_run n w o : objects (scene w) !! n = Some o -> get_object n w = Ok o w.
Proof. intros H. unfold get_object. by rewrite H. Qed.

Lemma keeps_datablocks_update_object n f : keeps (same datablocks_of) (update_object n f).
Proof. unfold update_object. by apply keeps_modify. Qed.

(** [transform_apply] on an object bakes into the datablock that the
    object holds, and into no other. *)
Lemma apply_transform_object_datablocks l r s n w w' o d :
  objects (scene w) !! n = Some o -> ob_data o = Some d ->
  apply_transform_object l r s n w = Ok tt w' ->
  exists baked, datablocks (scene w') = alter (bake_into baked) d (datablocks (scene w)).
Proof.
  intros Hn Hd. unfold apply_transform_object, bind at 1.
  rewrite (get_object_run n w o Hn), Hd.
  destruct (decompose (matrix_basis o)) as [[[loc rot] scl]|]; [|discriminate].
  intros H. apply bind_Ok_inv in H as ([] & w1 & H1 & H).
  cbv [modify] in H1. injection H1 as <-.
  eexists. eapply (keeps_Ok (same datablocks_of)) in H.
  - unfold same, datablocks_of in H. rewrite H. reflexivity.
  - pose proof keeps_datablocks_update_object.
    repeat first [keeps_step | done | apply keeps_modify; intros ?; reflexivity ].
Qed.

Lemma via_objects_lookup OR w w' n o :
  via_objects OR w w' -> objects (scene w) !! n = Some o ->
  exists o', objects (scene w') !! n = Some o' /\ OR o o'.
Proof.
  intros H Hn. specialize (H n). rewrite Hn in H. inversion H; subst. eauto.
Qed.


Lemma data_wfb_spec s : data_wfb s = true -> data_wf s.
Proof.
  unfold data_wfb. intros H n o d Hn Hd. rewrite forallb_forall in H.
  specialize (H n). rewrite Hn in H. simpl in H. rewrite Hd in H.
  eapply bool_decide_eq_true_1, H. apply list_elem_of_In, elem_of_object_names. by eexists.
Qed.



(** ** A program logic: relation and postcondition together *)

Section Triples.
Context (R : relation World) `{!PreOrder R}.

Lemma triple_bind {A B} I (m : M A) J (k : A -> M B) K :
  triple R I m J -> (forall a, triple R (J a) (k a) K) -> triple R I (bind m k) K.
Proof.
  intros Hm Hk w Hw. destruct (Hm w Hw) as [HR HJ]. unfold bind.
  destruct (m w) as [a w1|e w1]; simpl in *; [|split; [done|discriminate]].
  destruct (Hk a w1 (HJ a w1 eq_refl)) as [HR' HK]. split; [by etrans|done].
Qed.

Lemma triple_conseq {A} (I I' : World -> Prop) (m : M A) (J J' : A -> World -> Prop) :
  triple R I' m J' -> (forall w, I w -> I' w) -> (forall a w, J' a w -> J a w) ->
  triple R I m J.
Proof.
  intros H HI HJ w Hw. destruct (H w (HI w Hw)) as [HR HJ']. split; [done|].
  intros a w' E. by apply HJ, HJ'.
Qed.

Lemma triple_ret {A} I (a : A) : triple R I (ret a) (fun b w => b = a /\ I w).
Proof. intros w Hw. split; [reflexivity|]. by intros ? ? [= <- <-]. Qed.

Lemma triple_gets {A} I (f : World -> A) : triple R I (gets f) (fun a w => a = f w /\ I w).
Proof. intros w Hw. split; [reflexivity|]. by intros ? ? [= <- <-]. Qed.

(** A step that keeps a relation [S] under which [I] is stable. *)
Lemma triple_keeps {A} (S : relation World) I (m : M A) :
  keeps R m -> keeps S m -> (forall w w', I w -> S w w' -> I w') ->
  triple R I m (fun _ w => I w).
Proof.
  intros HR HS Hst w Hw. split; [apply HR|]. intros a w' E.
  apply (Hst w w' Hw). by eapply keeps_Ok.
Qed.

Lemma triple_when I b m :
  triple R I m (fun _ w => I w) -> triple R I (when b m) (fun _ w => I w).
Proof.
  intros H. destruct b; [done|]. intros w Hw. split; [reflexivity|].
  intros a w' E. injection E as _ <-. done.
Qed.

Lemma triple_for_each {A} I (l : list A) body :
  (forall x, x ∈ l -> triple R I (body x) (fun _ w => I w)) ->
  triple R I (for_each l body) (fun _ w => I w).
Proof.
  induction l as [|x l IH]; intros H.
  - intros w Hw. split; [reflexivity|]. intros a w' E. injection E as _ <-. done.
  - simpl. eapply triple_bind; [apply H; left|]. intros ?. apply IH.
    intros y Hy. apply H. by right.
Qed.

Lemma triple_try_except {A} I (m : M A) J (h : Exn -> M A) :
  triple R I m J -> (forall e, keeps R (h e)) ->
  triple R I (try_except m h) (fun _ _ => True).
Proof.
  intros Hm Hh w Hw. destruct (Hm w Hw) as [HR _]. unfold try_except.
  split; [|done]. destruct (m w) as [a w1|e w1]; simpl in *; [done|].
  etrans; [exact HR|apply Hh].
Qed.

Lemma triple_relation {A} I (m : M A) J w :
  triple R I m J -> I w -> R w (world_of (m w)).
Proof. intros H Hw. apply (H w Hw). Qed.

End Triples.

Lemma keeps_both R1 R2 {A} (m : M A) : keeps R1 m -> keeps R2 m -> keeps (both R1 R2) m.
Proof. intros H1 H2 w. split; [apply H1|apply H2]. Qed.

#[global] Instance payload_kept_preorder : PreOrder payload_kept.
Proof.
  split.
  - by intros o.
  - intros a b c (?&?&?) (?&?&?). unfold payload_kept. repeat split; congruence.
Qed.

#[global] Instance via_payload_kept_frame : Frame (via_objects payload_kept).
Proof.
  apply via_objects_frame; [apply _|]. intros o o' (Ht & _ & Hd & Hm & _). by split.
Qed.

(** A state change that leaves the objects alone. *)
Lemma keeps_objects_modify OR `{!Reflexive OR} f :
  (forall w, objects (scene (f w)) = objects (scene w)) -> keeps (via_objects OR) (modify f).
Proof.
  intros H. apply keeps_modify. intros w. unfold via_objects. rewrite H.
  intros n. by destruct (objects (scene w) !! n); constructor.
Qed.

Lemma keeps_objects_update OR `{!Reflexive OR} n f :
  (forall o, OR o (f o)) -> keeps (via_objects OR) (update_object n f).
Proof.
  intros H. unfold update_object. apply keeps_modify. intros w. unfold via_objects.
  rewrite scene_with_scene, objects_set_objects. by apply objects_related_alter.
Qed.

Lemma keeps_to_triple R {A} I (m : M A) : keeps R m -> triple R I m (fun _ _ => True).
Proof. intros H w _. split; [apply H|done]. Qed.

Lemma triple_gets_same R `{!PreOrder R} {A} I (f : World -> A) :
  triple R I (gets f) (fun _ w => I w).
Proof. intros w Hw. split; [reflexivity|]. intros a w' E. injection E as _ <-. done. Qed.

Lemma object_names_related OR w w' :
  via_objects OR w w' -> object_names (objects (scene w')) = object_names (objects (scene w)).
Proof.
  intros H. apply object_names_dom. intros n. specialize (H n).
  inversion H; split; intros [? ?]; by (eexists || congruence).
Qed.

Lemma data_related OR w w' n :
  via_objects OR w w' -> (forall o o', OR o o' -> ob_data o' = ob_data o) ->
  data_at n w' = data_at n w.
Proof.
  intros H HOR. unfold data_at. specialize (H n). inversion H; simpl; [|done].
  by apply HOR.
Qed.

Lemma object_users_related OR w w' d :
  via_objects OR w w' -> (forall o o', OR o o' -> ob_data o' = ob_data o) ->
  object_users (objects (scene w')) d = object_users (objects (scene w)) d.
Proof.
  intros H HOR. unfold object_users. rewrite (object_names_related OR w w' H).
  apply filter_ext_in. intros n _.
  change ((objects (scene w') !! n) ≫= ob_data) with (data_at n w').
  by rewrite (data_related OR w w' n H HOR).
Qed.

Lemma proj_at_related {X} (f : Object -> X) OR w w' n :
  via_objects OR w w' -> (forall o o', OR o o' -> f o' = f o) ->
  proj_at f n w' = proj_at f n w.
Proof.
  intros H HOR. unfold proj_at. specialize (H n). inversion H; simpl; [|done].
  f_equal. by apply HOR.
Qed.

Lemma shared_pair_stable a b d k w w' :
  shared_pair a b d k w ->
  both (via_objects payload_kept) (same datablocks_of) w w' ->
  shared_pair a b d k w'.
Proof.
  intros (Hwf & Hu & Ha & Hb & Hc) [Hrel Hdb].
  assert (Hdata : forall o o', payload_kept o o' -> ob_data o' = ob_data o) by (by intros ? ? (?&?&?)).
  assert (Htype : forall o o', payload_kept o o' -> ob_type o' = ob_type o) by (by intros ? ? (?&?&?)).
  split; [|split; [|split; [|split]]].
  - intros n o' x Hn Hx.
    pose proof (Hrel n) as Hr. rewrite Hn in Hr. inversion Hr as [o ? Hk|]; subst.
    unfold same, datablocks_of in Hdb. rewrite Hdb. apply (Hwf n o x); [done|].
    rewrite <- Hx. symmetry. by apply Hdata.
  - by rewrite (object_users_related _ _ _ _ Hrel Hdata).
  - by rewrite (proj_at_related _ _ _ _ _ Hrel Htype).
  - by rewrite (proj_at_related _ _ _ _ _ Hrel Htype).
  - rewrite <- Hc. apply census_ext. intros m _. specialize (Hrel m).
    inversion Hrel as [o o' (_&_&Hm)|]; simpl; [|done]. unfold enabled_modifiers. by rewrite Hm.
Qed.

Lemma uniquified_pair_stable a b d k w w' :
  uniquified_pair a b d k w ->
  both (via_objects mesh_kept) (same shared_data) w w' ->
  uniquified_pair a b d k w'.
Proof.
  intros (Hnd & Hkeys & Hb & Htb & Hdb & Hcase) [Hrel Hsh]. unfold same in Hsh.
  assert (Hmesh : forall n x, proj_at ob_type n w = Some MESH -> data_at n w = Some x ->
            proj_at ob_type n w' = Some MESH /\ data_at n w' = Some x).
  { intros n x Ht Hx. unfold proj_at, data_at in *.
    destruct (objects (scene w) !! n) as [o|] eqn:Ho; [|done].
    destruct (via_objects_lookup _ _ _ _ _ Hrel Ho) as (o' & Ho' & Hk).
    rewrite Ho'. simpl in *. injection Ht as Ht. destruct (Hk Ht) as [-> ->]. done. }
  unfold uniquified_pair. rewrite Hsh.
  split; [done|]. split.
  { intros m x Hin. destruct (Hkeys m x Hin) as [o Ho].
    destruct (via_objects_lookup _ _ _ _ _ Hrel Ho) as (o' & Ho' & _). by eexists. }
  split; [done|]. destruct (Hmesh b d Htb Hdb) as [Htb' Hdb'].
  split; [done|]. split; [done|].
  destruct (decide (k = 0)); [done|].
  destruct Hcase as (Ha & Hta & d' & Hda & Hne).
  destruct (Hmesh a d' Hta Hda) as [Hta' Hda']. split; [done|]. split; [done|]. by exists d'.
Qed.

Lemma pair_data_stable a b d k w w' :
  pair_data a b d k (scene w) -> via_objects payload_kept w w' -> pair_data a b d k (scene w').
Proof.
  intros [Hb Ha] Hrel.
  assert (Hdata : forall o o', payload_kept o o' -> ob_data o' = ob_data o) by (by intros ? ? (?&?&?)).
  unfold pair_data. fold (data_at b w') (data_at a w') (data_at b w) (data_at a w) in *.
  by rewrite !(data_related _ _ _ _ Hrel Hdata).
Qed.

(** *** What the steps of the driver keep *)

Ltac keeps_plain :=
  repeat first
    [ keeps_step
    | solve [eauto with keeps]
    | apply keeps_modify; intros ?;
      first [ reflexivity
            | unfold via_objects; simpl; reflexivity ] ].

Lemma keeps_payload_update_object n f :
  (forall o, payload_kept o (f o)) -> keeps (via_objects payload_kept) (update_object n f).
Proof. intros H. by apply keeps_objects_update; [apply _|]. Qed.

#[global] Instance cosmetic_preorder : PreOrder cosmetic.
Proof.
  split.
  - intros o. by repeat split.
  - intros a b c (?&?&?&?&?&?&?) (?&?&?&?&?&?&?). unfold cosmetic. repeat split; congruence.
Qed.

Lemma via_cosmetic OR `{!PreOrder OR} f w :
  (forall o o', cosmetic o o' -> OR o o') ->
  objects_related cosmetic (objects (scene w)) (objects (f (scene w))) ->
  via_objects OR w (with_scene f w).
Proof. intros H Ho. unfold via_objects. by eapply objects_related_mono. Qed.

Lemma via_unchanged OR `{!PreOrder OR} w w' : scene w' = scene w -> via_objects OR w w'.
Proof. intros H. unfold via_objects. rewrite H. reflexivity. Qed.

Section DriverKeeps.
Context (S : relation World) `{!PreOrder S}.
(** [S] tolerates every change of the world that leaves the datablocks as
    they are and makes cosmetic changes to the objects. *)
Context (S_scene : forall f w,
  datablocks (f (scene w)) = datablocks (scene w) ->
  objects_related cosmetic (objects (scene w)) (objects (f (scene w))) ->
  S w (with_scene f w)).
Context (S_other : forall w w', scene w' = scene w -> S w w').

Lemma driver_update_object n f :
  (forall o, cosmetic o (f o)) -> keeps S (update_object n f).
Proof.
  intros H. unfold update_object. apply keeps_modify. intros w. apply S_scene; [done|].
  rewrite objects_set_objects. by apply objects_related_alter; [apply _|].
Qed.

Lemma driver_view_layer_update : keeps S view_layer_update.
Proof.
  unfold view_layer_update. apply keeps_modify. intros w. apply S_scene; [done|].
  unfold update_world_matrices. rewrite objects_set_objects.
  apply objects_related_fmap. by intros [].
Qed.

Lemma driver_print o : keeps S (print o).
Proof. unfold print. apply keeps_modify. intros w. by apply S_other. Qed.

Lemma driver_record_call c : keeps S (record_call c).
Proof. unfold record_call. apply keeps_modify. intros w. by apply S_other. Qed.

#[local] Hint Resolve driver_view_layer_update driver_print driver_record_call : keeps.

Lemma driver_bpy_ops op : keeps S op -> keeps S (bpy_ops op).
Proof. intros H. unfold bpy_ops. keeps_plain. Qed.

Lemma driver_undo_push msg : keeps S (undo_push msg).
Proof.
  unfold undo_push. apply driver_bpy_ops. keeps_plain.
  apply keeps_modify. intros w. by apply S_other.
Qed.

Lemma driver_reset_globals : keeps S reset_globals.
Proof.
  unfold reset_globals. keeps_plain; apply keeps_modify; intros w; by apply S_other.
Qed.

Lemma driver_mode_set_object : keeps S mode_set_object.
Proof.
  unfold mode_set_object. apply driver_bpy_ops. keeps_plain.
  apply keeps_modify. intros w. apply S_scene; [done|]. reflexivity.
Qed.

Lemma driver_unhide_all_collections : keeps S unhide_all_collections.
Proof.
  unfold unhide_all_collections. keeps_plain.
  - apply keeps_modify. intros w. apply S_scene; [done|]. reflexivity.
  - apply keeps_modify. intros w. by apply S_other.
  - apply keeps_modify. intros w. by apply S_other.
Qed.

Lemma driver_unhide_objects : keeps S unhide_objects.
Proof.
  unfold unhide_objects. keeps_plain.
  - apply keeps_modify. intros w. by apply S_other.
  - by apply driver_update_object.
  - apply keeps_modify. intros w. by apply S_other.
  - by apply driver_update_object.
Qed.

Lemma driver_select_all_deselect : keeps S select_all_deselect.
Proof.
  unfold select_all_deselect. apply driver_bpy_ops. keeps_plain.
  apply keeps_modify. intros w. apply S_scene; [done|]. rewrite objects_set_objects.
  apply objects_related_fmap. intros o. by destruct (in_view_layer o).
Qed.

Lemma driver_select_set n b : keeps S (select_set n b).
Proof. unfold select_set. keeps_plain. by apply driver_update_object. Qed.

End DriverKeeps.

#[global] Instance payloads_kept_preorder : PreOrder payloads_kept.
Proof. unfold payloads_kept. apply _. Qed.

Lemma cosmetic_payload_kept o o' : cosmetic o o' -> payload_kept o o'.
Proof. by intros (?&?&?&?&?). Qed.

Lemma payloads_kept_scene f w :
  datablocks (f (scene w)) = datablocks (scene w) ->
  objects_related cosmetic (objects (scene w)) (objects (f (scene w))) ->
  payloads_kept w (with_scene f w).
Proof.
  intros Hd Ho. split; [|done]. apply via_cosmetic; [apply _| |done].
  apply cosmetic_payload_kept.
Qed.

Lemma payloads_kept_other w w' : scene w' = scene w -> payloads_kept w w'.
Proof.
  intros H. split.
  - unfold via_objects. rewrite H. reflexivity.
  - unfold same, datablocks_of. by rewrite H.
Qed.

Lemma via_payload_kept_scene f w :
  datablocks (f (scene w)) = datablocks (scene w) ->
  objects_related cosmetic (objects (scene w)) (objects (f (scene w))) ->
  via_objects payload_kept w (with_scene f w).
Proof.
  intros _ Ho. apply via_cosmetic; [apply _| |done]. apply cosmetic_payload_kept.
Qed.

Lemma via_payload_kept_other w w' : scene w' = scene w -> via_objects payload_kept w w'.
Proof. intros H. unfold via_objects. rewrite H. reflexivity. Qed.

Lemma keeps_shared_reset_tail :
  keeps (same shared_data) unhide_all_collections
  /\ keeps (same shared_data) unhide_objects.
Proof.
  split.
  - unfold unhide_all_collections. keeps_field.
  - unfold unhide_objects. keeps_field.
Qed.

Lemma objects_related_alter_at OR `{!Reflexive OR} n f (objs : gmap string Object) o :
  objs !! n = Some o -> OR o (f o) -> objects_related OR objs (alter f n objs).
Proof.
  intros Hn H m. destruct (decide (n = m)) as [->|Hne].
  - rewrite lookup_alter_eq, Hn. by constructor.
  - rewrite lookup_alter_ne by done. by destruct (objs !! m); constructor.
Qed.

Lemma keeps_mesh_kept_convert_object n : keeps (via_objects mesh_kept) (convert_object n).
Proof.
  intros w. unfold convert_object, bind, get_object.
  destruct (objects (scene w) !! n) as [o|] eqn:Hn; [|reflexivity].
  destruct (ob_type o) eqn:Ht; try reflexivity; simpl; unfold via_objects; simpl;
    (eapply objects_related_alter_at; [apply _|exact Hn|]); intros Hm; try congruence.
  by split.
Qed.

Lemma keeps_mesh_kept_convert_to_mesh : keeps (via_objects mesh_kept) convert_to_mesh.
Proof.
  unfold convert_to_mesh. apply keeps_bpy_ops; [apply _|].
  pose proof keeps_mesh_kept_convert_object. keeps_frame.
Qed.

Lemma keeps_mesh_kept_apply_object_modifiers :
  keeps (via_objects mesh_kept) apply_object_modifiers.
Proof.
  unfold apply_object_modifiers. pose proof keeps_mesh_kept_convert_to_mesh. keeps_frame.
Qed.

Section PairRun.
Context (P : Params -> Scene -> Prop) (a b : string) (d : DataId) (k : nat).

#[local] Abbreviation R := (exports_satisfy P).

Lemma exports_make_single_user_data : keeps R make_single_user_data.
Proof.
  pose proof (exports_update_object P). pose proof (exports_data_copy P).
  unfold make_single_user_data. keeps_exports.
Qed.

Lemma exports_apply_object_modifiers : keeps R apply_object_modifiers.
Proof.
  pose proof (exports_convert_to_mesh P).
  unfold apply_object_modifiers. keeps_exports.
Qed.

Lemma exports_reset_globals : keeps R reset_globals.
Proof. unfold reset_globals. keeps_exports. Qed.

Lemma exports_unhide_all_collections : keeps R unhide_all_collections.
Proof. unfold unhide_all_collections. keeps_exports. Qed.

Lemma exports_unhide_objects : keeps R unhide_objects.
Proof. pose proof (exports_update_object P). unfold unhide_objects. keeps_exports. Qed.

(** The uniquifier on the pair. *)
Lemma triple_make_single_user_data :
  triple R (fun w => shared_pair a b d k w /\ shared_data w = [])
         make_single_user_data (fun _ w => uniquified_pair a b d k w).
Proof.
  intros w [(Hwf & Hu & Hta & Htb & Hc) Hsh]. split; [apply exports_make_single_user_data|].
  intros [] w' Hrun.
  destruct (make_single_user_data_run w Hwf Hsh) as (w'' & Hrun' & Hinv).
  rewrite Hrun in Hrun'. injection Hrun' as <-.
  destruct (uniquified_holders w w' d [a] b Hwf Hu Hinv)
    as (Hfront & (ob & Hob & Hob' & Hdb) & Hlastkey & Hrec1 & Hrec2 & Husers').
  destruct Hinv as (Hnames & _ & _ & _ & Hdone & Hshared & Hkeys).
  destruct (Hfront a) as (oa & d' & Hoa & Hoa' & Hne & _); [left|].
  unfold uniquified_pair.
  split; [done|]. split.
  { intros m x Hin. apply Hshared in Hin as [Hm _]. rewrite <- Hnames in Hm.
    by apply elem_of_object_names in Hm. }
  split; [done|]. split.
  { unfold proj_at in *. rewrite Hob'. by rewrite Hob in Htb. }
  split; [by rewrite (data_at_lookup b w' ob Hob')|].
  assert (Hrec : recorded (objects (scene w)) oa [a; b] = (k =? 0)).
  { unfold recorded. unfold proj_at in Hta. rewrite Hoa in Hta. injection Hta as Hta.
    rewrite bool_decide_eq_true_2 by done. by rewrite Hc. }
  destruct (decide (k = 0)) as [->|Hk].
  - apply (Hrec2 a oa [] [b]); [left|done|done|done].
  - split; [|split].
    + intros ([m x] & E & Hin)%list_elem_of_fmap. simpl in E. subst m.
      pose proof Hin as Hin'. apply Hshared in Hin' as (_ & o & A & B & Ho & Hdo & _).
      assert (x = d) as ->.
      { rewrite Hoa in Ho. injection Ho as <-.
        assert (Hd : a ∈ object_users (objects (scene w)) d) by (rewrite Hu; left).
        rewrite object_users_holders in Hd. apply elem_of_holders in Hd as [Hd _].
        rewrite Hoa in Hd. simpl in Hd. congruence. }
      apply Hrec1 in Hin as (_ & o' & F1 & F2 & Ho' & HF & Hr).
      rewrite Hoa in Ho'. injection Ho' as <-.
      assert (F2 = [b]) as ->.
      { destruct F1 as [|f F1]; simpl in HF; [by injection HF|].
        injection HF as <- HF. destruct F1 as [|f' F1]; simpl in HF.
        - injection HF as ->. 
          assert (Hnd : NoDup [a; a]).
          { rewrite <- Hu. unfold object_users. apply NoDup_filter, NoDup_object_names. }
          apply NoDup_cons in Hnd as [Hnd _]. destruct Hnd. left.
        - injection HF as _ HF. by destruct F1. }
      rewrite Hrec in Hr. apply Nat.eqb_eq in Hr. done.
    + unfold proj_at in *. rewrite Hoa'. by rewrite Hoa in Hta.
    + exists d'. by rewrite (data_at_lookup a w' _ Hoa').
Qed.

Lemma shared_pair_stable_shared w w' :
  shared_pair a b d k w /\ shared_data w = [] ->
  both payloads_kept (same shared_data) w w' ->
  shared_pair a b d k w' /\ shared_data w' = [].
Proof.
  intros [Hp Hs] [Hk Hsh]. split; [by eapply shared_pair_stable|].
  unfold same in Hsh. congruence.
Qed.

Lemma triple_reset_globals :
  triple R (shared_pair a b d k) reset_globals
         (fun _ w => shared_pair a b d k w /\ shared_data w = []).
Proof.
  intros w Hw. split; [apply exports_reset_globals|]. intros [] w' E.
  injection E as <-. split; [|done]. eapply shared_pair_stable; [exact Hw|].
  by apply payloads_kept_other.
Qed.

Lemma triple_preparation :
  triple R (shared_pair a b d k) preparation (fun _ w => uniquified_pair a b d k w).
Proof.
  unfold preparation.
  eapply triple_bind; [apply _| |].
  { apply (triple_keeps R payloads_kept); [apply keeps_print; apply _| |apply shared_pair_stable].
    apply driver_print; auto using payloads_kept_other. }
  intros ?. eapply triple_bind; [apply _|apply triple_gets_same; apply _|]. intros s0.
  eapply triple_bind; [apply _| |].
  { apply (triple_keeps R payloads_kept); [apply exports_undo_push| |apply shared_pair_stable].
    apply driver_undo_push; auto using payloads_kept_other, payloads_kept_scene; apply _. }
  intros ?. eapply triple_bind; [apply _| |].
  { apply triple_reset_globals. }
  intros ?. eapply triple_bind; [apply _|apply triple_gets_same; apply _|]. intros s1.
  eapply triple_bind; [apply _| |].
  { apply triple_when; [apply _|].
    apply (triple_keeps R (both payloads_kept (same shared_data)));
      [apply exports_mode_set_object| |apply shared_pair_stable_shared].
    apply keeps_both; [|apply keeps_mode_set_object; apply _].
    apply driver_mode_set_object; auto using payloads_kept_other, payloads_kept_scene; apply _. }
  intros ?. eapply triple_bind; [apply _| |].
  { apply (triple_keeps R (both payloads_kept (same shared_data)));
      [apply exports_unhide_all_collections| |apply shared_pair_stable_shared].
    apply keeps_both; [|apply keeps_shared_reset_tail].
    apply driver_unhide_all_collections; auto using payloads_kept_other, payloads_kept_scene;
      apply _. }
  intros ?. eapply triple_bind; [apply _| |].
  { apply (triple_keeps R (both payloads_kept (same shared_data)));
      [apply exports_unhide_objects| |apply shared_pair_stable_shared].
    apply keeps_both; [|apply keeps_shared_reset_tail].
    apply driver_unhide_objects; auto using payloads_kept_other, payloads_kept_scene;
      apply _. }
  intros ?. eapply triple_bind; [apply _|apply triple_make_single_user_data|].
  intros ?. eapply triple_bind; [apply _| |].
  { apply (triple_keeps R (both (via_objects mesh_kept) (same shared_data)));
      [apply exports_apply_object_modifiers| |apply uniquified_pair_stable].
    apply keeps_both; [apply keeps_mesh_kept_apply_object_modifiers|].
    apply keeps_apply_object_modifiers; apply _. }
  intros ?. eapply triple_conseq; [apply triple_ret; apply _|done|]. by intros ? ? [_ ?].
Qed.

End PairRun.

Lemma export_scene_fbx_journal fbx params w :
  journal (world_of (export_scene_fbx fbx params w))
  = journal w ++ [CallExportFbx params (update_world_matrices (scene w))].
Proof.
  unfold export_scene_fbx, bpy_ops, bind, view_layer_update, modify, gets, record_call.
  simpl. by destruct (fbx params _).
Qed.

Section PairExport.
Context (a b : string) (d : DataId) (k : nat).

#[local] Abbreviation RP := (exports_satisfy (fun _ sc => pair_data a b d k sc)).

Lemma triple_export_scene_fbx fbx params :
  triple RP (fun w => pair_data a b d k (scene w)) (export_scene_fbx fbx params)
         (fun _ _ => True).
Proof.
  intros w Hw. split; [|done]. exists [CallExportFbx params (update_world_matrices (scene w))].
  split; [apply export_scene_fbx_journal|].
  intros p sc Hin%list_elem_of_singleton. injection Hin as -> ->.
  apply (pair_data_stable a b d k w (with_scene update_world_matrices w) Hw).
  by apply (keeps_view_layer_update (via_objects payload_kept) w).
Qed.

Lemma triple_restore_shared_data shared :
  triple RP (fun w => shared = shared_data w /\ uniquified_pair a b d k w)
         (for_each shared restore_step) (fun _ w => pair_data a b d k (scene w)).
Proof.
  intros w [-> (Hnd & Hkeys & Hb & Htb & Hdb & Hcase)].
  destruct (restore_loop (shared_data w) w Hnd Hkeys) as (objs' & Hrun & Hset & Hother & _).
  rewrite Hrun. split; [by apply exports_satisfy_same_journal|].
  intros [] w' E. injection E as <-. unfold pair_data.
  rewrite scene_with_scene, objects_set_objects. split.
  - by rewrite (Hother b Hb).
  - destruct (decide (k = 0)).
    + by apply Hset.
    + destruct Hcase as (Ha & _ & d' & Hda & Hne). exists d'. by rewrite (Hother a Ha).
Qed.

Lemma triple_protected_region fbx filepath kwargs roots selection :
  triple RP (uniquified_pair a b d k)
         (protected_region fbx filepath kwargs roots selection) (fun _ _ => True).
Proof.
  unfold protected_region.
  eapply triple_bind; [apply _| |intros ?].
  { apply (triple_keeps RP (both (via_objects mesh_kept) (same shared_data)));
      [| |apply uniquified_pair_stable]; keeps_frame. }
  eapply triple_bind; [apply _|apply triple_gets; apply _|intros shared].
  eapply triple_bind; [apply _|apply triple_restore_shared_data|intros ?].
  pose proof (exports_update_object (fun _ sc => pair_data a b d k sc)) as Hupd.
  assert (Hst : forall w w', pair_data a b d k (scene w) -> via_objects payload_kept w w' ->
                  pair_data a b d k (scene w')) by apply pair_data_stable.
  eapply triple_bind; [apply _| |intros ?].
  { apply (triple_keeps RP (via_objects payload_kept)); [| |exact Hst]; keeps_frame. }
  eapply triple_bind; [apply _|apply triple_gets_same; apply _|intros hidden].
  eapply triple_bind; [apply _| |intros ?].
  { apply (triple_keeps RP (via_objects payload_kept)); [| |exact Hst].
    - keeps_exports.
    - apply keeps_for_each; [apply _|]. intros n. by apply keeps_payload_update_object. }
  eapply triple_bind; [apply _|apply triple_gets_same; apply _|intros disabled].
  eapply triple_bind; [apply _| |intros ?].
  { apply (triple_keeps RP (via_objects payload_kept)); [| |exact Hst].
    - keeps_exports.
    - apply keeps_for_each; [apply _|]. intros n. by apply keeps_payload_update_object. }
  eapply triple_bind; [apply _|apply triple_gets_same; apply _|intros hidden_cols].
  eapply triple_bind; [apply _| |intros ?].
  { apply (triple_keeps RP (via_objects payload_kept)); [| |exact Hst].
    - keeps_exports.
    - apply keeps_for_each; [apply _|]. intros c. by apply keeps_objects_modify; [apply _|]. }
  eapply triple_bind; [apply _|apply triple_gets_same; apply _|intros disabled_cols].
  eapply triple_bind; [apply _| |intros ?].
  { apply (triple_keeps RP (via_objects payload_kept)); [| |exact Hst].
    - keeps_exports.
    - apply keeps_for_each; [apply _|]. intros c. by apply keeps_objects_modify; [apply _|]. }
  eapply triple_bind; [apply _| |intros ?].
  { apply (triple_keeps RP (via_objects payload_kept)); [| |exact Hst]; keeps_frame. }
  eapply triple_bind; [apply _| |intros ?].
  { apply (triple_keeps RP (via_objects payload_kept)); [| |exact Hst]; keeps_frame. }
  eapply triple_bind; [apply _| |intros ?].
  { apply (triple_keeps RP (via_objects payload_kept)); [| |exact Hst]; keeps_frame. }
  apply triple_export_scene_fbx.
Qed.

End PairExport.



(** ** More on the modifier baker *)

Lemma bakeable_deselected o :
  bakeable (if in_view_layer o then set_select false o else o) = bakeable o.
Proof. by destruct (in_view_layer o) eqn:E. Qed.

(** The baker up to the test of [convert.poll()]. *)
Lemma apply_object_modifiers_run w :
  exists objs2,
    (forall m, objs2 !! m
       = (fun o => if bool_decide (m ∈ object_names (objects (scene (deselected_world w))))
                      && bakeable o then set_select true o else o)
           <$> objects (scene (deselected_world w)) !! m)
    /\ apply_object_modifiers w
       = let w2 := with_scene (set_objects (fun _ => objs2)) (deselected_world w) in
         if convert_poll (scene w2)
         then (print (OutConverting (selected_objects objs2)) ;; convert_to_mesh) w2
         else Ok tt w2.
Proof.
  unfold apply_object_modifiers, bind at 1. rewrite select_all_deselect_run.
  fold (deselected_world w). unfold bind at 1, gets. unfold bind at 1.
  change (for_each ?l _ (deselected_world w))
    with (for_each l select_step (deselected_world w)).
  destruct (select_loop (object_names (objects (scene (deselected_world w))))
              (deselected_world w)) as (objs2 & Hloop & Hobjs2).
  { apply NoDup_object_names. }
  { intros n. apply elem_of_object_names. }
  exists objs2. split; [exact Hobjs2|]. rewrite Hloop. cbv zeta.
  unfold bind at 1, gets. rewrite scene_with_scene, objects_set_objects.
  by destruct (convert_poll _).
Qed.

Lemma convert_poll_after_selection w (objs2 : gmap string Object) :
  (forall m, objs2 !! m
     = (fun o => if bool_decide (m ∈ object_names (objects (scene (deselected_world w))))
                    && bakeable o then set_select true o else o)
         <$> objects (scene (deselected_world w)) !! m) ->
  convert_poll (scene (with_scene (set_objects (fun _ => objs2)) (deselected_world w)))
  = conversion_available (scene w).
Proof.
  intros H2. unfold convert_poll, conversion_available.
  rewrite scene_with_scene.
  assert (Ha : active_object (set_objects (fun _ => objs2) (scene (deselected_world w)))
               = active_object (scene w)) by (by destruct w as [[]]).
  rewrite Ha. destruct (active_object (scene w)) as [n|]; [|done].
  rewrite objects_set_objects, H2.
  set (f := fun o1 : Object =>
              let o2 := if bakeable o1 then set_select true o1 else o1 in
              bool_decide (ob_data o2 <> None) && in_view_layer o2 && ob_select o2).
  pose proof (lookup_deselected_world f w n) as E.
  transitivity (default false (f <$> objects (scene (deselected_world w)) !! n)).
  { destruct (objects (scene (deselected_world w)) !! n) as [o1|] eqn:Ho1; [|done].
    rewrite bool_decide_eq_true_2 by (apply elem_of_object_names; by eexists). done. }
  rewrite E.
  - destruct (objects (scene w) !! n) as [o|]; [|done]. simpl. unfold f. cbv zeta.
    rewrite bakeable_deselected. unfold bakeable.
    destruct (in_view_layer o) eqn:Hv; simpl; [|by rewrite Hv, andb_false_r].
    destruct (has_armature_modifier o); simpl; rewrite ?Hv;
      by destruct (bool_decide (ob_data o <> None)).
  - intros x o. unfold f, bakeable. simpl. by destruct (in_view_layer o && _).
Qed.

Lemma keeps_stdout_convert_to_mesh : keeps (same stdout) convert_to_mesh.
Proof.
  unfold convert_to_mesh, bpy_ops, view_layer_update, record_call, convert_object,
    update_object.
  repeat first [keeps_step | apply keeps_modify; intros ?; reflexivity].
Qed.

Lemma substance_after_selection w (objs2 : gmap string Object) n :
  (forall m, objs2 !! m
     = (fun o => if bool_decide (m ∈ object_names (objects (scene (deselected_world w))))
                    && bakeable o then set_select true o else o)
         <$> objects (scene (deselected_world w)) !! m) ->
  substance <$> objs2 !! n = substance_at n w.
Proof.
  intros Hobjs2. unfold substance_at, proj_at. rewrite Hobjs2.
  pose proof (lookup_deselected_world substance w n (fun _ _ => eq_refl)) as E.
  rewrite <- option_fmap_compose.
  destruct (objects (scene (deselected_world w)) !! n) as [o1|] eqn:Ho1;
    destruct (objects (scene w) !! n) as [o|] eqn:Ho;
    cbn [fmap option_fmap option_map] in *; try done.
  injection E as E0 E1 E2 E3 E4. f_equal.
  transitivity (substance o1);
    [unfold compose; by destruct (bool_decide _ && bakeable o1)|].
  unfold substance. rewrite E0, E1, E2, E3, E4. by destruct (in_view_layer o).
Qed.


(** ** Computations that return *)

Lemma total_bind {A B} I (m : M A) J (k : A -> M B) K :
  total I m J -> (forall a, total (J a) (k a) K) -> total I (bind m k) K.
Proof.
  intros Hm Hk w Hw. destruct (Hm w Hw) as (a & w1 & E & Ha).
  destruct (Hk a w1 Ha) as (b & w2 & E' & Hb). exists b, w2. unfold bind. by rewrite E.
Qed.

Lemma total_conseq {A} (I I' : World -> Prop) (m : M A) (J J' : A -> World -> Prop) :
  total I' m J' -> (forall w, I w -> I' w) -> (forall a w, J' a w -> J a w) -> total I m J.
Proof.
  intros H HI HJ w Hw. destruct (H w (HI w Hw)) as (a & w' & E & Ha). exists a, w'. auto.
Qed.

Lemma total_ret {A} I (a : A) : total I (ret a) (fun _ w => I w).
Proof. intros w Hw. by exists a, w. Qed.

Lemma total_gets {A} I (f : World -> A) : total I (gets f) (fun _ w => I w).
Proof. intros w Hw. by exists (f w), w. Qed.

(** A step that returns and keeps a relation under which [I] is stable. *)
Lemma total_keeps {A} (S : relation World) I (m : M A) :
  (forall w, I w -> exists a w', m w = Ok a w') -> keeps S m ->
  (forall w w', I w -> S w w' -> I w') ->
  total I m (fun _ w => I w).
Proof.
  intros Hr HS Hst w Hw. destruct (Hr w Hw) as (a & w' & E). exists a, w'. split; [done|].
  apply (Hst w w' Hw). by eapply keeps_Ok.
Qed.

Lemma total_when I b m :
  total I m (fun _ w => I w) -> total I (when b m) (fun _ w => I w).
Proof. intros H. destruct b; [done|]. intros w Hw. by exists tt, w. Qed.

Lemma total_for_each {A} I (l : list A) body :
  (forall x, x ∈ l -> total I (body x) (fun _ w => I w)) ->
  total I (for_each l body) (fun _ w => I w).
Proof.
  induction l as [|x l IH]; intros H.
  - intros w Hw. by exists tt, w.
  - simpl. eapply total_bind; [apply H; left|]. intros ?. apply IH.
    intros y Hy. apply H. by right.
Qed.

Lemma data_wf_stable w w' : data_wf (scene w) -> payloads_kept w w' -> data_wf (scene w').
Proof.
  intros Hwf [Hrel Hdb] n o' x Hn Hx.
  pose proof (Hrel n) as Hr. rewrite Hn in Hr. inversion Hr as [o ? Hk|]; subst.
  unfold same, datablocks_of in Hdb. rewrite Hdb. apply (Hwf n o x); [done|].
  rewrite <- Hx. symmetry. by destruct Hk as (?&?&?).
Qed.

Lemma unhide_objects_returns w : exists w', unhide_objects w = Ok tt w'.
Proof.
  unfold unhide_objects, bind at 1, gets.
  set (l := filter _ _).
  destruct (for_each_ok (fun w' => forall n, n ∈ l -> is_Some (objects (scene w') !! n)) l
              (fun n => ob <- get_object n ;;
                 when (ob_hide ob) (
                   modify (with_hidden_objects (fun l => l ++ [n])) ;;
                   update_object n (set_hide false)) ;;
                 ob <- get_object n ;;
                 when (ob_hide_viewport ob) (
                   modify (with_disabled_objects (fun l => l ++ [n])) ;;
                   update_object n (set_hide_viewport false))) w) as (w' & E & _).
  - intros n w1 Hn Hinv. destruct (Hinv n Hn) as [o Ho].
    unfold bind at 1. rewrite (get_object_run n w1 o Ho).
    set (w2 := world_of (when (ob_hide o)
                  (modify (with_hidden_objects (fun l => l ++ [n])) ;;
                   update_object n (set_hide false)) w1)).
    assert (E2 : when (ob_hide o)
                  (modify (with_hidden_objects (fun l => l ++ [n])) ;;
                   update_object n (set_hide false)) w1 = Ok tt w2)
      by (unfold w2; by destruct (ob_hide o)).
    assert (Hdom2 : forall m, is_Some (objects (scene w2) !! m)
                      <-> is_Some (objects (scene w1) !! m)).
    { intros m. unfold w2. destruct (ob_hide o); simpl; [|done].
      by rewrite lookup_alter_is_Some. }
    unfold bind at 1. rewrite E2.
    destruct (proj2 (Hdom2 n) (Hinv n Hn)) as [o2 Ho2].
    unfold bind at 1. rewrite (get_object_run n w2 o2 Ho2).
    destruct (ob_hide_viewport o2); simpl.
    + eexists. split; [reflexivity|]. intros m Hm. simpl.
      rewrite lookup_alter_is_Some. apply Hdom2. by apply Hinv.
    + eexists. split; [reflexivity|]. intros m Hm. apply Hdom2. by apply Hinv.
  - intros n [_ Hn]%list_elem_of_filter. by apply elem_of_object_names.
  - by exists w'.
Qed.

Lemma apply_object_modifiers_returns w : exists w', apply_object_modifiers w = Ok tt w'.
Proof.
  destruct (apply_object_modifiers_run w) as (objs2 & _ & Hrun). rewrite Hrun. cbv zeta.
  destruct (convert_poll _); [|by eexists].
  unfold bind at 1, print, modify.
  destruct (convert_to_mesh_run (with_stdout (fun l => l ++ [OutConverting (selected_objects objs2)])
              (with_scene (set_objects (fun _ => objs2)) (deselected_world w))))
    as (w4 & Hrun4 & _).
  by exists w4.
Qed.

(** The preparation returns in every scene whose objects hold datablocks
    that exist. *)
Lemma preparation_returns w :
  data_wf (scene w) -> exists prepared w1, preparation w = Ok prepared w1.
Proof.
  intros Hwf.
  assert (H : total (fun w => data_wf (scene w)) preparation (fun _ _ => True));
    [|destruct (H w Hwf) as (a & w1 & E & _); by exists a, w1].
  assert (Hst : forall w w', data_wf (scene w) /\ shared_data w = [] ->
            both payloads_kept (same shared_data) w w' ->
            data_wf (scene w') /\ shared_data w' = []).
  { intros w0 w0' [H1 H2] [H3 H4]. split; [by eapply data_wf_stable|].
    unfold same in H4. congruence. }
  unfold preparation.
  eapply total_bind.
  { apply (total_keeps payloads_kept); [by eexists _, _| |apply data_wf_stable].
    apply driver_print; auto using payloads_kept_other. }
  intros ?. eapply total_bind; [apply total_gets|]. intros s0.
  eapply total_bind.
  { apply (total_keeps payloads_kept); [by eexists _, _| |apply data_wf_stable].
    apply driver_undo_push; auto using payloads_kept_other, payloads_kept_scene; apply _. }
  intros ?. eapply total_bind.
  { instantiate (1 := fun _ w => data_wf (scene w) /\ shared_data w = []).
    intros w0 Hw0. eexists _, _. split; [reflexivity|]. by destruct w0. }
  intros ?. eapply total_bind; [apply total_gets|]. intros s1.
  eapply total_bind.
  { apply total_when.
    apply (total_keeps (both payloads_kept (same shared_data))); [by eexists _, _| |exact Hst].
    apply keeps_both; [|apply keeps_mode_set_object; apply _].
    apply driver_mode_set_object; auto using payloads_kept_other, payloads_kept_scene; apply _. }
  intros ?. eapply total_bind.
  { apply (total_keeps (both payloads_kept (same shared_data))); [| |exact Hst].
    - intros w0 _. unfold unhide_all_collections, bind at 1, gets.
      destruct (unhide_collections [] _) as [col' [hidden disabled]]. by eexists _, _.
    - apply keeps_both; [|apply keeps_shared_reset_tail].
      apply driver_unhide_all_collections;
        auto using payloads_kept_other, payloads_kept_scene; apply _. }
  intros ?. eapply total_bind.
  { apply (total_keeps (both payloads_kept (same shared_data))); [| |exact Hst].
    - intros w0 _. destruct (unhide_objects_returns w0) as [w' E]. by exists tt, w'.
    - apply keeps_both; [|apply keeps_shared_reset_tail].
      apply driver_unhide_objects; auto using payloads_kept_other, payloads_kept_scene;
        apply _. }
  intros ?. eapply total_bind.
  { instantiate (1 := fun _ _ => True). intros w0 [H1 H2].
    destruct (make_single_user_data_run w0 H1 H2) as (w' & E & _). by exists tt, w'. }
  intros ?. eapply total_bind.
  { instantiate (1 := fun _ _ => True). intros w0 _.
    destruct (apply_object_modifiers_returns w0) as [w' E]. by exists tt, w'. }
  intros ?. apply total_ret.
Qed.

Lemma restore_scene_stack w snapshot older :
  undo_stack w = update_world_matrices snapshot :: older ->
  exists w', restore_scene w = Ok tt w'
    /\ scene w' = update_world_matrices snapshot
    /\ undo_stack w'
       = update_world_matrices snapshot :: update_world_matrices snapshot :: older
    /\ journal w' = journal w ++ [CallUndoPush ""; CallUndo; CallUndoPush "Export Unity FBX"].
Proof.
  intros Hst. destruct w; simpl in *. subst. eexists. split; [reflexivity|].
  simpl. rewrite !update_world_matrices_idemp. by rewrite <- !app_assoc.
Qed.

Lemma grows_protected_region fbx filepath kwargs roots selection :
  keeps grows (protected_region fbx filepath kwargs roots selection).
Proof.
  unfold grows. pose proof (exports_update_object (fun _ _ => True)).
  unfold protected_region. keeps_exports. by apply exports_export_scene_fbx.
Qed.

(** X2.  In a scene whose objects hold datablocks that exist, and with
    keyword arguments that do not name a positional parameter,
    [export_unity_fbx] never raises: it returns [FINISHED], whatever the
    transform rewriter and the serializer do.  The scene it leaves is the
    scene it was given, with its world matrices evaluated; the undo stack
    has two more steps, both that scene; and the last three operator calls
    are the undo push, the undo and the undo push of the rollback. *)
Theorem export_returns_finished fbx filepath kwargs w :
  kwargs !! "filepath" = None -> kwargs !! "context" = None ->
  data_wf (scene w) ->
  exists w',
    export_unity_fbx fbx filepath kwargs w = Ok FINISHED w'
    /\ scene w' = update_world_matrices (scene w)
    /\ undo_stack w'
       = update_world_matrices (scene w) :: update_world_matrices (scene w) :: undo_stack w
    /\ exists calls,
         journal w' = journal w ++ calls
                        ++ [CallUndoPush ""; CallUndo; CallUndoPush "Export Unity FBX"].
Proof.
  intros Hf Hc Hwf.
  destruct (preparation_returns w Hwf) as ([roots selection] & w1 & Hprep).
  pose proof (preparation_snapshot _ _ _ _ Hprep) as Hsnap.
  assert (Hg1 : grows w w1).
  { eapply (keeps_Ok grows); [|exact Hprep]. apply exports_preparation. }
  unfold export_unity_fbx.
  rewrite bool_decide_eq_false_2
    by (rewrite Hf, Hc; intros [[? [=]]|[? [=]]]).
  unfold bind at 1. rewrite Hprep. unfold bind at 1, try_except, bind at 1.
  pose proof (grows_protected_region fbx filepath kwargs roots selection w1) as Hg2.
  destruct (protected_region fbx filepath kwargs roots selection w1) as [[] w2|e w2] eqn:Hreg.
  - pose proof (keeps_Ok _ _ _ _ _ (keeps_undo_protected_region _ _ _ _ _) Hreg) as Hst.
    unfold same in Hst. rewrite Hsnap in Hst.
    destruct (restore_scene_stack _ _ _ Hst) as (w3 & Hr & Hsc & Hstack & Hj).
    simpl. unfold bind at 1. rewrite Hr. eexists. split; [reflexivity|].
    split; [exact Hsc|]. split; [exact Hstack|]. simpl.
    destruct Hg1 as (l1 & H1 & _). destruct Hg2 as (l2 & H2 & _). simpl in H2.
    exists (l1 ++ l2). rewrite Hj, H2, H1. by rewrite <- !app_assoc.
  - pose proof (keeps_Raise _ _ _ _ _ (keeps_undo_protected_region _ _ _ _ _) Hreg) as Hst.
    unfold same in Hst. rewrite Hsnap in Hst.
    destruct (restore_scene_stack _ _ _ Hst) as (w3 & Hr & Hsc & Hstack & Hj).
    unfold on_exception, bind at 1, bind at 1. rewrite Hr.
    eexists. split; [reflexivity|]. simpl.
    split; [exact Hsc|]. split; [exact Hstack|].
    destruct Hg1 as (l1 & H1 & _). destruct Hg2 as (l2 & H2 & _). simpl in H2.
    exists (l1 ++ l2). rewrite Hj, H2, H1. by rewrite <- !app_assoc.
Qed.

Lemma export_returns_finished_witness :
  exists w',
    export_unity_fbx Samples.fbx_writes "out.fbx" Samples.kwargs_scale_none
      Samples.hierarchy_world = Ok FINISHED w'
    /\ scene w' = update_world_matrices Samples.hierarchy
    /\ undo_stack w'
       = [update_world_matrices Samples.hierarchy; update_world_matrices Samples.hierarchy].
Proof.
  destruct (export_returns_finished Samples.fbx_writes "out.fbx" Samples.kwargs_scale_none
              Samples.hierarchy_world) as (w' & Hrun & Hsc & Hst & _).
  - reflexivity.
  - reflexivity.
  - apply data_wfb_spec. vm_compute. reflexivity.
  - exists w'. exact (conj Hrun (conj Hsc Hst)).
Defined.

(** ** Single-user data *)

Lemma two_holders objs x m m' :
  (objs !! m) ≫= ob_data = Some x -> (objs !! m') ≫= ob_data = Some x -> m <> m' ->
  1 < length (object_users objs x).
Proof.
  intros Hm Hm' Hne.
  assert (Hin : forall k, (objs !! k) ≫= ob_data = Some x -> k ∈ object_users objs x).
  { intros k Hk. rewrite object_users_holders. apply elem_of_holders. split; [done|].
    apply elem_of_object_names. destruct (objs !! k); [by eexists|done]. }
  pose proof (Hin m Hm) as H1. pose proof (Hin m' Hm') as H2.
  destruct (object_users objs x) as [|a [|b r]]; simpl; [by apply elem_of_nil in H1| |lia].
  apply list_elem_of_singleton in H1, H2. congruence.
Qed.

Lemma single_holder objs x :
  (forall m m', (objs !! m) ≫= ob_data = Some x -> (objs !! m') ≫= ob_data = Some x -> m = m') ->
  length (object_users objs x) <= 1.
Proof.
  intros H. pose proof (NoDup_holders objs x _ (NoDup_object_names objs)) as Hnd.
  rewrite <- object_users_holders in Hnd.
  destruct (object_users objs x) as [|a [|b r]] eqn:E; simpl; [lia|lia|]. exfalso.
  assert (Ha : a ∈ object_users objs x) by (rewrite E; left).
  assert (Hb : b ∈ object_users objs x) by (rewrite E; right; left).
  rewrite object_users_holders in Ha, Hb.
  apply elem_of_holders in Ha as [Ha _]. apply elem_of_holders in Hb as [Hb _].
  pose proof (H a b Ha Hb) as ->. apply NoDup_cons in Hnd as [Hnd _]. apply Hnd. left.
Qed.

Lemma single_users_step l P n B w :
  l = P ++ n :: B -> NoDup l ->
  single_users_upto l P w ->
  exists w', single_user_step n w = Ok tt w' /\ single_users_upto l (P ++ [n]) w'.
Proof.
  intros Hl Hnd (Hwf & Hnames & Hpairs).
  assert (Hnl : n ∈ object_names (objects (scene w))).
  { rewrite Hnames, Hl. apply elem_of_app. right. left. }
  apply elem_of_object_names in Hnl as [o Hn].
  assert (Hkeep : (forall x m m',
            (objects (scene w) !! m) ≫= ob_data = Some x ->
            (objects (scene w) !! m') ≫= ob_data = Some x ->
            m <> m' -> m <> n /\ m' <> n) ->
          single_users_upto l (P ++ [n]) w).
  { intros Hn2. split; [done|]. split; [done|]. intros x m m' Hm Hm' Hne.
    destruct (Hn2 x m m' Hm Hm' Hne) as [H1 H2].
    destruct (Hpairs x m m' Hm Hm' Hne) as [H|H]; [left|right];
      intros [?|?%list_elem_of_singleton]%elem_of_app; done. }
  destruct (ob_data o) as [d|] eqn:Hd.
  - destruct (Hwf n o d Hn Hd) as [db Hdb].
    rewrite (single_user_step_run n w o d db Hn Hd Hdb).
    destruct (1 <? length (object_users (objects (scene w)) d)) eqn:Hlen.
    + cbv zeta. set (d' := fresh (dom (datablocks (scene w)))).
      set (w1 := if recorded _ _ _ then _ else _).
      assert (Hs1 : scene w1 = scene w) by (unfold w1; by destruct (recorded _ _ _)).
      clearbody w1.
      assert (Hfresh : datablocks (scene w) !! d' = None) by apply fresh_datablock.
      eexists. split; [reflexivity|]. unfold single_users_upto, data_wf.
      rewrite !scene_with_scene, objects_set_objects, objects_set_datablocks,
        datablocks_set_objects, datablocks_set_datablocks, Hs1.
      assert (Hold : forall m x, m <> n ->
                (alter (set_data (Some d')) n (objects (scene w)) !! m) ≫= ob_data = Some x ->
                (objects (scene w) !! m) ≫= ob_data = Some x /\ x <> d').
      { intros m x Hne Hm. rewrite lookup_alter_ne in Hm by done. split; [done|].
        intros ->. destruct (objects (scene w) !! m) as [om|] eqn:Hom; [|done].
        destruct (Hwf m om d' Hom Hm) as [? ?]. congruence. }
      assert (Hnew : forall x,
                (alter (set_data (Some d')) n (objects (scene w)) !! n) ≫= ob_data = Some x ->
                x = d').
      { intros x Hx. rewrite lookup_alter_eq, Hn in Hx. simpl in Hx. congruence. }
      split; [|split].
      * intros m om x Hm Hx. apply lookup_insert_is_Some.
        destruct (decide (m = n)) as [->|Hne].
        -- left. symmetry. apply Hnew. by rewrite Hm.
        -- right. destruct (Hold m x Hne) as [Hx' Hne']; [by rewrite Hm|].
           split; [done|]. destruct (objects (scene w) !! m) as [om'|] eqn:Hom; [|done].
           by eapply Hwf.
      * by rewrite object_names_alter.
      * intros x m m' Hm Hm' Hne.
        destruct (decide (m = n)) as [->|Hmn].
        { pose proof (Hnew x Hm) as ->.
          destruct (Hold m' d' (not_eq_sym Hne) Hm') as [_ ?]. done. }
        destruct (decide (m' = n)) as [->|Hmn'].
        { pose proof (Hnew x Hm') as ->. destruct (Hold m d' Hmn Hm) as [_ ?]. done. }
        destruct (Hold m x Hmn Hm) as [H1 _]. destruct (Hold m' x Hmn' Hm') as [H2 _].
        destruct (Hpairs x m m' H1 H2 Hne) as [H|H]; [left|right];
          intros [?|?%list_elem_of_singleton]%elem_of_app; done.
    + exists w. split; [done|]. apply Hkeep. intros x m m' Hm Hm' Hne.
      apply Nat.ltb_ge in Hlen.
      assert (x <> d).
      { intros ->. pose proof (two_holders _ _ _ _ Hm Hm' Hne). lia. }
      split; intros ->; rewrite Hn in *; simpl in *; congruence.
  - rewrite (single_user_step_none n w o Hn Hd). exists w. split; [done|].
    apply Hkeep. intros x m m' Hm Hm' Hne.
    split; intros ->; rewrite Hn in *; simpl in *; congruence.
Qed.

Lemma single_users_loop l rest :
  NoDup l ->
  forall P w, l = P ++ rest -> single_users_upto l P w ->
    exists w', for_each rest single_user_step w = Ok tt w' /\ single_users_upto l l w'.
Proof.
  intros Hnd. induction rest as [|n rest IH]; intros P w Hl Hinv.
  - rewrite app_nil_r in Hl. subst P. by exists w.
  - destruct (single_users_step l P n rest w Hl Hnd Hinv) as (w1 & Hstep & Hinv1).
    destruct (IH (P ++ [n]) w1) as (w' & Hrun & Hinv'); [by rewrite <- app_assoc|done|].
    exists w'. split; [|done]. by rewrite for_each_cons, Hstep.
Qed.

(** In a scene where no datablock has two holders the uniquifier changes
    nothing. *)
Lemma single_users_noop w :
  (forall d, length (object_users (objects (scene w)) d) <= 1) ->
  make_single_user_data w = Ok tt w.
Proof.
  intros Hsingle. rewrite make_single_user_data_unfold. unfold bind, gets.
  assert (H : forall l, (forall n, n ∈ l -> is_Some (objects (scene w) !! n)) ->
            for_each l single_user_step w = Ok tt w);
    [|apply H; intros n; apply elem_of_object_names].
  induction l as [|n l IH]; intros Hl; [done|].
  rewrite for_each_cons.
  assert (Hstep : single_user_step n w = Ok tt w).
  { destruct (Hl n) as [o Hn]; [left|].
    unfold single_user_step, bind at 1. rewrite (get_object_run n w o Hn).
    unfold bind at 1, gets. destruct (ob_data o) as [d|]; [|done].
    assert (Hlen : (1 <? length (object_users (objects (scene w)) d)) = false).
    { apply Nat.ltb_ge, Hsingle. }
    destruct (1 <? data_users (scene w) d); simpl; [|done]. by rewrite Hlen. }
  rewrite Hstep. apply IH. intros m Hm. apply Hl. by right.
Qed.

Lemma multi_user_single_users s n :
  (forall d, length (object_users (objects s) d) <= 1) -> multi_user s n = false.
Proof.
  intros H. unfold multi_user. destruct ((objects s !! n) ≫= ob_data) as [d|]; [|done].
  apply Nat.ltb_ge, H.
Qed.

(** X3.  In a scene whose objects hold datablocks that exist,
    [make_single_user_data] returns and leaves data with a single user: no
    datablock is held by two objects, whatever their kinds and modifiers, so
    that [transform_apply] finds no object with multi-user data.  A second
    run changes nothing. *)
Theorem make_single_user_data_single_users w :
  data_wf (scene w) ->
  exists w',
    make_single_user_data w = Ok tt w'
    /\ data_wf (scene w')
    /\ (forall d, length (object_users (objects (scene w')) d) <= 1)
    /\ (forall n, multi_user (scene w') n = false)
    /\ make_single_user_data w' = Ok tt w'.
Proof.
  intros Hwf. rewrite make_single_user_data_unfold. unfold bind at 1, gets.
  destruct (single_users_loop (object_names (objects (scene w)))
              (object_names (objects (scene w))) (NoDup_object_names _) [] w)
    as (w' & Hrun & Hwf' & Hnames & Hpairs); [done| |].
  { split; [done|]. split; [done|]. intros x m m' _ _ _. left. apply not_elem_of_nil. }
  assert (Hsingle : forall d, length (object_users (objects (scene w')) d) <= 1).
  { intros d. apply single_holder. intros m m' Hm Hm'.
    destruct (decide (m = m')) as [|Hne]; [done|]. exfalso.
    assert (Hin : forall k, (objects (scene w') !! k) ≫= ob_data = Some d ->
              k ∈ object_names (objects (scene w))).
    { intros k Hk. rewrite <- Hnames. apply elem_of_object_names.
      destruct (objects (scene w') !! k); [by eexists|done]. }
    destruct (Hpairs d m m' Hm Hm' Hne) as [H|H]; apply H; by apply Hin. }
  exists w'. split; [exact Hrun|]. split; [done|]. split; [done|].
  split; [intros n; by apply multi_user_single_users|].
  change (make_single_user_data w' = Ok tt w'). by apply single_users_noop.
Qed.

(** X4.  When no datablock is held by two objects, [make_single_user_data]
    changes nothing: it makes no copy and records nothing, also for a
    datablock that counts more than one user because of a fake user. *)
Theorem make_single_user_data_without_sharing w :
  (forall d, length (object_users (objects (scene w)) d) <= 1) ->
  make_single_user_data w = Ok tt w.
Proof. apply single_users_noop. Qed.

Lemma single_usersb_spec s :
  single_usersb s = true -> forall d, length (object_users (objects s) d) <= 1.
Proof.
  unfold single_usersb. intros H d. rewrite forallb_forall in H.
  destruct (object_users (objects s) d) as [|n r] eqn:E; [simpl; lia|].
  assert (Hn : n ∈ object_users (objects s) d) by (rewrite E; left).
  rewrite object_users_holders in Hn. apply elem_of_holders in Hn as [Hd Hn].
  specialize (H n). rewrite Hd in H. rewrite <- E. apply Nat.leb_le, H.
  by apply list_elem_of_In.
Qed.

Lemma make_single_user_data_single_users_witness :
  exists w',
    make_single_user_data (Samples.world_with Samples.shared_meshes) = Ok tt w'
    /\ length (object_users (objects (scene w')) 1%positive) <= 1
    /\ multi_user (scene w') "A" = false
    /\ make_single_user_data w' = Ok tt w'.
Proof.
  destruct (make_single_user_data_single_users (Samples.world_with Samples.shared_meshes))
    as (w' & Hrun & _ & Hsingle & Hmulti & Hagain).
  - apply data_wfb_spec. vm_compute. reflexivity.
  - exists w'. exact (conj Hrun (conj (Hsingle 1%positive) (conj (Hmulti "A") Hagain))).
Defined.

Lemma make_single_user_data_without_sharing_witness :
  data_users Samples.fake_user 1%positive = 2
  /\ make_single_user_data (Samples.world_with Samples.fake_user)
     = Ok tt (Samples.world_with Samples.fake_user).
Proof.
  split; [vm_compute; reflexivity|].
  apply make_single_user_data_without_sharing.
  apply single_usersb_spec. vm_compute. reflexivity.
Defined.

(** ** A parent without inverse *)

(** X5.  When the cached world matrix of the parent has determinant 0,
    [reset_parent_inverse] raises the [ValueError] of [inverted()], after it
    has set the parent-inverse matrix of the object to the identity and
    before it touches the basis: the object is left with its basis and an
    identity parent-inverse.  [fix_object] on such an object of the view
    layer stops there, with the same error and the same world: it calls no
    operator and visits none of the children. *)
Theorem reset_parent_inverse_singular n w ob p parent :
  objects (scene w) !! n = Some ob -> ob_parent ob = Some p ->
  objects (scene w) !! p = Some parent ->
  determinant (matrix_world parent) = 0%Qc ->
  let w' := with_scene (set_objects (alter (set_matrix_parent_inverse identity) n)) w in
  let e := ValueError "Matrix.invert(ed): matrix does not have an inverse" in
  reset_parent_inverse n w = Raise e w'
  /\ (in_view_layer ob = true -> forall fuel, fix_object (S fuel) n w = Raise e w')
  /\ basis_at n w' = Some (matrix_basis ob)
  /\ proj_at matrix_parent_inverse n w' = Some identity
  /\ journal w' = journal w.
Proof.
  intros Hn Hp Hparent Hdet w' e.
  assert (Hrun : reset_parent_inverse n w = Raise e w').
  { unfold reset_parent_inverse, bind at 1. rewrite (get_object_run n w ob Hn), Hp.
    unfold bind at 1, update_object, modify. fold w'.
    assert (Hp' : exists parent', objects (scene w') !! p = Some parent'
                    /\ matrix_world parent' = matrix_world parent).
    { unfold w'. rewrite scene_with_scene, objects_set_objects.
      destruct (decide (n = p)) as [->|Hne].
      - rewrite lookup_alter_eq, Hparent. simpl. eauto.
      - rewrite lookup_alter_ne by done. eauto. }
    destruct Hp' as (parent' & Hp' & Hw). unfold bind at 1.
    rewrite (get_object_run p w' parent' Hp'), Hw. unfold inverted.
    by rewrite decide_True. }
  split; [exact Hrun|]. split; [|split; [|split]].
  - intros Hv fuel. rewrite fix_object_unfold. unfold bind at 1.
    rewrite (get_object_run n w ob Hn), Hv. unfold when, bind at 1, fix_steps, bind at 1.
    by rewrite Hrun.
  - unfold basis_at, w'. by rewrite scene_with_scene, objects_set_objects, lookup_alter_eq, Hn.
  - unfold proj_at, w'. by rewrite scene_with_scene, objects_set_objects, lookup_alter_eq, Hn.
  - done.
Qed.

Lemma reset_parent_inverse_singular_witness :
  exists e w',
    fix_object 3 "B" Samples.flat_parent = Raise e w'
    /\ e = ValueError "Matrix.invert(ed): matrix does not have an inverse"
    /\ proj_at matrix_parent_inverse "B" w' = Some identity
    /\ basis_at "B" w' = Some (Samples.translation 1 0 0)
    /\ journal w' = [].
Proof.
  destruct (objects (scene Samples.flat_parent) !! "B") as [ob|] eqn:Hb;
    [|vm_compute in Hb; discriminate Hb].
  destruct (objects (scene Samples.flat_parent) !! "A") as [oa|] eqn:Ha;
    [|vm_compute in Ha; discriminate Ha].
  assert (Hp : ob_parent ob = Some "A").
  { vm_compute in Hb. injection Hb as <-. reflexivity. }
  assert (Hv : in_view_layer ob = true).
  { vm_compute in Hb. injection Hb as <-. reflexivity. }
  assert (Hbasis : matrix_basis ob = Samples.translation 1 0 0).
  { vm_compute in Hb. injection Hb as <-. vm_compute. reflexivity. }
  assert (Hdet : determinant (matrix_world oa) = 0%Qc).
  { vm_compute in Ha. injection Ha as <-. vm_compute. reflexivity. }
  destruct (reset_parent_inverse_singular "B" Samples.flat_parent ob "A" oa Hb Hp Ha Hdet)
    as (_ & Hfix & Hbas & Hpi & Hj).
  eexists _, _. rewrite <- Hbasis.
  exact (conj (Hfix Hv 2) (conj eq_refl (conj Hpi (conj Hbas Hj)))).
Defined.

(** ** The protected region, piece by piece *)

Lemma bind_assoc {A B C} (m : M A) (k : A -> M B) (h : B -> M C) w :
  bind (bind m k) h w = bind m (fun a => bind (k a) h) w.
Proof. unfold bind. by destruct (m w). Qed.

Lemma bind_ext {A B} (m : M A) (k k' : A -> M B) w :
  (forall a w', k a w' = k' a w') -> bind m k w = bind m k' w.
Proof. intros H. unfold bind. by destruct (m w). Qed.

Lemma protected_region_pieces fbx filepath kwargs roots selection w :
  protected_region fbx filepath kwargs roots selection w
  = (fix_roots roots ;;
     restore_shared_data ;;
     view_layer_update ;;
     restore_objects ;;
     restore_collections ;;
     restore_selection selection ;;
     print (OutInvoking (build_params filepath kwargs)) ;;
     export_scene_fbx fbx (build_params filepath kwargs)) w.
Proof.
  unfold protected_region, fix_roots. apply bind_ext. intros _ w1.
  unfold restore_shared_data. rewrite bind_assoc. apply bind_ext. intros shared w2.
  apply bind_ext. intros _ w3. apply bind_ext. intros _ w4.
  unfold restore_objects. rewrite !bind_assoc. apply bind_ext. intros hidden w5.
  rewrite !bind_assoc. apply bind_ext. intros _ w6.
  rewrite !bind_assoc. apply bind_ext. intros disabled w7.
  apply bind_ext. intros _ w8.
  unfold restore_collections. rewrite !bind_assoc. apply bind_ext. intros hidden' w9.
  rewrite !bind_assoc. apply bind_ext. intros _ w10.
  rewrite !bind_assoc. apply bind_ext. intros disabled' w11.
  apply bind_ext. intros _ w12.
  unfold restore_selection. rewrite !bind_assoc. apply bind_ext. intros _ w13.
  reflexivity.
Qed.

(** ** Visibility of the objects *)

Lemma unhide_objects_unfold w :
  unhide_objects w
  = for_each (names_where in_view_layer (objects (scene w)) (object_names (objects (scene w))))
      unhide_step w.
Proof. reflexivity. Qed.

Lemma set_hide_same o : ob_hide o = false -> set_hide false o = o.
Proof. destruct o. simpl. by intros ->. Qed.

Lemma set_hide_viewport_same o : ob_hide_viewport o = false -> set_hide_viewport false o = o.
Proof. destruct o. simpl. by intros ->. Qed.

Lemma world_eq (w w' : World) :
  scene w = scene w' -> undo_stack w = undo_stack w' -> stdout w = stdout w' ->
  journal w = journal w' -> shared_data w = shared_data w' ->
  hidden_collections w = hidden_collections w' -> hidden_objects w = hidden_objects w' ->
  disabled_collections w = disabled_collections w' ->
  disabled_objects w = disabled_objects w' -> w = w'.
Proof. destruct w, w'. simpl. by intros -> -> -> -> -> -> -> -> ->. Qed.

Lemma scene_eq (s s' : Scene) :
  objects s = objects s' -> datablocks s = datablocks s' ->
  layer_collection s = layer_collection s' -> active_object s = active_object s' ->
  mode s = mode s' -> s = s'.
Proof. destruct s, s'. simpl. by intros -> -> -> -> ->. Qed.

(** What one turn does, for an object of the view layer. *)
Lemma unhide_step_run n w o :
  objects (scene w) !! n = Some o ->
  unhide_step n w
  = Ok tt (with_disabled_objects (fun d => if ob_hide_viewport o then d ++ [n] else d)
             (with_hidden_objects (fun h => if ob_hide o then h ++ [n] else h)
                (with_scene (set_objects (alter (fun o =>
                   set_hide_viewport false (set_hide false o)) n)) w))).
Proof.
  intros Hn. unfold unhide_step, bind at 1. rewrite (get_object_run n w o Hn).
  assert (Halter : forall (f : Object -> Object), f o = o ->
            alter f n (objects (scene w)) = objects (scene w)).
  { intros f Hf. apply map_eq. intros m. destruct (decide (n = m)) as [->|Hne].
    - by rewrite lookup_alter_eq, Hn; simpl; rewrite Hf.
    - by rewrite lookup_alter_ne. }
  destruct (ob_hide o) eqn:Hh; simpl.
  - unfold bind at 1, bind at 1, modify, update_object, modify.
    unfold bind at 1, get_object.
    rewrite scene_with_scene, objects_set_objects, lookup_alter_eq.
    replace (objects (scene (with_hidden_objects (fun l => l ++ [n]) w)) !! n)
      with (Some o) by (by rewrite <- Hn).
    simpl. destruct (ob_hide_viewport o) eqn:Hv; simpl.
    + unfold bind, modify, update_object, modify. f_equal.
      apply world_eq; try done. simpl. apply scene_eq; try done. simpl.
      by rewrite alter_alter_eq.
    + unfold ret. f_equal. apply world_eq; try done. simpl. apply scene_eq; try done. simpl.
      apply map_eq. intros m. destruct (decide (n = m)) as [->|Hne].
      * rewrite !lookup_alter_eq, Hn. simpl. by rewrite set_hide_viewport_same.
      * by rewrite !lookup_alter_ne.
  - unfold bind at 1, ret. unfold bind at 1. rewrite (get_object_run n w o Hn).
    destruct (ob_hide_viewport o) eqn:Hv; simpl.
    + unfold bind, modify, update_object, modify. f_equal.
      apply world_eq; try done. simpl. apply scene_eq; try done. simpl.
      apply map_eq. intros m. destruct (decide (n = m)) as [->|Hne].
      * rewrite !lookup_alter_eq, Hn. simpl. by rewrite (set_hide_same o).
      * by rewrite !lookup_alter_ne.
    + unfold ret. f_equal. apply world_eq; try done. simpl. apply scene_eq; try done. simpl.
      symmetry. apply Halter. by rewrite (set_hide_same o), set_hide_viewport_same.
Qed.

Lemma lookup_show_among l objs n :
  show_among l objs !! n = (fun o => if bool_decide (n ∈ l) then shown o else o) <$> objs !! n.
Proof. unfold show_among. rewrite map_lookup_imap. by destruct (objs !! n). Qed.

Lemma names_where_alter test f x objs l :
  x ∉ l -> names_where test (alter f x objs) l = names_where test objs l.
Proof.
  unfold names_where. induction l as [|n l IH]; intros Hx; [done|].
  rewrite !filter_cons, IH by set_solver.
  rewrite lookup_alter_ne by set_solver. done.
Qed.

Lemma names_where_cons test objs x l o :
  objs !! x = Some o ->
  names_where test objs (x :: l) = (if test o then [x] else []) ++ names_where test objs l.
Proof.
  intros Hx. unfold names_where. rewrite filter_cons. rewrite Hx. simpl.
  by destruct (test o); case_decide.
Qed.

(** The loop of [unhide_objects], in closed form. *)
Lemma unhide_loop l :
  NoDup l -> forall w, (forall n, n ∈ l -> is_Some (objects (scene w) !! n)) ->
  for_each l unhide_step w
  = Ok tt
      (with_disabled_objects (fun d => d ++ names_where ob_hide_viewport (objects (scene w)) l)
         (with_hidden_objects (fun h => h ++ names_where ob_hide (objects (scene w)) l)
            (with_scene (set_objects (show_among l)) w))).
Proof.
  induction 1 as [|x r Hx Hr IH]; intros w Hin.
  - simpl. unfold ret. f_equal. apply world_eq; simpl; try done.
    + apply scene_eq; simpl; try done. apply map_eq. intros n.
      rewrite lookup_show_among. destruct (objects (scene w) !! n); [|done]. simpl.
      done.
    + unfold names_where. by rewrite filter_nil, app_nil_r.
    + unfold names_where. by rewrite filter_nil, app_nil_r.
  - destruct (Hin x) as [o Ho]; [set_solver|].
    rewrite for_each_cons, (unhide_step_run x w o Ho).
    rewrite IH.
    2:{ intros n Hn. simpl. destruct (decide (x = n)) as [->|Hne].
        - rewrite lookup_alter_eq, Ho. by eexists.
        - rewrite lookup_alter_ne by done. apply Hin. set_solver. }
    f_equal. apply world_eq; simpl; try done.
    + apply scene_eq; simpl; try done. apply map_eq. intros n.
      rewrite !lookup_show_among. destruct (decide (x = n)) as [->|Hne].
      * rewrite lookup_alter_eq, Ho. simpl.
        rewrite bool_decide_eq_false_2 by done.
        by rewrite bool_decide_eq_true_2 by set_solver.
      * rewrite lookup_alter_ne by done. destruct (objects (scene w) !! n); [|done]. simpl.
        f_equal. rewrite (bool_decide_ext (n ∈ x :: r) (n ∈ r)); [done|].
        rewrite elem_of_cons. split; [by intros [->|?]|by right].
    + rewrite names_where_alter by done. rewrite (names_where_cons _ _ _ _ o Ho).
      destruct (ob_hide o); [by rewrite <- app_assoc|done].
    + rewrite names_where_alter by done. rewrite (names_where_cons _ _ _ _ o Ho).
      destruct (ob_hide_viewport o); [by rewrite <- app_assoc|done].
Qed.

Lemma elem_of_names_where test objs l n :
  n ∈ names_where test objs l <-> n ∈ l /\ test <$> objs !! n = Some true.
Proof. unfold names_where. rewrite list_elem_of_filter. tauto. Qed.

Lemma show_among_view_layer objs :
  show_among (names_where in_view_layer objs (object_names objs)) objs = unhidden <$> objs.
Proof.
  apply map_eq. intros n. rewrite lookup_show_among, lookup_fmap.
  destruct (objs !! n) as [o|] eqn:Hn; [|done]. simpl. f_equal. unfold unhidden, shown.
  destruct (in_view_layer o) eqn:Hv.
  - rewrite bool_decide_eq_true_2; [done|].
    apply elem_of_names_where. rewrite Hn. simpl. rewrite Hv.
    split; [|done]. apply elem_of_object_names. by eexists.
  - rewrite bool_decide_eq_false_2; [done|].
    rewrite elem_of_names_where, Hn. simpl. rewrite Hv. by intros [_ [=]].
Qed.

Lemma unhide_objects_run w :
  unhide_objects w = Ok tt (unhidden_world w).
Proof.
  rewrite unhide_objects_unfold, unhide_loop.
  - f_equal. apply world_eq; try done. apply scene_eq; try done. apply show_among_view_layer.
  - apply NoDup_filter, NoDup_object_names.
  - intros n [_ H]%elem_of_names_where. by destruct (objects (scene w) !! n).
Qed.

(** A loop of assignments to one attribute of the listed objects. *)
Lemma update_objects_loop f l w :
  for_each l (fun n => update_object n f) w
  = Ok tt (with_scene (set_objects (fun objs => foldl (fun m n => alter f n m) objs l)) w).
Proof.
  revert w. induction l as [|n l IH]; intros w.
  - simpl. unfold ret. f_equal. apply world_eq; try done. by apply scene_eq.
  - rewrite for_each_cons. unfold update_object at 1, modify. by rewrite IH.
Qed.

Lemma lookup_foldl_alter (f : Object -> Object) l (objs : gmap string Object) n :
  (forall o, f (f o) = f o) ->
  foldl (fun m n => alter f n m) objs l !! n
  = (fun o => if bool_decide (n ∈ l) then f o else o) <$> objs !! n.
Proof.
  intros Hf. revert objs. induction l as [|x l IH]; intros objs.
  - simpl. by destruct (objs !! n).
  - simpl. rewrite IH. destruct (decide (x = n)) as [->|Hne].
    + rewrite lookup_alter_eq. destruct (objs !! n); [|done]. simpl. f_equal.
      rewrite (bool_decide_eq_true_2 (n ∈ n :: l)) by apply list_elem_of_here.
      destruct (bool_decide (n ∈ l)); [apply Hf|done].
    + rewrite lookup_alter_ne by done. destruct (objs !! n); [|done]. simpl. f_equal.
      rewrite (bool_decide_ext (n ∈ x :: l) (n ∈ l)); [done|].
      rewrite elem_of_cons. split; [by intros [->|?]|by right].
Qed.

Lemma restore_objects_run w :
  restore_objects w
  = Ok tt (with_scene (set_objects (fun objs =>
      foldl (fun m n => alter (set_hide_viewport true) n m)
        (foldl (fun m n => alter (set_hide true) n m) objs (hidden_objects w))
        (disabled_objects w))) w).
Proof.
  unfold restore_objects, bind at 1, gets. unfold bind at 1.
  rewrite update_objects_loop. unfold bind at 1, gets. simpl.
  by rewrite update_objects_loop.
Qed.

(** X6. [unhide_objects] never raises.  It shows and enables every object of
    the view layer and leaves the objects outside the view layer as they
    are; it appends to [hidden_objects] the view-layer objects that were
    hidden and to [disabled_objects] those that were disabled, each list in
    the enumeration order of [bpy.data.objects]; nothing else of the scene
    or of the module state changes. *)
Theorem unhide_objects_spec w :
  let objs := objects (scene w) in
  let visible := names_where in_view_layer objs (object_names objs) in
  exists w',
    unhide_objects w = Ok tt w'
    /\ (forall n, objects (scene w') !! n = unhidden <$> objs !! n)
    /\ hidden_objects w' = hidden_objects w ++ names_where ob_hide objs visible
    /\ disabled_objects w' = disabled_objects w ++ names_where ob_hide_viewport objs visible
    /\ with_scene (set_objects (fun _ => objs))
         (with_hidden_objects (fun _ => hidden_objects w)
            (with_disabled_objects (fun _ => disabled_objects w) w')) = w.
Proof.
  intros objs visible. exists (unhidden_world w). split; [apply unhide_objects_run|].
  split; [|split; [done|split; [done|]]].
  - intros n. unfold unhidden_world. simpl. by rewrite lookup_fmap.
  - apply world_eq; try done. by apply scene_eq.
Qed.

(** X7. Starting from empty lists of hidden and disabled objects, as
    [export_unity_fbx] empties them, [unhide_objects] followed by the two
    loops that restore the hidden and the disabled objects gives back the
    scene as it was. *)
Theorem unhide_restore_objects w :
  hidden_objects w = [] -> disabled_objects w = [] ->
  exists w',
    (unhide_objects ;; restore_objects) w = Ok tt w' /\ scene w' = scene w.
Proof.
  intros Hh Hd. unfold bind. rewrite unhide_objects_run, restore_objects_run.
  eexists. split; [done|]. simpl. apply scene_eq; try done. simpl.
  rewrite Hh, Hd. simpl. apply map_eq. intros n.
  rewrite !lookup_foldl_alter by (by intros []). rewrite lookup_fmap.
  destruct (objects (scene w) !! n) as [o|] eqn:Hn; [|done]. simpl. f_equal.
  assert (Hin : forall test, bool_decide (n ∈ names_where test (objects (scene w))
            (names_where in_view_layer (objects (scene w)) (object_names (objects (scene w)))))
          = in_view_layer o && test o).
  { intros test. destruct (in_view_layer o && test o) eqn:E.
    - apply bool_decide_eq_true_2. apply andb_true_iff in E as [E1 E2].
      rewrite !elem_of_names_where, Hn. simpl. rewrite E1, E2, elem_of_object_names, Hn.
      by eauto.
    - apply bool_decide_eq_false_2. rewrite !elem_of_names_where, Hn. simpl.
      intros [[_ [= E1]] [= E2]]. by rewrite E1, E2 in E. }
  rewrite !Hin. unfold unhidden.
  destruct o as [t p d ms mb mi mw v sel h hv]. simpl.
  by destruct v, h, hv.
Qed.

Lemma unhide_restore_objects_witness :
  exists w',
    (unhide_objects ;; restore_objects) Samples.hidden_objects_world = Ok tt w'
    /\ scene w' = scene Samples.hidden_objects_world.
Proof. exact (unhide_restore_objects Samples.hidden_objects_world eq_refl eq_refl). Defined.

(** ** The collections, unhidden and restored *)

Lemma LayerCollection_ind (P : LayerCollection -> Prop) :
  (forall e h d kids, Forall P kids -> P (LayerColl e h d kids)) -> forall c, P c.
Proof.
  intros H. fix IH 1. intros [e h d kids]. apply H.
  induction kids as [|k kids IHk]; constructor; [apply IH|apply IHk].
Qed.

Lemma unhide_collections_unfold path e h d kids :
  unhide_collections path (LayerColl e h d kids)
  = if e then (LayerColl e h d kids, ([], []))
    else
      let hidden :=
        indices_where (fun item => negb (lc_exclude item) && lc_hide_viewport item) 0 kids in
      let disabled :=
        indices_where (fun item => negb (lc_exclude item) && lc_collection_hide_viewport item)
          0 kids in
      let '(kids', (hr, dr)) := unhide_children path 0 kids in
      (LayerColl e h d kids',
       (((fun i => path ++ [i]) <$> hidden) ++ hr, ((fun i => path ++ [i]) <$> disabled) ++ dr)).
Proof. reflexivity. Qed.

#[local] Abbreviation U := (unhide_collections []).

Lemma unhide_children_cons path i item r :
  unhide_children path i (item :: r)
  = (unhide_item (unhide_collections (path ++ [i]) item).1 :: (unhide_children path (S i) r).1,
     ((unhide_collections (path ++ [i]) item).2.1 ++ (unhide_children path (S i) r).2.1,
      (unhide_collections (path ++ [i]) item).2.2 ++ (unhide_children path (S i) r).2.2)).
Proof.
  simpl. destruct (unhide_collections (path ++ [i]) item) as [c [hi di]].
  by destruct (unhide_children path (S i) r) as [r' [hr dr]].
Qed.

(** The references that a call records are those of the call on the root,
    under the path of the collection; the tree does not depend on the path. *)
Lemma unhide_collections_path col : forall path,
  unhide_collections path col
  = ((U col).1, ((path ++.) <$> (U col).2.1, (path ++.) <$> (U col).2.2)).
Proof.
  induction col as [e h d kids IH] using LayerCollection_ind. intros path.
  rewrite !unhide_collections_unfold. destruct e; [done|].
  assert (Hkids : forall i,
    unhide_children path i kids
    = ((unhide_children [] i kids).1,
       ((path ++.) <$> (unhide_children [] i kids).2.1,
        (path ++.) <$> (unhide_children [] i kids).2.2))).
  { induction IH as [|item r Hitem _ IHr]; intros i; [done|].
    rewrite !unhide_children_cons. simpl.
    rewrite (Hitem (path ++ [i])), (Hitem [i]), (IHr (S i)). simpl.
    rewrite !fmap_app, <- !list_fmap_compose. f_equal. f_equal.
    - f_equal. apply list_fmap_ext. intros _ p _. simpl. by rewrite <- app_assoc.
    - f_equal. apply list_fmap_ext. intros _ p _. simpl. by rewrite <- app_assoc. }
  rewrite (Hkids 0). simpl.
  destruct (unhide_children [] 0 kids) as [kids' [hr dr]]. simpl.
  rewrite !fmap_app, <- !list_fmap_compose. done.
Qed.

Lemma unhide_children_lookup path l : forall j k,
  (unhide_children path j l).1 !! k = (fun item => unhide_item (U item).1) <$> l !! k.
Proof.
  induction l as [|item r IH]; intros j k; [done|].
  rewrite unhide_children_cons. simpl. destruct k as [|k]; simpl.
  - by rewrite unhide_collections_path.
  - apply IH.
Qed.

Lemma omap_below_prefix i j (l : list CollPath) :
  omap (below i) ((fun m => j :: m) <$> l) = if decide (j = i) then l else [].
Proof.
  induction l as [|p l IH]; [by destruct (decide (j = i))|].
  rewrite fmap_cons. change (omap (below i) ((j :: p) :: ((fun m => j :: m) <$> l)))
    with (match below i (j :: p) with
          | Some y => y :: omap (below i) ((fun m => j :: m) <$> l)
          | None => omap (below i) ((fun m => j :: m) <$> l)
          end).
  rewrite IH. simpl. by destruct (decide (j = i)).
Qed.

(** The references recorded by the loop over the children that go through
    the child of index [i] are those that the call on that child records. *)
Lemma below_children i l : forall j,
  omap (below i) (unhide_children [] j l).2.1
  = (if decide (j <= i) then from_option (fun item => (U item).2.1) [] (l !! (i - j)) else [])
  /\ omap (below i) (unhide_children [] j l).2.2
  = (if decide (j <= i) then from_option (fun item => (U item).2.2) [] (l !! (i - j)) else []).
Proof.
  induction l as [|item r IH]; intros j.
  - simpl. by destruct (decide (j <= i)).
  - rewrite unhide_children_cons. simpl. rewrite !omap_app.
    destruct (IH (S j)) as [-> ->]. rewrite (unhide_collections_path item [j]). simpl.
    rewrite !omap_below_prefix.
    destruct (decide (j = i)) as [->|Hne]; repeat case_decide; try lia.
    + rewrite Nat.sub_diag. simpl. by rewrite !app_nil_r.
    + replace (i - j) with (S (i - S j)) by lia. done.
    + done.
Qed.

Lemma below_level {A} (f : A -> bool) i (l : list A) : forall j,
  omap (below i) ((fun k => [k]) <$> indices_where f j l)
  = if decide (j <= i) then (if default false (f <$> l !! (i - j)) then [[]] else []) else [].
Proof.
  induction l as [|x r IH]; intros j.
  - simpl. by destruct (decide (j <= i)).
  - simpl. assert (Hr := IH (S j)).
    assert (Hrest : omap (below i) ((fun k => [k]) <$> indices_where f (S j) r)
              = if decide (j = i) then []
                else if decide (j <= i)
                     then (if default false (f <$> (x :: r) !! (i - j)) then [[]] else [])
                     else []).
    { rewrite Hr. destruct (decide (j = i)) as [->|Hne]; repeat case_decide; try lia; try done.
      replace (i - j) with (S (i - S j)) by lia. done. }
    destruct (f x) eqn:Hx; csimpl; rewrite Hrest;
      (destruct (decide (j = i)) as [->|Hne]; repeat case_decide; try lia; try done).
    + rewrite Nat.sub_diag. simpl. by rewrite Hx.
    + rewrite Nat.sub_diag. simpl. by rewrite Hx.
Qed.

(** Assignments through references below a collection reach its children
    one by one. *)
Lemma assign_all_children f paths : forall e h d kids,
  Forall (fun p => p <> []) paths ->
  assign_all f paths (LayerColl e h d kids)
  = LayerColl e h d (imap (fun i k => assign_all f (omap (below i) paths) k) kids).
Proof.
  unfold assign_all. induction paths as [|p paths IH]; intros e h d kids Hne.
  - simpl. f_equal. apply list_eq. intros i. rewrite list_lookup_imap.
    by destruct (kids !! i).
  - apply Forall_cons in Hne as [Hp Hne]. destruct p as [|j q]; [done|].
    simpl. rewrite IH by done. f_equal. apply list_eq. intros i.
    rewrite !list_lookup_imap, list_lookup_alter.
    destruct (decide (j = i)) as [->|Hji].
    + by destruct (kids !! i).
    + by destruct (kids !! i).
Qed.

Lemma unhide_collections_node h d kids :
  U (LayerColl false h d kids)
  = (LayerColl false h d (unhide_children [] 0 kids).1,
     (((fun i => [i]) <$> indices_where
         (fun item => negb (lc_exclude item) && lc_hide_viewport item) 0 kids)
        ++ (unhide_children [] 0 kids).2.1,
      ((fun i => [i]) <$> indices_where
         (fun item => negb (lc_exclude item) && lc_collection_hide_viewport item) 0 kids)
        ++ (unhide_children [] 0 kids).2.2)).
Proof.
  rewrite unhide_collections_unfold. simpl.
  by destruct (unhide_children [] 0 kids) as [kids' [hr dr]].
Qed.

(** No recorded reference is the collection of the call itself. *)
Lemma recorded_below col :
  Forall (fun p => p <> []) (U col).2.1 /\ Forall (fun p => p <> []) (U col).2.2.
Proof.
  destruct col as [e h d kids]. destruct e; [by split|].
  rewrite unhide_collections_node. simpl.
  assert (Hkids : forall j,
    Forall (fun p => p <> []) (unhide_children [] j kids).2.1
    /\ Forall (fun p => p <> []) (unhide_children [] j kids).2.2).
  { induction kids as [|item r IH]; intros j; [by split|].
    rewrite unhide_children_cons. simpl. rewrite (unhide_collections_path item [j]). simpl.
    destruct (IH (S j)) as [H1 H2].
    split; (apply Forall_app; split; [|done]); by apply Forall_fmap, Forall_true. }
  destruct (Hkids 0) as [H1 H2].
  split; (apply Forall_app; split; [|done]); by apply Forall_fmap, Forall_true.
Qed.

Lemma assign_all_app f l1 l2 col :
  assign_all f (l1 ++ l2) col = assign_all f l2 (assign_all f l1 col).
Proof. apply foldl_app. Qed.

(** The restoration undoes [unhide_collections]. *)
Lemma restore_unhidden col :
  restore_tree (U col).2.1 (U col).2.2 (U col).1 = col.
Proof.
  induction col as [e h d kids IH] using LayerCollection_ind.
  destruct e; [done|].
  destruct (recorded_below (LayerColl false h d kids)) as [Hh Hd].
  revert Hh Hd. rewrite unhide_collections_node. simpl. intros Hh Hd.
  unfold restore_tree. rewrite !assign_all_children by done.
  f_equal. apply list_eq. intros i.
  rewrite !list_lookup_imap, unhide_children_lookup.
  destruct (kids !! i) as [item|] eqn:Hi; [|done]. simpl. f_equal.
  rewrite !omap_app, !below_level.
  destruct (below_children i kids 0) as [-> ->].
  rewrite !decide_True by lia. rewrite Nat.sub_0_r, Hi. simpl.
  rewrite !assign_all_app.
  pose proof (proj1 (Forall_lookup _ _) IH i item Hi) as Hitem. simpl in Hitem.
  destruct (recorded_below item) as [Hih Hid].
  destruct item as [e' h' d' k']. destruct e'; [done|].
  revert Hitem Hih Hid. rewrite unhide_collections_node. simpl. intros Hitem Hih Hid.
  unfold restore_tree in Hitem. rewrite !assign_all_children in Hitem by done.
  injection Hitem as Hk.
  destruct h', d'; simpl; repeat (rewrite assign_all_children by done; simpl);
    by rewrite Hk.
Qed.

Lemma unhide_all_collections_run w :
  unhide_all_collections w
  = Ok tt
      (with_disabled_collections (fun l => l ++ (U (layer_collection (scene w))).2.2)
         (with_hidden_collections (fun l => l ++ (U (layer_collection (scene w))).2.1)
            (with_scene (set_layer_collection (fun _ => (U (layer_collection (scene w))).1))
               w))).
Proof.
  unfold unhide_all_collections, bind at 1, gets.
  by destruct (unhide_collections [] (layer_collection (scene w))) as [col' [hidden disabled]].
Qed.

Lemma assign_collections_loop f l w :
  for_each l (fun col => modify (with_scene (set_layer_collection (update_collection col f)))) w
  = Ok tt (with_scene (set_layer_collection (assign_all f l)) w).
Proof.
  revert w. induction l as [|p l IH]; intros w.
  - simpl. unfold ret. f_equal. apply world_eq; try done. by apply scene_eq.
  - rewrite for_each_cons. unfold modify at 1. by rewrite IH.
Qed.

Lemma restore_collections_run w :
  restore_collections w
  = Ok tt (with_scene (set_layer_collection
             (restore_tree (hidden_collections w) (disabled_collections w))) w).
Proof.
  unfold restore_collections, bind at 1, gets. unfold bind at 1.
  rewrite assign_collections_loop. unfold bind at 1, gets. simpl.
  by rewrite assign_collections_loop.
Qed.

(** X9. Starting from empty lists of hidden and disabled collections, as
    [export_unity_fbx] empties them, [unhide_collections] on the layer
    collection of the view layer followed by the two loops that restore the
    hidden and the disabled collections gives back the scene as it was,
    for any nesting of the collections. *)
Theorem unhide_restore_collections w :
  hidden_collections w = [] -> disabled_collections w = [] ->
  exists w',
    (unhide_all_collections ;; restore_collections) w = Ok tt w' /\ scene w' = scene w.
Proof.
  intros Hh Hd. unfold bind. rewrite unhide_all_collections_run, restore_collections_run.
  eexists. split; [done|]. simpl. rewrite Hh, Hd. simpl.
  apply scene_eq; try done. simpl. apply restore_unhidden.
Qed.

Lemma unhide_restore_collections_witness :
  exists w',
    (unhide_all_collections ;; restore_collections) Samples.nested_collections_world = Ok tt w'
    /\ scene w' = scene Samples.nested_collections_world.
Proof. exact (unhide_restore_collections Samples.nested_collections_world eq_refl eq_refl). Defined.

Lemma elem_of_below i q (l : list CollPath) :
  i :: q ∈ l <-> q ∈ omap (below i) l.
Proof.
  rewrite list_elem_of_omap. split.
  - intros H. exists (i :: q). split; [done|]. simpl. by rewrite decide_True.
  - intros (p & Hp & Hq). destruct p as [|j p]; [done|]. simpl in Hq.
    destruct (decide (j = i)) as [->|]; [|done]. by injection Hq as ->.
Qed.

Lemma unhide_root col :
  lc_flags (U col).1 = lc_flags col /\ length (lc_children (U col).1) = length (lc_children col).
Proof.
  destruct col as [e h d kids]. destruct e; [done|].
  rewrite unhide_collections_node. simpl. split; [done|].
  generalize 0. induction kids as [|item r IH]; intros j; [done|].
  rewrite unhide_children_cons. simpl. by rewrite IH.
Qed.

Lemma collection_at_unhide_item q c :
  q <> [] -> collection_at q (unhide_item c) = collection_at q c.
Proof. destruct q as [|i q]; [done|]. intros _. destruct c as [e h d k]. by destruct e. Qed.

(** The tree after [unhide_collections]: the same collections, the ones of
    the view layer below the root shown and enabled, the others as they
    were. *)
Lemma unhidden_at p : forall col c,
  collection_at p col = Some c ->
  exists c',
    collection_at p (U col).1 = Some c'
    /\ length (lc_children c') = length (lc_children c)
    /\ lc_flags c' = (if included p col && negb (bool_decide (p = []))
                      then (false, false, false) else lc_flags c).
Proof.
  induction p as [|i q IH]; intros col c Hc.
  - injection Hc as <-. exists (U col).1. destruct (unhide_root col) as [Hf Hl].
    rewrite andb_false_r. done.
  - destruct col as [e h d kids]. simpl in Hc.
    destruct (kids !! i) as [item|] eqn:Hi; [|done].
    destruct e.
    { exists c. simpl. by rewrite Hi. }
    rewrite unhide_collections_node. simpl.
    rewrite unhide_children_lookup, Hi. simpl.
    destruct (IH item c Hc) as (c' & Hc' & Hl & Hf).
    destruct (decide (q = [])) as [->|Hq].
    + simpl in Hc, Hc'. injection Hc as <-. injection Hc' as <-.
      exists (unhide_item (U item).1). split; [done|].
      destruct (unhide_root item) as [Hfr Hlr].
      destruct (U item).1 as [e1 h1 d1 k1]. destruct item as [e0 h0 d0 k0].
      unfold lc_flags in Hfr. simpl in *. injection Hfr as -> -> ->.
      by destruct e0.
    + rewrite collection_at_unhide_item by done. exists c'. split; [done|]. split; [done|].
      rewrite Hf. rewrite andb_comm. simpl.
      rewrite (bool_decide_eq_false_2 (q = [])) by done. by rewrite andb_true_r.
Qed.

(** What a call records: the references to the collections of the view
    layer below the root that were hidden, respectively disabled. *)
Lemma recorded_at p : forall col,
  (p ∈ (U col).2.1 <->
     p <> [] /\ included p col = true
     /\ exists c, collection_at p col = Some c /\ lc_hide_viewport c = true)
  /\ (p ∈ (U col).2.2 <->
        p <> [] /\ included p col = true
        /\ exists c, collection_at p col = Some c /\ lc_collection_hide_viewport c = true).
Proof.
  induction p as [|i q IH]; intros col.
  - destruct (recorded_below col) as [Hh Hd].
    split; (split; [intros Hin|by intros [? _]]).
    + by apply (proj1 (Forall_forall _ _) Hh) in Hin.
    + by apply (proj1 (Forall_forall _ _) Hd) in Hin.
  - destruct col as [e h d kids]. destruct e.
    { simpl. split; (split; [by intros ?%elem_of_nil|by intros (_ & ? & _)]). }
    rewrite unhide_collections_node. simpl.
    rewrite !elem_of_below, !omap_app, !below_level.
    destruct (below_children i kids 0) as [-> ->].
    rewrite !decide_True by lia. rewrite Nat.sub_0_r.
    destruct (kids !! i) as [item|] eqn:Hi; simpl.
    2:{ split; (split; [by intros ?%elem_of_nil|by intros (_ & ? & _)]). }
    destruct (IH item) as [IHh IHd]. destruct (recorded_below item) as [Hh Hd].
    rewrite !elem_of_app, IHh, IHd.
    destruct (decide (q = [])) as [->|Hq].
    + simpl. rewrite andb_true_r.
      split; (split;
        [ intros [Hin|[? _]]; [|done]; split; [done|];
          destruct (negb (lc_exclude item)) eqn:He; simpl in Hin;
          [|by apply elem_of_nil in Hin];
          split; [done|]; exists item; split; [done|];
          match type of Hin with
          | context [if ?b then _ else _] => by destruct b; [|apply elem_of_nil in Hin]
          end
        | intros (_ & He & c & [= <-] & Hc); left; rewrite He, Hc; simpl;
          apply list_elem_of_here ]).
    + split; (split;
        [ intros [Hin|(_ & Hinc & c & Hc & Hf)];
          [ exfalso;
            match type of Hin with
            | context [if ?b then _ else _] =>
                destruct b; [by apply list_elem_of_singleton in Hin|by apply elem_of_nil in Hin]
            end
          | split; [done|]; split; [done|]; by exists c ]
        | intros (_ & Hinc & c & Hc & Hf); right; split; [done|]; split; [done|]; by exists c ]).
Qed.

(** X8. [unhide_collections] keeps the tree of layer collections and every
    [exclude] flag.  A collection below the root that is not excluded and
    has no excluded collection above it is shown and enabled afterwards;
    every other collection, the root included, keeps its flags.  The
    references appended to [hidden_collections] are exactly those to the
    former collections that were hidden, and the ones appended to
    [disabled_collections] those to the ones that were disabled. *)
Theorem unhide_collections_spec col :
  (forall p c, collection_at p col = Some c ->
     exists c',
       collection_at p (unhide_collections [] col).1 = Some c'
       /\ length (lc_children c') = length (lc_children c)
       /\ lc_flags c' = (if included p col && negb (bool_decide (p = []))
                         then (false, false, false) else lc_flags c))
  /\ (forall p, p ∈ (unhide_collections [] col).2.1 <->
        p <> [] /\ included p col = true
        /\ exists c, collection_at p col = Some c /\ lc_hide_viewport c = true)
  /\ (forall p, p ∈ (unhide_collections [] col).2.2 <->
        p <> [] /\ included p col = true
        /\ exists c, collection_at p col = Some c /\ lc_collection_hide_viewport c = true).
Proof.
  split; [|split].
  - intros p c. apply unhidden_at.
  - intros p. apply recorded_at.
  - intros p. apply recorded_at.
Qed.

(** ** The scene that the serializer is shown *)

#[global] Instance vis_kept_preorder : PreOrder vis_kept.
Proof.
  split; [by intros o|]. intros a b c H1 H2. unfold vis_kept in *. congruence.
Qed.

#[global] Instance via_vis_kept_frame : Frame (via_objects vis_kept).
Proof. apply via_objects_frame; [apply _|]. by intros [] [] (?&?&?&?&?&?&?); simpl in *; subst. Qed.

#[global] Instance layer_frame : Frame (same layer_of).
Proof. split; try apply _; by intros. Qed.

#[global] Instance guise_frame : Frame guise.
Proof. unfold guise. apply _. Qed.

Ltac keeps_layer :=
  repeat first
    [ keeps_step
    | solve [eauto with keeps]
    | apply keeps_modify; intros ?; unfold same; reflexivity ].

Ltac keeps_visibility :=
  repeat first
    [ keeps_step
    | solve [eauto with keeps]
    | apply keeps_objects_update; [apply _|by intros []]
    | apply keeps_objects_modify; [apply _|by intros ?] ].

Lemma keeps_guise {A} (m : M A) :
  keeps (via_objects vis_kept) m -> keeps (same layer_of) m ->
  keeps (same hidden_objects) m -> keeps (same disabled_objects) m ->
  keeps (same hidden_collections) m -> keeps (same disabled_collections) m ->
  keeps guise m.
Proof. intros. unfold guise. by repeat apply keeps_both. Qed.

Lemma keeps_visibility_data_copy d : keeps (via_objects vis_kept) (data_copy d).
Proof. unfold data_copy. keeps_visibility. Qed.

Lemma keeps_visibility_make_single_user_data :
  keeps (via_objects vis_kept) make_single_user_data.
Proof.
  pose proof keeps_visibility_data_copy.
  unfold make_single_user_data. keeps_visibility.
Qed.

Lemma keeps_visibility_convert_object n : keeps (via_objects vis_kept) (convert_object n).
Proof. unfold convert_object. keeps_visibility. Qed.

Lemma keeps_visibility_convert_to_mesh : keeps (via_objects vis_kept) convert_to_mesh.
Proof.
  pose proof keeps_visibility_convert_object.
  unfold convert_to_mesh. apply keeps_bpy_ops; [apply _|]. keeps_visibility.
Qed.

Lemma keeps_visibility_apply_object_modifiers :
  keeps (via_objects vis_kept) apply_object_modifiers.
Proof.
  pose proof keeps_visibility_convert_to_mesh.
  unfold apply_object_modifiers. keeps_frame.
Qed.

Lemma keeps_layer_data_copy d : keeps (same layer_of) (data_copy d).
Proof. unfold data_copy. keeps_layer. Qed.

Lemma keeps_layer_update_object n f : keeps (same layer_of) (update_object n f).
Proof. unfold update_object. keeps_layer. Qed.

Lemma keeps_layer_make_single_user_data : keeps (same layer_of) make_single_user_data.
Proof.
  pose proof keeps_layer_data_copy. pose proof keeps_layer_update_object.
  unfold make_single_user_data. keeps_layer.
Qed.

Lemma keeps_layer_convert_to_mesh : keeps (same layer_of) convert_to_mesh.
Proof.
  pose proof keeps_layer_update_object.
  unfold convert_to_mesh, convert_object. apply keeps_bpy_ops; [apply _|]. keeps_layer.
Qed.

Lemma keeps_layer_apply_object_modifiers : keeps (same layer_of) apply_object_modifiers.
Proof.
  pose proof keeps_layer_convert_to_mesh.
  unfold apply_object_modifiers. keeps_frame.
Qed.

Lemma keeps_guise_make_single_user_data : keeps guise make_single_user_data.
Proof.
  apply keeps_guise;
    [apply keeps_visibility_make_single_user_data|apply keeps_layer_make_single_user_data|..];
    unfold make_single_user_data; keeps_field.
Qed.

Lemma keeps_guise_apply_object_modifiers : keeps guise apply_object_modifiers.
Proof.
  apply keeps_guise;
    [apply keeps_visibility_apply_object_modifiers|apply keeps_layer_apply_object_modifiers|..];
    apply keeps_apply_object_modifiers; apply _.
Qed.

Lemma keeps_guise_restore_shared_data : keeps guise restore_shared_data.
Proof.
  pose proof keeps_layer_update_object.
  apply keeps_guise; unfold restore_shared_data, restore_step.
  - keeps_visibility.
  - keeps_layer.
  - keeps_field.
  - keeps_field.
  - keeps_field.
  - keeps_field.
Qed.

Lemma keeps_guise_fix_roots roots : keeps guise (fix_roots roots).
Proof. unfold fix_roots. keeps_frame. Qed.

Lemma presented_refl s : presented s s.
Proof. by split. Qed.

Lemma presented_trans s1 s2 s3 : presented s1 s2 -> presented s2 s3 -> presented s1 s3.
Proof.
  intros (L1 & V1 & S1) (L2 & V2 & S2). split; [congruence|].
  split; intros n; [by rewrite V2|by rewrite S2].
Qed.

#[global] Instance same_look_preorder : PreOrder same_look.
Proof.
  split; [intros w; apply presented_refl|].
  intros a b c. apply presented_trans.
Qed.

Lemma presented_update_world_matrices s : presented s (update_world_matrices s).
Proof.
  split; [by destruct s|]. split; intros n; by apply lookup_update_proj.
Qed.

Lemma look_view_layer_update : keeps same_look view_layer_update.
Proof.
  unfold view_layer_update. apply keeps_modify. intros w. unfold same_look.
  rewrite scene_with_scene. apply presented_update_world_matrices.
Qed.

Lemma look_other f : (forall w, scene (f w) = scene w) -> keeps same_look (modify f).
Proof. intros H. apply keeps_modify. intros w. unfold same_look. rewrite H. apply presented_refl. Qed.

Lemma look_print o : keeps same_look (print o).
Proof. by apply look_other. Qed.

Lemma look_record_call c : keeps same_look (record_call c).
Proof. by apply look_other. Qed.

#[local] Hint Resolve look_view_layer_update look_print look_record_call : keeps.

Ltac keeps_look :=
  repeat first
    [ keeps_step
    | solve [eauto with keeps]
    | apply look_other; by intros ? ].

Lemma look_bpy_ops op : keeps same_look op -> keeps same_look (bpy_ops op).
Proof. intros H. unfold bpy_ops. keeps_look. Qed.

Lemma look_undo_push msg : keeps same_look (undo_push msg).
Proof. unfold undo_push. apply look_bpy_ops. keeps_look. Qed.

Lemma look_reset_globals : keeps same_look reset_globals.
Proof. unfold reset_globals. keeps_look. Qed.

Lemma look_mode_set_object : keeps same_look mode_set_object.
Proof.
  unfold mode_set_object. apply look_bpy_ops. keeps_look.
  apply keeps_modify. intros w. unfold same_look. rewrite scene_with_scene.
  by destruct (scene w).
Qed.

Lemma presented_stable s0 w w' :
  presented s0 (scene w) -> same_look w w' -> presented s0 (scene w').
Proof. apply presented_trans. Qed.

Lemma presented_selected s sc :
  presented s sc -> selected_objects (objects sc) = selected_objects (objects s).
Proof. intros (_ & _ & H). by apply selected_objects_ext. Qed.

Lemma elem_of_selected_objects objs n :
  n ∈ selected_objects objs
  <-> (fun o => in_view_layer o && ob_select o) <$> objs !! n = Some true.
Proof.
  unfold selected_objects. rewrite list_elem_of_filter, elem_of_object_names.
  unfold is_selected. destruct (objs !! n) as [o|]; simpl.
  - split; [by intros [-> _]|]. intros [= ->]. by eauto.
  - split; [by intros [? _]|done].
Qed.

Lemma triple_ext R {A} I (m m' : M A) J :
  (forall w, m w = m' w) -> triple R I m' J -> triple R I m J.
Proof. intros E H w Hw. rewrite E. by apply H. Qed.

Lemma visibility_related w w' n :
  via_objects vis_kept w w' ->
  visibility <$> objects (scene w') !! n = visibility <$> objects (scene w) !! n.
Proof. intros H. specialize (H n). by destruct H as [o o' H|]; simpl; [rewrite H|]. Qed.

Lemma all_shown_stable s0 w w' : all_shown s0 w -> guise w w' -> all_shown s0 w'.
Proof.
  intros ((Hl & Hhc & Hdc) & Hv & Hh & Hd) (Ho & El & Eh & Ed & Ehc & Edc).
  unfold same in *. split; [split; [|split]; congruence|].
  split; [|split].
  - intros n. by rewrite (visibility_related w w' n Ho).
  - intros n. by rewrite Eh.
  - intros n. by rewrite Ed.
Qed.

Lemma visibility_unhidden o : visibility (unhidden o) = shown_flags (visibility o).
Proof. unfold unhidden. destruct o as [t p dt ms mb mi mw v sel h d]. by destruct v. Qed.

Lemma elem_of_view_layer_names test (objs : gmap string Object) n :
  n ∈ names_where test objs (names_where in_view_layer objs (object_names objs))
  <-> (fun o => in_view_layer o && test o) <$> objs !! n = Some true.
Proof.
  rewrite !elem_of_names_where, elem_of_object_names.
  destruct (objs !! n) as [o|]; simpl.
  - split.
    + by intros [[_ [= ->]] [= ->]].
    + intros [= [-> ->]%andb_true_iff]. by eauto.
  - split; [by intros [_ ?]|done].
Qed.

Lemma triple_pure R {A} (Q : Prop) I (m : M A) J :
  (Q -> triple R I m J) -> triple R (fun w => Q /\ I w) m J.
Proof. intros H w [HQ Hw]. by apply H. Qed.

Lemma select_set_loop l : forall w w',
  for_each l (fun n => select_set n true) w = Ok tt w' ->
  w' = with_scene (set_objects (fun objs =>
         foldl (fun m n => alter (set_select true) n m) objs l)) w.
Proof.
  induction l as [|n l IH]; intros w w' E.
  - injection E as <-. apply world_eq; try done. by apply scene_eq.
  - rewrite for_each_cons in E. unfold select_set at 1, bind at 1, get_object in E.
    destruct (objects (scene w) !! n) as [o|]; [|done].
    destruct (in_view_layer o); [|done]. unfold update_object, modify in E.
    apply IH in E. by rewrite E.
Qed.

Section Shown.
Context (s0 : Scene).

#[local] Abbreviation RS := (exports_satisfy (fun _ sc => presented s0 sc)).
#[local] Abbreviation lists_empty :=
  (fun w => hidden_objects w = [] /\ disabled_objects w = []
            /\ hidden_collections w = [] /\ disabled_collections w = []).

Lemma triple_look {A} (m : M A) :
  keeps RS m -> keeps same_look m ->
  triple RS (fun w => presented s0 (scene w)) m (fun _ w => presented s0 (scene w)).
Proof. intros H1 H2. apply (triple_keeps RS same_look); [done|done|apply presented_stable]. Qed.

Lemma triple_shown_reset_globals :
  triple RS (fun w => presented s0 (scene w)) reset_globals
         (fun _ w => presented s0 (scene w) /\ lists_empty w).
Proof.
  intros w Hw. split; [apply exports_reset_globals|]. intros [] w' E. by injection E as <-.
Qed.

Lemma triple_shown_mode_set_object :
  triple RS (fun w => presented s0 (scene w) /\ lists_empty w) mode_set_object
         (fun _ w => presented s0 (scene w) /\ lists_empty w).
Proof.
  apply (triple_keeps RS (both same_look (both (same hidden_objects) (both (same disabled_objects)
           (both (same hidden_collections) (same disabled_collections)))))).
  - apply exports_mode_set_object.
  - apply keeps_both; [apply look_mode_set_object|].
    repeat apply keeps_both; apply keeps_mode_set_object; apply _.
  - intros w w' [Hp (H1 & H2 & H3 & H4)] (Hl & E1 & E2 & E3 & E4). unfold same in *.
    split; [by eapply presented_stable|]. repeat split; congruence.
Qed.

Lemma triple_shown_unhide_all_collections :
  triple RS (fun w => presented s0 (scene w) /\ lists_empty w) unhide_all_collections
         (fun _ w => collections_shown s0 w /\ visibility_of s0 w
                     /\ hidden_objects w = [] /\ disabled_objects w = []).
Proof.
  intros w [(Hl & Hv & _) (H1 & H2 & H3 & H4)]. split; [apply exports_unhide_all_collections|].
  intros [] w' E. rewrite unhide_all_collections_run in E. injection E as <-.
  unfold collections_shown, layer_of. simpl. rewrite H3, H4, Hl. done.
Qed.

Lemma triple_shown_unhide_objects :
  triple RS (fun w => collections_shown s0 w /\ visibility_of s0 w
                      /\ hidden_objects w = [] /\ disabled_objects w = [])
         unhide_objects (fun _ w => all_shown s0 w).
Proof.
  intros w (Hc & Hv & Hh & Hd). split; [apply exports_unhide_objects|].
  intros [] w' E. rewrite unhide_objects_run in E. injection E as <-.
  assert (Hflag : forall (f : bool * bool * bool -> bool) n,
            (fun o => f (visibility o)) <$> objects (scene w) !! n
            = f <$> (visibility <$> objects s0 !! n)).
  { intros f n. rewrite <- Hv. by destruct (objects (scene w) !! n). }
  split; [done|]. split; [|split].
  - intros n. unfold unhidden_world. simpl. rewrite lookup_fmap, <- Hv.
    destruct (objects (scene w) !! n) as [o|]; [|done]. simpl. by rewrite visibility_unhidden.
  - intros n. unfold unhidden_world. simpl. rewrite Hh. simpl.
    rewrite elem_of_view_layer_names.
    assert ((fun o => in_view_layer o && ob_hide o) <$> objects (scene w) !! n
            = (fun '(l, h, _) => l && h) <$> (visibility <$> objects s0 !! n)) as ->
      by apply (Hflag (fun '(l, h, _) => l && h) n).
    destruct (visibility <$> objects s0 !! n) as [[[l h] d]|]; simpl.
    + split.
      * intros [= [-> ->]%andb_true_iff]. by eexists.
      * by intros [? [= -> -> _]].
    + split; [done|by intros [? ?]].
  - intros n. unfold unhidden_world. simpl. rewrite Hd. simpl.
    rewrite elem_of_view_layer_names.
    assert ((fun o => in_view_layer o && ob_hide_viewport o) <$> objects (scene w) !! n
            = (fun '(l, _, d) => l && d) <$> (visibility <$> objects s0 !! n)) as ->
      by apply (Hflag (fun '(l, _, d) => l && d) n).
    destruct (visibility <$> objects s0 !! n) as [[[l h] d]|]; simpl.
    + split.
      * intros [= [-> ->]%andb_true_iff]. by eexists.
      * by intros [? [= -> _ ->]].
    + split; [done|by intros [? ?]].
Qed.

Lemma triple_shown_restore_objects :
  triple RS (all_shown s0) restore_objects
         (fun _ w => collections_shown s0 w /\ visibility_of s0 w).
Proof.
  intros w (Hc & Hv & Hh & Hd). split.
  { assert (HK : keeps RS restore_objects); [|apply HK].
    pose proof (exports_update_object (fun _ sc => presented s0 sc)).
    unfold restore_objects. keeps_exports. }
  intros [] w' E. rewrite restore_objects_run in E. injection E as <-.
  split; [done|]. intros n. simpl.
  rewrite !lookup_foldl_alter by (by intros []).
  specialize (Hv n). specialize (Hh n). specialize (Hd n).
  destruct (objects (scene w) !! n) as [o|] eqn:Ho;
    destruct (objects s0 !! n) as [o0|] eqn:Ho0; simpl in *; try done.
  - f_equal. injection Hv as Hv.
    destruct (visibility o0) as [[l0 h0] d0] eqn:Hv0.
    assert (Hbh : bool_decide (n ∈ hidden_objects w) = l0 && h0).
    { destruct l0, h0; simpl.
      - apply bool_decide_eq_true_2, Hh. by eexists.
      - apply bool_decide_eq_false_2. rewrite Hh. by intros [? [=]].
      - apply bool_decide_eq_false_2. rewrite Hh. by intros [? [=]].
      - apply bool_decide_eq_false_2. rewrite Hh. by intros [? [=]]. }
    assert (Hbd : bool_decide (n ∈ disabled_objects w) = l0 && d0).
    { destruct l0, d0; simpl.
      - apply bool_decide_eq_true_2, Hd. by eexists.
      - apply bool_decide_eq_false_2. rewrite Hd. by intros [? [=]].
      - apply bool_decide_eq_false_2. rewrite Hd. by intros [? [=]].
      - apply bool_decide_eq_false_2. rewrite Hd. by intros [? [=]]. }
    rewrite Hbh, Hbd. destruct o as [t p dt ms mb mi mw v sel h d]. unfold visibility in Hv.
    simpl in Hv. unfold visibility in Hv0. injection Hv0 as El Eh Ed. rewrite El in Hv.
    destruct l0; simpl in Hv; injection Hv as -> -> ->; by destruct h0, d0.
Qed.

Lemma triple_shown_restore_collections :
  triple RS (fun w => collections_shown s0 w /\ visibility_of s0 w) restore_collections
         (fun _ w => layer_of w = layer_collection s0 /\ visibility_of s0 w).
Proof.
  intros w ((Hl & Hh & Hd) & Hv). split.
  { assert (HK : keeps RS restore_collections); [|apply HK].
    unfold restore_collections. keeps_exports. }
  intros [] w' E. rewrite restore_collections_run in E. injection E as <-.
  split; [|done]. unfold layer_of in *. simpl. rewrite Hl, Hh, Hd.
  apply restore_unhidden.
Qed.
Lemma triple_shown_export fbx params :
  triple RS (fun w => presented s0 (scene w)) (export_scene_fbx fbx params) (fun _ _ => True).
Proof.
  intros w Hw. split; [|done]. exists [CallExportFbx params (update_world_matrices (scene w))].
  split; [apply export_scene_fbx_journal|].
  intros p sc Hin%list_elem_of_singleton. injection Hin as -> ->.
  eapply presented_trans; [exact Hw|apply presented_update_world_matrices].
Qed.

Lemma triple_shown_restore_selection selection :
  (forall n, n ∈ selection
             <-> (fun o => in_view_layer o && ob_select o) <$> objects s0 !! n = Some true) ->
  triple RS (fun w => layer_of w = layer_collection s0 /\ visibility_of s0 w)
         (restore_selection selection) (fun _ w => presented s0 (scene w)).
Proof.
  intros Hsel w [Hl Hv]. split.
  { assert (HK : keeps RS (restore_selection selection)); [|apply HK].
    unfold restore_selection. keeps_frame. }
  intros [] w' E. unfold restore_selection, bind in E. rewrite select_all_deselect_run in E.
  apply select_set_loop in E. subst w'.
  assert (Hn : forall n,
    objects (scene (with_scene (set_objects (fun objs =>
        foldl (fun m n => alter (set_select true) n m) objs selection))
      (with_scene update_world_matrices
         (with_scene (set_objects (fmap (fun o =>
                        if in_view_layer o then set_select false o else o)))
            (with_journal (fun l => l ++ [CallSelectAllDeselect])
               (with_scene update_world_matrices w)))))) !! n
    = (fun o => if bool_decide (n ∈ selection) then set_select true o else o)
        <$> objects (update_world_matrices
              (set_objects (fmap (fun o =>
                 if in_view_layer o then set_select false o else o))
                 (update_world_matrices (scene w)))) !! n).
  { intros n. rewrite !scene_with_scene, objects_set_objects.
    by rewrite lookup_foldl_alter by (by intros []). }
  unfold layer_of in Hl. split; [|split].
  - rewrite <- Hl. reflexivity.
  - intros n. rewrite Hn, <- Hv.
    rewrite lookup_update_world_matrices, objects_set_objects, lookup_fmap,
      lookup_update_world_matrices.
    destruct (objects (scene w) !! n) as [o|]; [|done]. simpl. f_equal.
    destruct o as [t p dt ms mb mi mw v sel h d].
    by destruct (bool_decide (n ∈ selection)), v.
  - intros n. rewrite Hn.
    rewrite lookup_update_world_matrices, objects_set_objects, lookup_fmap,
      lookup_update_world_matrices.
    specialize (Hv n). specialize (Hsel n).
    destruct (objects (scene w) !! n) as [o|], (objects s0 !! n) as [o0|];
      simpl in *; try done.
    f_equal.
    destruct o as [t p dt ms mb mi mw v sel h d]. unfold visibility in Hv. simpl in Hv.
    injection Hv as Hv _ _. rewrite <- Hv in *.
    destruct (bool_decide (n ∈ selection)) eqn:Hb.
    + apply bool_decide_eq_true_1, Hsel in Hb. injection Hb as Hb.
      rewrite Hb. apply andb_true_iff in Hb as [-> _]. done.
    + apply bool_decide_eq_false_1 in Hb. rewrite Hsel in Hb.
      destruct (v && ob_select o0) eqn:Hs.
      * by destruct Hb.
      * by destruct v.
Qed.

Lemma triple_shown_protected_region fbx filepath kwargs roots selection :
  (forall n, n ∈ selection
             <-> (fun o => in_view_layer o && ob_select o) <$> objects s0 !! n = Some true) ->
  triple RS (all_shown s0) (protected_region fbx filepath kwargs roots selection)
         (fun _ _ => True).
Proof.
  intros Hsel. eapply triple_ext; [intros w; apply protected_region_pieces|].
  eapply triple_bind; [apply _| |intros ?].
  { apply (triple_keeps RS guise);
      [unfold fix_roots; keeps_frame|apply keeps_guise_fix_roots|apply all_shown_stable]. }
  eapply triple_bind; [apply _| |intros ?].
  { apply (triple_keeps RS guise);
      [|apply keeps_guise_restore_shared_data|apply all_shown_stable].
    pose proof (exports_update_object (fun _ sc => presented s0 sc)).
    unfold restore_shared_data. keeps_exports. }
  eapply triple_bind; [apply _| |intros ?].
  { apply (triple_keeps RS guise); [| |apply all_shown_stable]; keeps_frame. }
  eapply triple_bind; [apply _|apply triple_shown_restore_objects|intros ?].
  eapply triple_bind; [apply _|apply triple_shown_restore_collections|intros ?].
  eapply triple_bind; [apply _|by apply triple_shown_restore_selection|intros ?].
  eapply triple_bind; [apply _| |intros ?].
  { apply triple_look; [keeps_frame|apply look_print]. }
  apply triple_shown_export.
Qed.

Lemma triple_shown_preparation :
  triple RS (fun w => presented s0 (scene w)) preparation
         (fun prepared w =>
            (forall n, n ∈ prepared.2
               <-> (fun o => in_view_layer o && ob_select o) <$> objects s0 !! n = Some true)
            /\ all_shown s0 w).
Proof.
  unfold preparation.
  eapply triple_bind; [apply _| |intros ?].
  { apply triple_look; [keeps_frame|apply look_print]. }
  eapply triple_bind; [apply _|apply triple_gets_same; apply _|intros s].
  eapply triple_bind; [apply _| |intros ?].
  { apply triple_look; [apply exports_undo_push|apply look_undo_push]. }
  eapply triple_bind; [apply _|apply triple_shown_reset_globals|intros ?].
  eapply triple_bind; [apply _|apply triple_gets; apply _|intros s1].
  eapply (triple_conseq _ _
    (fun w => (forall n, n ∈ selected_objects (objects s1)
                 <-> (fun o => in_view_layer o && ob_select o) <$> objects s0 !! n = Some true)
              /\ (presented s0 (scene w)
                  /\ hidden_objects w = [] /\ disabled_objects w = []
                  /\ hidden_collections w = [] /\ disabled_collections w = [])));
    [|intros w [-> [Hp He]]; split; [|exact (conj Hp He)];
      intros n; rewrite elem_of_selected_objects; destruct Hp as (_ & _ & Hs); by rewrite Hs
     |intros r w Hr; exact Hr].
  apply triple_pure. intros Hsel.
  eapply triple_bind; [apply _| |intros ?].
  { apply triple_when; [apply _|]. apply triple_shown_mode_set_object. }
  eapply triple_bind; [apply _|apply triple_shown_unhide_all_collections|intros ?].
  eapply triple_bind; [apply _|apply triple_shown_unhide_objects|intros ?].
  eapply triple_bind; [apply _| |intros ?].
  { apply (triple_keeps RS guise);
      [apply exports_make_single_user_data|apply keeps_guise_make_single_user_data
      |apply all_shown_stable]. }
  eapply triple_bind; [apply _| |intros ?].
  { apply (triple_keeps RS guise);
      [apply exports_apply_object_modifiers|apply keeps_guise_apply_object_modifiers
      |apply all_shown_stable]. }
  eapply triple_conseq; [apply triple_ret; apply _|done|]. by intros ? ? [-> ?].
Qed.

End Shown.

(** X10. Whenever a run of [export_unity_fbx] calls the serializer, the scene
    it hands over has the layer collections as they were before the run,
    with their flags, every object has the visibility flags it had and is
    in the view layer or not as it was, and the selected objects are the
    ones that were selected: what was unhidden and selected to fix the
    rotations has been put back before the file is written. *)
Theorem export_presents_authored_scene fbx filepath kwargs w p sc :
  CallExportFbx p sc ∈ calls_since w (world_of (export_unity_fbx fbx filepath kwargs w)) ->
  layer_collection sc = layer_collection (scene w)
  /\ selected_objects (objects sc) = selected_objects (objects (scene w))
  /\ forall n, visibility <$> objects sc !! n = visibility <$> objects (scene w) !! n.
Proof.
  intros Hin.
  assert (Hrun : triple (exports_satisfy (fun _ sc => presented (scene w) sc))
                   (fun w' => presented (scene w) (scene w'))
                   (export_unity_fbx fbx filepath kwargs) (fun _ _ => True)).
  { unfold export_unity_fbx. destruct (bool_decide _).
    { apply keeps_to_triple, keeps_raise. apply _. }
    eapply triple_bind; [apply _|apply triple_shown_preparation|]. intros [roots selection].
    simpl. apply triple_pure. intros Hsel.
    pose proof (exports_restore_scene (fun _ sc => presented (scene w) sc)).
    eapply triple_bind; [apply _| |intros returned].
    - eapply triple_try_except; [apply _| |].
      + eapply triple_bind; [apply _|by apply triple_shown_protected_region|].
        intros ?. apply keeps_to_triple, keeps_ret. apply _.
      + intros e. unfold on_exception. keeps_exports.
    - apply keeps_to_triple. destruct returned; keeps_exports. }
  pose proof (triple_relation _ _ _ _ w Hrun (presented_refl _)) as Hexp.
  pose proof (calls_since_exports _ _ _ _ Hexp Hin) as Hp. simpl in Hp.
  split; [apply Hp|]. split; [by apply presented_selected|apply Hp].
Qed.

Lemma export_presents_authored_scene_witness :
  exists p sc,
    CallExportFbx p sc
      ∈ calls_since Samples.dressed_world
          (world_of (export_unity_fbx Samples.fbx_writes "out.fbx" ∅ Samples.dressed_world))
    /\ layer_collection sc = layer_collection (scene Samples.dressed_world)
    /\ selected_objects (objects sc) = selected_objects (objects (scene Samples.dressed_world))
    /\ forall n, visibility <$> objects sc !! n
                 = visibility <$> objects (scene Samples.dressed_world) !! n.
Proof.
  set (calls := calls_since _ _).
  assert (He : existsb (fun c => match c with CallExportFbx _ _ => true | _ => false end)
                 calls = true) by (vm_compute; reflexivity).
  apply existsb_exists in He as ([| | | | | |p sc] & Hin & Hc); try discriminate Hc.
  apply list_elem_of_In in Hin. exists p, sc. split; [exact Hin|].
  exact (export_presents_authored_scene Samples.fbx_writes "out.fbx" ∅ Samples.dressed_world
           p sc Hin).
Defined.

(** ** Which rotations a run bakes *)

Lemma calls_same_journal Q w w' : journal w' = journal w -> calls_satisfy Q w w'.
Proof. intros H. exists []. by rewrite app_nil_r. Qed.

#[global] Instance calls_satisfy_preorder Q : PreOrder (calls_satisfy Q).
Proof.
  split.
  - intros w. by apply calls_same_journal.
  - intros a b c (l1 & H1 & Q1) (l2 & H2 & Q2). exists (l1 ++ l2).
    rewrite H2, H1, app_assoc. split; [done|]. by apply Forall_app.
Qed.

Lemma calls_record_call Q c : Q c -> keeps (calls_satisfy Q) (record_call c).
Proof.
  intros H. unfold record_call. apply keeps_modify. intros w. exists [c].
  split; [done|]. by apply Forall_singleton.
Qed.

Lemma calls_since_satisfy Q w w' c :
  calls_satisfy Q w w' -> c ∈ calls_since w w' -> Q c.
Proof.
  intros (l & Hl & HQ) Hc. unfold calls_since in Hc. rewrite Hl, drop_app_length in Hc.
  by apply (proj1 (Forall_forall _ _) HQ).
Qed.

(** Steps that call no [transform_apply]. *)
Ltac keeps_calls :=
  repeat first
    [ keeps_step
    | assumption
    | apply calls_record_call; exact I
    | apply keeps_modify; intros ?; apply calls_same_journal; reflexivity ].

#[global] Instance kin_preorder : PreOrder kin.
Proof.
  split; [by intros o|]. intros a b c [? ?] [? ?]. unfold kin. split; congruence.
Qed.

#[global] Instance via_kin_frame : Frame (via_objects kin).
Proof. apply via_objects_frame; [apply _|]. by intros o o' (?&?&?&?&?&?&?). Qed.

Ltac keeps_kin :=
  repeat first
    [ keeps_step
    | solve [eauto with keeps]
    | apply keeps_bpy_ops; [typeclasses eauto|]
    | apply keeps_objects_update; [apply _|by intros []]
    | apply keeps_objects_modify; [apply _|by intros ?] ].

Lemma triple_get_object R `{!PreOrder R} {A} I n (k : Object -> M A) J :
  (forall ob, triple R (fun w => I w /\ objects (scene w) !! n = Some ob) (k ob) J) ->
  triple R I (bind (get_object n) k) J.
Proof.
  intros H w Hw. unfold bind, get_object.
  destruct (objects (scene w) !! n) as [ob|] eqn:Hob; [by apply (H ob w)|].
  split; [reflexivity|]. intros ? ? E. discriminate E.
Qed.

Section Bakes.
Context (objs0 : gmap string Object).

#[local] Abbreviation RB := (calls_satisfy (rotation_under_root objs0)).

Lemma akin_stable w w' : akin objs0 w -> via_objects kin w w' -> akin objs0 w'.
Proof. intros H1 H2. unfold via_objects, akin in *. by etrans. Qed.

Lemma akin_stable_soft w w' : akin objs0 w -> via_objects soft w w' -> akin objs0 w'.
Proof.
  intros H1 H2. apply (akin_stable w w' H1). unfold via_objects in *.
  eapply objects_related_mono; [|exact H2]. by intros o o' (?&?&?&?&?&?&?).
Qed.

Lemma calls_preparation : keeps RB preparation.
Proof.
  unfold preparation, undo_push, reset_globals, mode_set_object, unhide_all_collections,
    unhide_objects, make_single_user_data, apply_object_modifiers, select_all_deselect,
    convert_to_mesh, convert_object, select_set, data_copy, bpy_ops, view_layer_update,
    print, update_object.
  keeps_calls.
Qed.

Lemma calls_reset_parent_inverse n : keeps RB (reset_parent_inverse n).
Proof. unfold reset_parent_inverse, update_object. keeps_calls. Qed.

Lemma calls_matrix_local_get n : keeps RB (matrix_local_get n).
Proof. unfold matrix_local_get. keeps_calls. Qed.

Lemma calls_matrix_local_set n m : keeps RB (matrix_local_set n m).
Proof. unfold matrix_local_set, update_object. keeps_calls. Qed.

(** An object of the view layer, at or below a root object. *)
#[local] Abbreviation eligible := (fun n =>
  (exists o, objs0 !! n = Some o /\ in_view_layer o = true) /\ under_root objs0 n).

Lemma akin_lookup w n o :
  akin objs0 w -> objs0 !! n = Some o ->
  exists o', objects (scene w) !! n = Some o' /\ kin o o'.
Proof. intros H Hn. specialize (H n). rewrite Hn in H. inversion H; subst. eauto. Qed.

Lemma akin_lookup_r w n o' :
  akin objs0 w -> objects (scene w) !! n = Some o' ->
  exists o, objs0 !! n = Some o /\ kin o o'.
Proof. intros H Hn. specialize (H n). rewrite Hn in H. inversion H; subst. eauto. Qed.

Lemma triple_bake_apply_rotation n :
  eligible n -> triple RB (akin objs0) (apply_rotation n) (fun _ w => akin objs0 w).
Proof.
  intros [(o & Ho & Hv) Hroot] w Hw. split.
  - destruct (akin_lookup w n o Hw Ho) as (o' & Ho' & _ & Hv').
    pose proof (apply_rotation_journal n w o' Ho' ltac:(congruence)) as Hj.
    destruct (keeps_apply_rotation grows n w) as (calls & Hcalls & _).
    unfold calls_since in Hj. rewrite Hcalls, drop_app_length in Hj. subst calls.
    eexists. split; [exact Hcalls|].
    apply Forall_cons. split; [exact I|]. apply Forall_singleton.
    split; [done|]. split; [done|]. split; [done|]. by exists n, o.
  - intros [] w' E. apply (akin_stable_soft w w' Hw).
    eapply keeps_Ok; [|exact E]. apply keeps_apply_rotation. apply _.
Qed.

Lemma triple_bake_fix_steps n :
  eligible n -> triple RB (akin objs0) (fix_steps n) (fun _ w => akin objs0 w).
Proof.
  intros Hn. unfold fix_steps.
  eapply triple_bind; [apply _| |intros ?].
  { apply (triple_keeps RB (via_objects soft));
      [apply calls_reset_parent_inverse|apply keeps_reset_parent_inverse; apply _
      |apply akin_stable_soft]. }
  eapply triple_bind; [apply _| |intros mat_original].
  { apply (triple_keeps RB (via_objects soft));
      [apply calls_matrix_local_get|apply keeps_matrix_local_get; apply _
      |apply akin_stable_soft]. }
  eapply triple_bind; [apply _| |intros ?].
  { apply (triple_keeps RB (via_objects soft));
      [apply calls_matrix_local_set|apply keeps_matrix_local_set; apply _
      |apply akin_stable_soft]. }
  eapply triple_bind; [apply _|by apply triple_bake_apply_rotation|intros ?].
  apply (triple_keeps RB (via_objects soft));
    [apply calls_matrix_local_set|apply keeps_matrix_local_set; apply _
    |apply akin_stable_soft].
Qed.

(** The traversal from an object at or below a root object bakes the
    rotations of objects of the view layer below that root, and nothing
    else. *)
Lemma triple_bake_fix_object fuel : forall n,
  under_root objs0 n ->
  triple RB (akin objs0) (fix_object fuel n) (fun _ w => akin objs0 w).
Proof.
  induction fuel as [|fuel IH]; intros n Hn.
  { intros w Hw. split; [reflexivity|by intros ? ? ?]. }
  rewrite fix_object_unfold. apply triple_get_object; [apply _|]. intros ob.
  eapply triple_bind; [apply _| |intros ?].
  { destruct (in_view_layer ob) eqn:Hv.
    - intros w [Hw Hob].
      destruct (akin_lookup_r w n ob Hw Hob) as (o & Ho & _ & Hv').
      apply (triple_bake_fix_steps n); [|done]. split; [|done].
      exists o. split; [done|congruence].
    - intros w [Hw Hob]. split; [reflexivity|]. intros [] w' E. by injection E as <-. }
  eapply triple_bind; [apply _|apply triple_gets; apply _|intros s].
  apply (triple_conseq _ _
    (fun w => (forall c, c ∈ children_of (objects s) n -> under_root objs0 c) /\ akin objs0 w)
    _ _ (fun _ w => akin objs0 w)); [| |intros ? ? H; exact H].
  - apply triple_pure. intros Hkids. apply triple_for_each; [apply _|]. intros c Hc.
    apply IH. by apply Hkids.
  - intros w [-> Hw]. split; [|done]. intros c Hc.
    destruct (children_of_parent _ _ _ Hc) as (oc & Hoc & Hp).
    destruct (akin_lookup_r w c oc Hw Hoc) as (o & Ho & Hpar & _).
    destruct Hn as (root & Hroot & Hd). exists root. split; [done|].
    apply (descends_child objs0 root c o n Ho); [congruence|done].
Qed.
End Bakes.

Lemma preparation_roots w roots selection w1 :
  preparation w = Ok (roots, selection) w1 -> roots = root_objects (objects (scene w)).
Proof.
  unfold preparation. intros H.
  apply bind_Ok_inv in H as (? & wa & [= <-] & H1).
  apply bind_Ok_inv in H1 as (s & wb & [= <- <-] & H2).
  apply bind_Ok_inv in H2 as (? & ? & _ & H3).
  apply bind_Ok_inv in H3 as (? & ? & _ & H4).
  apply bind_Ok_inv in H4 as (s1 & ? & _ & H5).
  apply bind_Ok_inv in H5 as (? & ? & _ & H6).
  apply bind_Ok_inv in H6 as (? & ? & _ & H7).
  apply bind_Ok_inv in H7 as (? & ? & _ & H8).
  apply bind_Ok_inv in H8 as (? & ? & _ & H9).
  apply bind_Ok_inv in H9 as (? & ? & _ & H10).
  unfold ret in H10. injection H10 as <- _ _. by subst.
Qed.

Lemma keeps_kin_preparation : keeps (via_objects kin) preparation.
Proof.
  unfold preparation, undo_push, reset_globals, mode_set_object, unhide_all_collections,
    unhide_objects, make_single_user_data, apply_object_modifiers, convert_to_mesh,
    convert_object, data_copy.
  keeps_kin.
Qed.

Lemma elem_of_root_objects objs n :
  n ∈ root_objects objs
  <-> exists o, objs !! n = Some o /\ ob_parent o = None
        /\ ob_type o ∈ [EMPTY; MESH; ARMATURE; FONT; CURVE; SURFACE].
Proof.
  unfold root_objects. rewrite list_elem_of_filter, elem_of_object_names.
  split.
  - intros [H _]. destruct (objs !! n) as [o|]; [|done]. exists o. split; [done|].
    injection H as H. unfold is_root_object in H. apply andb_true_iff in H as [Hk Hp].
    split.
    + apply negb_true_iff, bool_decide_eq_false_1 in Hp. destruct (ob_parent o); [|done].
      destruct Hp. by eexists.
    + repeat (apply orb_true_iff in Hk as [Hk|Hk]);
        apply bool_decide_eq_true_1 in Hk; rewrite Hk; set_solver.
  - intros (o & Ho & Hp & Hk). rewrite Ho. split; [|by eexists]. simpl. f_equal.
    unfold is_root_object. rewrite Hp. simpl.
    rewrite andb_true_r.
    repeat (apply elem_of_cons in Hk as [->|Hk]); try done. by apply elem_of_nil in Hk.
Qed.

Section Run.
Context (objs0 : gmap string Object).

#[local] Abbreviation RB' := (calls_satisfy (rotation_under_root objs0)).

Lemma triple_bake_preparation :
  triple RB' (fun w => objects (scene w) = objs0) preparation
         (fun prepared w => prepared.1 = root_objects objs0 /\ akin objs0 w).
Proof.
  intros w Hw. split; [apply calls_preparation|]. intros [roots selection] w' E. split.
  - simpl. by rewrite (preparation_roots _ _ _ _ E), Hw.
  - apply (akin_stable objs0 w w').
    + unfold akin. rewrite Hw. reflexivity.
    + eapply keeps_Ok; [apply keeps_kin_preparation|exact E].
Qed.

Lemma triple_bake_fix_roots roots :
  roots = root_objects objs0 ->
  triple RB' (akin objs0) (fix_roots roots) (fun _ w => akin objs0 w).
Proof.
  intros ->. unfold fix_roots. apply triple_for_each; [apply _|]. intros n Hn.
  apply triple_get_object; [apply _|]. intros ob.
  eapply triple_conseq; [|intros w [Hw _]; exact Hw|intros ? ? H; exact H].
  eapply triple_bind; [apply _| |intros ?].
  { apply (triple_keeps RB' (via_objects kin));
      [unfold print; keeps_calls|apply keeps_print; apply _|apply akin_stable]. }
  eapply triple_bind; [apply _|apply triple_gets_same; apply _|intros s].
  apply triple_bake_fix_object. exists n. split; [done|constructor].
Qed.

Lemma calls_protected_tail fbx filepath kwargs selection :
  keeps RB'
    (restore_shared_data ;; view_layer_update ;; restore_objects ;; restore_collections ;;
     restore_selection selection ;;
     print (OutInvoking (build_params filepath kwargs)) ;;
     export_scene_fbx fbx (build_params filepath kwargs)).
Proof.
  unfold restore_shared_data, restore_objects, restore_collections, restore_selection,
    export_scene_fbx, select_all_deselect, select_set, bpy_ops, view_layer_update, print,
    update_object.
  keeps_calls.
Qed.

Lemma calls_restore_scene : keeps RB' restore_scene.
Proof.
  unfold restore_scene, undo_push, undo, bpy_ops, view_layer_update. keeps_calls.
  apply keeps_modify. intros w. apply calls_same_journal.
  by destruct (undo_stack w) as [|? [|? ?]].
Qed.

End Run.



(** ** Every rotation is baked before the file is written *)

Lemma descends_top objs r n :
  descends objs r n ->
  n = r \/ exists c oc, objs !! c = Some oc /\ ob_parent oc = Some r /\ descends objs c n.
Proof.
  induction 1 as [|n o p Ho Hp Hd IH]; [by left|]. right.
  destruct IH as [->|(c & oc & Hc & Hpc & Hdc)].
  - exists n, o. split; [done|]. split; [done|]. constructor.
  - exists c, oc. split; [done|]. split; [done|]. by apply (descends_child objs c n o p).
Qed.

Lemma descends_akin objs objs' r n :
  objects_related kin objs objs' -> descends objs r n -> descends objs' r n.
Proof.
  intros Hrel. induction 1 as [|n o p Ho Hp Hd IH]; [constructor|].
  specialize (Hrel n). rewrite Ho in Hrel. inversion Hrel as [? o' [Hpar _] E1 E2|]; subst.
  apply (descends_child objs' r n o' p); [done|congruence|done].
Qed.

Lemma soft_kin objs objs' : objects_related soft objs objs' -> objects_related kin objs objs'.
Proof. apply objects_related_mono. by intros o o' (?&?&?&?&?&?&?). Qed.

Lemma elem_of_children_of objs n c :
  c ∈ children_of objs n <-> (objs !! c) ≫= ob_parent = Some n.
Proof.
  unfold children_of. rewrite list_elem_of_filter, elem_of_object_names.
  split; [by intros [? _]|]. intros H. split; [done|].
  by destruct (objs !! c).
Qed.

Lemma calls_since_grows w0 w w' c :
  c ∈ calls_since w0 w -> grows w w' -> c ∈ calls_since w0 w'.
Proof.
  intros Hc (l & Hl & _). unfold calls_since in *. rewrite Hl, drop_app.
  apply elem_of_app. by left.
Qed.

(** A traversal that returns has baked the rotation of every object of the
    view layer at or below the object it started from. *)
Lemma fix_object_bakes_below fuel : forall r w w' n o,
  fix_object fuel r w = Ok tt w' ->
  descends (objects (scene w)) r n ->
  objects (scene w) !! n = Some o -> in_view_layer o = true ->
  CallTransformApply [n] false true false ∈ calls_since w w'.
Proof.
  induction fuel as [|fuel IH]; intros r w w' n o Hrun Hd Hn Hv; [discriminate Hrun|].
  destruct (descends_top _ _ _ Hd) as [->|(c & oc & Hc & Hpc & Hdc)];
    [by eapply fix_object_bakes|].
  rewrite fix_object_unfold in Hrun.
  apply bind_Ok_inv in Hrun as (ob & w0 & Hget & Hrun).
  assert (w0 = w) as ->.
  { unfold get_object in Hget. destruct (objects (scene w) !! r); [|done]. by injection Hget. }
  apply bind_Ok_inv in Hrun as ([] & w1 & Hsteps & Hrun).
  apply bind_Ok_inv in Hrun as (s & w2 & Hs & Hloop). injection Hs as <- <-.
  assert (Hstep : both grows (via_objects soft) w w1).
  { eapply keeps_Ok; [|exact Hsteps]. apply keeps_when; [apply _|].
    apply keeps_fix_steps. apply _. }
  destruct Hstep as [G1 S1].
  assert (Hchild : c ∈ children_of (objects (scene w1)) r).
  { apply elem_of_children_of.
    destruct (soft_in_view_layer _ _ _ _ S1 Hc) as (oc1 & Hoc1 & Hs1).
    rewrite Hoc1. simpl. destruct Hs1 as (_ & Hp1 & _). congruence. }
  destruct (for_each_split (both grows (via_objects soft)) _ _ c _ _
              (fun y => keeps_fix_object _ fuel y) Hchild Hloop)
    as (wa & wb & [Ga Sa] & Hvisit & [Gb _]).
  assert (Swa : via_objects soft w wa) by (by etrans).
  destruct (soft_in_view_layer _ _ _ _ Swa Hn) as (oa & Hoa & Hsa).
  assert (Hin : CallTransformApply [n] false true false ∈ calls_since wa wb).
  { apply (IH c wa wb n oa Hvisit); [|done|].
    - apply (descends_akin (objects (scene w))); [by apply soft_kin|done].
    - destruct Hsa as (_ & _ & _ & _ & E & _). congruence. }
  assert (Gv : grows wa wb).
  { eapply (keeps_Ok grows); [|exact Hvisit]. apply keeps_fix_object. apply _. }
  apply (calls_since_grows w wb w'); [|done].
  apply (grows_calls_since w wa wb); [by etrans|done|done].
Qed.

Lemma all_baked_grows w0 w w' : all_baked w0 w -> grows w w' -> all_baked w0 w'.
Proof.
  intros H G root n o Hroot Hd Hn Hv. apply (calls_since_grows w0 w w'); [|done].
  by apply (H root n o).
Qed.

Section ExportsAfter.
Context (B : World -> Prop) (B_grows : forall w w', B w -> grows w w' -> B w').

#[local] Abbreviation quiet := (exports_satisfy (fun _ _ => False)).

Lemma quiet_grows w w' : quiet w w' -> grows w w'.
Proof. intros (l & Hl & _). by exists l. Qed.

Lemma quiet_exports_after w w' : quiet w w' -> exports_after B w w'.
Proof.
  intros H. split; [by apply quiet_grows|]. intros (p & sc & Hin).
  by destruct (calls_since_exports _ _ _ _ H Hin).
Qed.

#[global] Instance exports_after_preorder : PreOrder (exports_after B).
Proof using B_grows.
  split.
  - intros w. split; [reflexivity|]. intros (p & sc & Hin).
    unfold calls_since in Hin. rewrite drop_all in Hin. by apply elem_of_nil in Hin.
  - intros a b c [G1 H1] [G2 H2]. split; [by etrans|]. intros (p & sc & Hin).
    destruct G1 as (l1 & E1 & _). destruct G2 as (l2 & E2 & T2).
    unfold calls_since in Hin. rewrite E2, E1, <- app_assoc, drop_app_length in Hin.
    apply elem_of_app in Hin as [Hin|Hin].
    + apply (B_grows b c); [|by exists l2]. apply H1. exists p, sc.
      unfold calls_since. by rewrite E1, drop_app_length.
    + apply H2. exists p, sc. unfold calls_since. by rewrite E2, drop_app_length.
Qed.

Lemma keeps_quiet_after {A} (m : M A) : keeps quiet m -> keeps (exports_after B) m.
Proof. intros H w. apply quiet_exports_after, H. Qed.

(** A step, exporting or not, from a world where [B] holds already. *)
Lemma triple_after_done {A} (m : M A) :
  keeps grows m -> triple (exports_after B) B m (fun _ _ => True).
Proof using B_grows.
  intros H w Hw. split; [|done]. split; [apply H|]. intros _. apply (B_grows w); [done|apply H].
Qed.

End ExportsAfter.

Section AllBaked.
Context (w0 : World).

#[local] Abbreviation RA := (exports_after (all_baked w0)).
#[local] Abbreviation started :=
  (fun w => grows w0 w /\ akin (objects (scene w0)) w).

#[local] Instance RA_preorder : PreOrder RA.
Proof. apply exports_after_preorder, all_baked_grows. Qed.

Lemma triple_baked_preparation :
  triple RA (fun w => w = w0) preparation
         (fun prepared w => prepared.1 = root_objects (objects (scene w0)) /\ started w).
Proof.
  intros w ->. split; [apply keeps_quiet_after, exports_preparation|].
  intros [roots selection] w' E. split; [|split].
  - simpl. by rewrite (preparation_roots _ _ _ _ E).
  - apply quiet_grows. eapply keeps_Ok; [apply exports_preparation|exact E].
  - apply (akin_stable _ w0 w'); [unfold akin; reflexivity|].
    eapply keeps_Ok; [apply keeps_kin_preparation|exact E].
Qed.

Lemma triple_baked_fix_roots roots :
  roots = root_objects (objects (scene w0)) ->
  triple RA started (fix_roots roots) (fun _ w => all_baked w0 w).
Proof.
  intros -> w [Gw Kw]. split.
  { apply keeps_quiet_after. unfold fix_roots. keeps_frame. }
  intros [] w' Hrun root n o Hroot Hd Hn Hv.
  assert (Hbody : forall y, keeps (both grows (via_objects kin))
            (ob <- get_object y ;; print (OutRoot y (ob_type ob)) ;;
             s <- gets scene ;; fix_object (recursion_fuel s) y)) by (intros y; keeps_frame).
  destruct (for_each_split (both grows (via_objects kin)) _ _ root _ _ Hbody Hroot Hrun)
    as (wa & wb & [Ga Ka] & Hvisit & [Gb _]).
  apply bind_Ok_inv in Hvisit as (ob & wa' & Hget & Hvisit).
  assert (wa' = wa) as ->.
  { unfold get_object in Hget. destruct (objects (scene wa) !! root); [|done].
    by injection Hget. }
  apply bind_Ok_inv in Hvisit as ([] & w1 & Hprint & Hvisit).
  apply bind_Ok_inv in Hvisit as (s & w2 & Hs & Hvisit). injection Hs as <- <-.
  assert (Hp : both grows (via_objects kin) wa w1).
  { eapply keeps_Ok; [|exact Hprint]. apply keeps_print. apply _. }
  destruct Hp as [G1 K1].
  assert (K : akin (objects (scene w0)) w1).
  { apply (akin_stable _ wa w1); [|done]. by apply (akin_stable _ w wa). }
  destruct (akin_lookup _ w1 n o K Hn) as (o1 & Ho1 & _ & Hv1).
  assert (Hin : CallTransformApply [n] false true false ∈ calls_since w1 w').
  { apply (calls_since_grows w1 wb w'); [|done].
    apply (fix_object_bakes_below _ root w1 wb n o1 Hvisit); [|done|congruence].
    by apply (descends_akin (objects (scene w0))). }
  assert (G : grows w0 w1) by (etrans; [exact Gw|]; etrans; [exact Ga|exact G1]).
  assert (Gr : grows w1 w').
  { etrans; [|exact Gb]. eapply (keeps_Ok grows); [|exact Hvisit].
    apply keeps_fix_object. apply _. }
  exact (grows_calls_since w0 w1 w' _ G Hin Gr).
Qed.

End AllBaked.



(** ** The steps of the rewriter on a root object *)

Lemma object_users_ext (objs objs' : gmap string Object) d :
  (forall m, ob_data <$> objs' !! m = ob_data <$> objs !! m) ->
  object_users objs' d = object_users objs d.
Proof.
  intros H. unfold object_users. rewrite (object_names_dom objs' objs).
  - apply filter_ext_in. intros m _. specialize (H m).
    destruct (objs' !! m), (objs !! m); simpl in *; try done. by injection H as ->.
  - intros m. rewrite <- !(fmap_is_Some ob_data). by rewrite H.
Qed.

(** [transform_apply(rotation=True)] on a parentless object whose basis is
    the rotation by -90 degrees about X: the rotation goes into the data
    and the basis is left the identity. *)
Lemma apply_transform_object_root n w o d :
  objects (scene w) !! n = Some o -> ob_parent o = None -> ob_data o = Some d ->
  matrix_basis o = Rotation_neg90_X ->
  exists w' o',
    apply_transform_object false true false n w = Ok tt w'
    /\ datablocks (scene w') = alter (bake_into Rotation_neg90_X) d (datablocks (scene w))
    /\ objects (scene w') !! n = Some o' /\ ob_parent o' = None
    /\ journal w' = journal w.
Proof.
  intros Hn Hp Hd Hb. unfold apply_transform_object, bind at 1.
  rewrite (get_object_run n w o Hn), Hb, decompose_Rotation_neg90_X, Hd, Hp.
  unfold kept. rewrite !mmul_identity_l, !mmul_identity_r.
  unfold bind at 1, modify at 1. unfold bind at 1, ret at 1.
  unfold bind at 1, update_object at 1, modify at 1. unfold bind at 1, gets at 1.
  rewrite update_objects_loop. eexists _, _. split; [reflexivity|].
  split; [reflexivity|]. split; [|split; [|reflexivity]].
  - rewrite !scene_with_scene, !objects_set_objects.
    rewrite lookup_foldl_alter by (by intros []).
    rewrite objects_set_datablocks, lookup_alter_eq, Hn. simpl. rewrite bool_decide_eq_false_2; [reflexivity|].
    rewrite elem_of_children_of, lookup_alter_eq, Hn. simpl. by rewrite Hp.
  - simpl. exact Hp.
Qed.



(** ** The operator *)

Lemma kwargs_keys self :
  (Operator.kwargs self).*1
  = ["use_selection"; "use_visible"; "use_active_collection"; "global_scale";
     "apply_unit_scale"; "use_space_transform"; "object_types"; "use_mesh_modifiers";
     "use_mesh_modifiers_render"; "mesh_smooth_type"; "colors_type";
     "prioritize_active_color"; "use_subsurf"; "use_mesh_edges"; "use_custom_props";
     "use_armature_deform_only"; "add_leaf_bones"; "armature_nodetype";
     "primary_bone_axis"; "secondary_bone_axis"; "use_tspace"; "use_triangles";
     "path_mode"; "embed_textures"; "batch_mode"; "use_batch_own_dir"; "use_metadata";
     "bake_anim"; "bake_anim_use_all_bones"; "bake_anim_use_nla_strips";
     "bake_anim_use_all_actions"; "bake_anim_force_startend_keying"; "bake_anim_step";
     "bake_anim_simplify_factor"].
Proof. reflexivity. Qed.

Lemma kwargs_NoDup self : NoDup (Operator.kwargs self).*1.
Proof. rewrite kwargs_keys. apply (bool_decide_unpack _). vm_compute. exact I. Qed.

Lemma kwargs_lookup self k :
  k ∉ (Operator.kwargs self).*1 ->
  (list_to_map (Operator.kwargs self) : Params) !! k = None.
Proof. apply not_elem_of_list_to_map_1. Qed.

(** X14. [execute] hands the settings of the operator to [export_unity_fbx]
    under the names of the serializer's options.  No key of the dictionary
    is [filepath] or [context], so the call never fails on an argument given
    twice; none is [apply_scale_options], so whatever the settings, the
    serializer is called with [apply_scale_options='FBX_SCALE_UNITS'], with
    the file path of the operator, with each of the thirty-four settings
    under its name, and with nothing else. *)
Theorem execute_passes_settings fbx self w :
  (list_to_map (Operator.kwargs self) : Params) !! "filepath" = None
  /\ (list_to_map (Operator.kwargs self) : Params) !! "context" = None
  /\ forall p sc,
       CallExportFbx p sc ∈ calls_since w (world_of (Operator.execute fbx self w)) ->
       p !! "filepath" = Some (PyStr (Operator.filepath self))
       /\ p !! "apply_scale_options" = Some (PyStr "FBX_SCALE_UNITS")
       /\ (forall k v, (k, v) ∈ Operator.kwargs self -> p !! k = Some v)
       /\ (forall k, is_Some (p !! k) ->
             k = "filepath" \/ k = "apply_scale_options" \/ k ∈ (Operator.kwargs self).*1).
Proof.
  assert (Hout : forall k, k ∉ (Operator.kwargs self).*1 ->
            (list_to_map (Operator.kwargs self) : Params) !! k = None)
    by (intros k; apply kwargs_lookup).
  assert (Hf : "filepath" ∉ (Operator.kwargs self).*1)
    by (rewrite kwargs_keys; apply (bool_decide_unpack _); vm_compute; exact I).
  assert (Hc : "context" ∉ (Operator.kwargs self).*1)
    by (rewrite kwargs_keys; apply (bool_decide_unpack _); vm_compute; exact I).
  assert (Ha : "apply_scale_options" ∉ (Operator.kwargs self).*1)
    by (rewrite kwargs_keys; apply (bool_decide_unpack _); vm_compute; exact I).
  split; [by apply Hout|]. split; [by apply Hout|].
  intros p sc Hin. unfold Operator.execute in Hin.
  pose proof (calls_since_exports _ _ _ _
                (exports_export_unity_fbx fbx (Operator.filepath self)
                   (list_to_map (Operator.kwargs self)) w) Hin) as Hp.
  cbv beta iota in Hp. subst p. unfold build_params, dict_update, default_params.
  split; [|split; [|split]].
  - rewrite lookup_union_r by (by apply Hout).
    rewrite lookup_insert_ne by done. by rewrite lookup_insert_eq.
  - rewrite lookup_union_r by (by apply Hout).
    by rewrite lookup_insert_eq.
  - intros k v Hkv. apply lookup_union_Some_l.
    apply elem_of_list_to_map_1; [apply kwargs_NoDup|done].
  - intros k [v Hk]. apply lookup_union_Some_raw in Hk as [Hk|[_ Hk]].
    + right. right. apply elem_of_list_to_map_2 in Hk.
      apply list_elem_of_fmap. by exists (k, v).
    + destruct (decide (k = "apply_scale_options")) as [->|Hne]; [by right; left|].
      rewrite lookup_insert_ne in Hk by done.
      destruct (decide (k = "filepath")) as [->|Hne']; [by left|].
      by rewrite lookup_insert_ne in Hk.
Qed.

Lemma execute_passes_settings_witness :
  exists p sc,
    CallExportFbx p sc
      ∈ calls_since (Samples.world_with Samples.single_root)
          (world_of (Operator.execute Samples.fbx_writes (Samples.default_settings "out.fbx")
                       (Samples.world_with Samples.single_root)))
    /\ p !! "filepath" = Some (PyStr "out.fbx")
    /\ p !! "apply_scale_options" = Some (PyStr "FBX_SCALE_UNITS")
    /\ p !! "use_selection" = Some (PyBool false).
Proof.
  set (calls := calls_since _ _).
  assert (He : existsb (fun c => match c with CallExportFbx _ _ => true | _ => false end)
                 calls = true) by (vm_compute; reflexivity).
  apply existsb_exists in He as ([| | | | | |p sc] & Hin & Hc); try discriminate Hc.
  apply list_elem_of_In in Hin. exists p, sc.
  destruct (execute_passes_settings Samples.fbx_writes (Samples.default_settings "out.fbx")
              (Samples.world_with Samples.single_root)) as (_ & _ & H).
  destruct (H p sc Hin) as (H1 & H2 & H3 & _).
  exact (conj Hin (conj H1 (conj H2 (H3 "use_selection" (PyBool false)
           (list_elem_of_here _ _))))).
Defined.

(** ** When the run says that the file is saved *)

Lemma prints_same_stdout Q w w' : stdout w' = stdout w -> prints_satisfy Q w w'.
Proof. intros H. exists []. by rewrite app_nil_r. Qed.

#[global] Instance prints_satisfy_preorder Q : PreOrder (prints_satisfy Q).
Proof.
  split.
  - intros w. by apply prints_same_stdout.
  - intros a b c (l1 & H1 & Q1) (l2 & H2 & Q2). exists (l1 ++ l2).
    rewrite H2, H1, app_assoc. split; [done|]. by apply Forall_app.
Qed.

Lemma prints_print Q o : Q o -> keeps (prints_satisfy Q) (print o).
Proof.
  intros H. unfold print. apply keeps_modify. intros w. exists [o].
  split; [done|]. by apply Forall_singleton.
Qed.

Lemma stdout_since_satisfy Q w w' o :
  prints_satisfy Q w w' -> o ∈ stdout_since w w' -> Q o.
Proof.
  intros (l & Hl & HQ) Ho. unfold stdout_since in Ho. rewrite Hl, drop_app_length in Ho.
  by apply (proj1 (Forall_forall _ _) HQ).
Qed.

(** Steps that print nothing but lines other than the closing message. *)
Ltac keeps_prints :=
  repeat first
    [ keeps_step
    | solve [auto]
    | apply prints_print; discriminate
    | apply keeps_modify; intros ?; apply prints_same_stdout; reflexivity ].

Section Prints.

#[local] Abbreviation RP := (prints_satisfy (fun o => o <> saved_message)).

Lemma prints_fix_object fuel : forall n, keeps RP (fix_object fuel n).
Proof.
  induction fuel as [|fuel IH]; intros n; [apply keeps_raise; apply _|].
  rewrite fix_object_unfold.
  unfold fix_steps, reset_parent_inverse, matrix_local_get, matrix_local_set, apply_rotation,
    select_all_deselect, select_set, transform_apply, apply_transform_object, bpy_ops,
    view_layer_update, record_call, update_object.
  keeps_prints; apply IH.
Qed.

Lemma prints_preparation : keeps RP preparation.
Proof.
  unfold preparation, undo_push, reset_globals, mode_set_object, unhide_all_collections,
    unhide_objects, make_single_user_data, apply_object_modifiers, select_all_deselect,
    convert_to_mesh, convert_object, select_set, data_copy, bpy_ops, view_layer_update,
    record_call, update_object.
  keeps_prints.
Qed.

Lemma prints_protected_region fbx filepath kwargs roots selection :
  keeps RP (protected_region fbx filepath kwargs roots selection).
Proof.
  pose proof prints_fix_object.
  unfold protected_region, export_scene_fbx, select_all_deselect, select_set, bpy_ops,
    view_layer_update, record_call, update_object.
  keeps_prints.
Qed.

Lemma prints_restore_scene : keeps RP restore_scene.
Proof.
  unfold restore_scene, undo_push, undo, bpy_ops, view_layer_update, record_call.
  keeps_prints.
  apply keeps_modify. intros w. apply prints_same_stdout.
  by destruct (undo_stack w) as [|? [|? ?]].
Qed.

Lemma prints_on_exception e : keeps RP (on_exception e).
Proof. pose proof prints_restore_scene. unfold on_exception. keeps_prints. Qed.

End Prints.

Section Written.
Context (fbx : Serializer).

#[local] Abbreviation quiet := (exports_satisfy (fun _ _ => False)).

Lemma quiet_not_written w w' : quiet w w' -> ~ written fbx w w'.
Proof. intros H (p & sc & Hin & _). by destruct (calls_since_exports _ _ _ _ H Hin). Qed.

Lemma written_after_quiet w w1 w' :
  quiet w w1 -> grows w1 w' -> (written fbx w w' <-> written fbx w1 w').
Proof.
  intros (l1 & E1 & Q1) (l2 & E2 & _). unfold written, calls_since.
  rewrite E2, drop_app_length, E1, <- app_assoc, drop_app_length.
  split; intros (p & sc & Hin & Hw); exists p, sc; (split; [|done]).
  - apply elem_of_app in Hin as [Hin|Hin]; [by destruct (Q1 p sc Hin)|done].
  - apply elem_of_app. by right.
Qed.

Lemma written_before_quiet w w1 w' :
  grows w w1 -> quiet w1 w' -> (written fbx w w' <-> written fbx w w1).
Proof.
  intros (l1 & E1 & _) (l2 & E2 & Q2). unfold written, calls_since.
  rewrite E2, E1, <- app_assoc, !drop_app_length.
  split; intros (p & sc & Hin & Hw); exists p, sc; (split; [|done]).
  - apply elem_of_app in Hin as [Hin|Hin]; [done|by destruct (Q2 p sc Hin)].
  - apply elem_of_app. by left.
Qed.

Lemma quiet_grows' w w' : quiet w w' -> grows w w'.
Proof. intros (l & Hl & _). by exists l. Qed.

Lemma returns_when_written_bind {A B} (m : M A) (k : A -> M B) :
  keeps quiet m -> (forall a, returns_when_written fbx (k a)) ->
  returns_when_written fbx (bind m k).
Proof.
  intros Hm Hk w. specialize (Hm w). unfold bind.
  destruct (m w) as [a w1|e w1]; simpl in Hm.
  - destruct (Hk a w1) as [G Hw]. split; [etrans; [by apply quiet_grows'|exact G]|].
    destruct (k a w1) as [b w'|e w']; simpl in G.
    + by apply (written_after_quiet w w1 w').
    + by rewrite (written_after_quiet w w1 w').
  - split; [by apply quiet_grows'|]. by apply quiet_not_written.
Qed.

Lemma returns_when_written_export params :
  returns_when_written fbx (export_scene_fbx fbx params).
Proof.
  intros w. pose proof (export_scene_fbx_journal fbx params w) as Hj.
  split; [by eexists|].
  assert (Hcalls : calls_since w (world_of (export_scene_fbx fbx params w))
                   = [CallExportFbx params (update_world_matrices (scene w))])
    by (unfold calls_since; by rewrite Hj, drop_app_length).
  revert Hcalls.
  unfold export_scene_fbx. rewrite bpy_ops_run. unfold bind, gets, record_call, modify.
  rewrite !scene_with_scene.
  destruct (fbx params (update_world_matrices (scene w))) as [e|] eqn:Hf; simpl; intros Hcalls.
  - intros (p & sc & Hin & Hw). rewrite Hcalls in Hin.
    apply list_elem_of_singleton in Hin. injection Hin as -> ->. congruence.
  - exists params, (update_world_matrices (scene w)). split; [|done].
    rewrite Hcalls. apply list_elem_of_here.
Qed.

Lemma returns_when_written_ext {A} (m m' : M A) :
  (forall w, m w = m' w) -> returns_when_written fbx m' -> returns_when_written fbx m.
Proof. intros E H w. rewrite E. apply H. Qed.

Lemma returns_when_written_protected_region filepath kwargs roots selection :
  returns_when_written fbx (protected_region fbx filepath kwargs roots selection).
Proof.
  eapply returns_when_written_ext; [intros w; apply protected_region_pieces|].
  pose proof (exports_update_object (fun _ _ => False)).
  apply returns_when_written_bind; [unfold fix_roots; keeps_frame|intros ?].
  apply returns_when_written_bind; [unfold restore_shared_data; keeps_exports|intros ?].
  apply returns_when_written_bind; [keeps_frame|intros ?].
  apply returns_when_written_bind; [unfold restore_objects; keeps_exports|intros ?].
  apply returns_when_written_bind; [unfold restore_collections; keeps_exports|intros ?].
  apply returns_when_written_bind; [unfold restore_selection; keeps_frame|intros ?].
  apply returns_when_written_bind; [keeps_frame|intros ?].
  apply returns_when_written_export.
Qed.

End Written.

Lemma restore_scene_returns w :
  exists w', restore_scene w = Ok tt w' /\ stdout w' = stdout w.
Proof.
  eexists. split; [reflexivity|]. simpl.
  by destruct (undo_stack _) as [|? [|? ?]].
Qed.

Lemma not_saved_since w w' :
  prints_satisfy (fun o => o <> saved_message) w w' -> saved_message ∉ stdout_since w w'.
Proof. intros H Hin. by apply (stdout_since_satisfy _ _ _ _ H Hin). Qed.

Lemma export_unity_fbx_refused fbx filepath kwargs w :
  bool_decide (is_Some (kwargs !! "filepath") \/ is_Some (kwargs !! "context")) = true ->
  world_of (export_unity_fbx fbx filepath kwargs w) = w.
Proof. intros Hg. unfold export_unity_fbx. by rewrite Hg. Qed.

Lemma export_unity_fbx_unprepared fbx filepath kwargs w e w1 :
  bool_decide (is_Some (kwargs !! "filepath") \/ is_Some (kwargs !! "context")) = false ->
  preparation w = Raise e w1 ->
  world_of (export_unity_fbx fbx filepath kwargs w) = w1.
Proof. intros Hg Hprep. unfold export_unity_fbx. rewrite Hg. unfold bind at 1. by rewrite Hprep. Qed.

Lemma export_unity_fbx_prepared fbx filepath kwargs w roots selection w1 :
  bool_decide (is_Some (kwargs !! "filepath") \/ is_Some (kwargs !! "context")) = false ->
  preparation w = Ok (roots, selection) w1 ->
  world_of (export_unity_fbx fbx filepath kwargs w)
  = match protected_region fbx filepath kwargs roots selection w1 with
    | Ok _ w2 =>
        world_of ((restore_scene ;; print (OutText "FBX file for Unity saved.") ;;
                   ret FINISHED) w2)
    | Raise e w2 => world_of (on_exception e w2)
    end.
Proof.
  intros Hg Hprep. unfold export_unity_fbx. rewrite Hg.
  unfold bind at 1. rewrite Hprep. unfold bind at 1, try_except, bind at 1.
  destruct (protected_region fbx filepath kwargs roots selection w1) as [[] w2|e w2].
  - reflexivity.
  - unfold bind. by destruct (on_exception e w2).
Qed.

Lemma saved_after_restore w2 :
  exists w3,
    world_of ((restore_scene ;; print (OutText "FBX file for Unity saved.") ;;
               ret FINISHED) w2)
    = with_stdout (fun l => l ++ [saved_message]) w3
    /\ exports_satisfy (fun _ _ => False) w2 w3 /\ stdout w3 = stdout w2.
Proof.
  destruct (restore_scene_returns w2) as (w3 & Hrs & Hout).
  pose proof (exports_restore_scene (fun _ _ => False) w2) as Q3. rewrite Hrs in Q3.
  exists w3. split; [|by split]. unfold bind at 1. by rewrite Hrs.
Qed.

(** X15. A run of [export_unity_fbx] prints "FBX file for Unity saved."
    exactly when it has called the serializer and the serializer has
    returned without raising: the message is never printed for a file that
    was not written, and never missing for one that was. *)
Theorem saved_message_iff_written fbx filepath kwargs w :
  OutText "FBX file for Unity saved."
    ∈ stdout_since w (world_of (export_unity_fbx fbx filepath kwargs w))
  <-> exists p sc,
        CallExportFbx p sc ∈ calls_since w (world_of (export_unity_fbx fbx filepath kwargs w))
        /\ fbx p sc = None.
Proof.
  change (saved_message ∈ stdout_since w (world_of (export_unity_fbx fbx filepath kwargs w))
          <-> written fbx w (world_of (export_unity_fbx fbx filepath kwargs w))).
  assert (Hboth : forall (P Q : Prop), ~ P -> ~ Q -> (P <-> Q)) by tauto.
  destruct (bool_decide (is_Some (kwargs !! "filepath") \/ is_Some (kwargs !! "context")))
    eqn:Hg.
  { rewrite (export_unity_fbx_refused _ _ _ _ Hg). apply Hboth.
    - apply not_saved_since. reflexivity.
    - apply quiet_not_written. reflexivity. }
  pose proof (prints_preparation w) as P1.
  pose proof (exports_preparation (fun _ _ => False) w) as Q1.
  destruct (preparation w) as [[roots selection] w1|e w1] eqn:Hprep.
  2:{ rewrite (export_unity_fbx_unprepared _ _ _ _ _ _ Hg Hprep).
      apply Hboth; [apply not_saved_since; exact P1|apply quiet_not_written; exact Q1]. }
  rewrite (export_unity_fbx_prepared _ _ _ _ _ _ _ Hg Hprep).
  assert (G1 : grows w w1) by (apply quiet_grows'; exact Q1).
  pose proof (prints_protected_region fbx filepath kwargs roots selection w1) as P2.
  destruct (returns_when_written_protected_region fbx filepath kwargs roots selection w1)
    as [G2 W2].
  destruct (protected_region fbx filepath kwargs roots selection w1) as [[] w2|e w2].
  - destruct (saved_after_restore w2) as (w3 & -> & Q3 & Hout).
    assert (G : grows w w2) by (etrans; [exact G1|exact G2]).
    split; intros _.
    + apply (written_before_quiet fbx w w2); [exact G| |].
      * etrans; [exact Q3|]. by apply exports_satisfy_same_journal.
      * apply (written_after_quiet fbx w w1 w2 Q1 G2). exact W2.
    + assert (P : prints_satisfy (fun o => o <> saved_message) w w2)
        by (etrans; [exact P1|exact P2]).
      destruct P as (out & Hw2 & _). unfold stdout_since.
      replace (stdout (with_stdout (fun l => l ++ [saved_message]) w3))
        with (stdout w3 ++ [saved_message]) by (by destruct w3).
      rewrite Hout, Hw2, <- app_assoc, drop_app_length. apply elem_of_app. right.
      apply list_elem_of_here.
  - pose proof (prints_on_exception e w2) as P3.
    assert (Q3 : exports_satisfy (fun _ _ => False) w2 (world_of (on_exception e w2))).
    { pose proof (exports_restore_scene (fun _ _ => False)).
      assert (K : keeps (exports_satisfy (fun _ _ => False)) (on_exception e))
        by (unfold on_exception; keeps_exports).
      apply K. }
    apply Hboth.
    + apply not_saved_since. etrans; [exact P1|]. etrans; [exact P2|exact P3].
    + assert (G : grows w w2) by (etrans; [exact G1|exact G2]).
      rewrite (written_before_quiet fbx w w2 _ G Q3).
      rewrite (written_after_quiet fbx w w1 w2 Q1 G2). exact W2.
Qed.
